(** * Distributed Jacobi solver (MPI variant): model and verification

    The development embeds [MPI/jacobi_mpi.c].  Every rank runs the same
    [main]; the per-rank program is translated into a small process type
    whose nodes are the MPI collectives the source calls, and the group of
    ranks is executed in lock-step by a model of those collectives.

    - C [int] values are [Z] with the 32-bit wrap-around written out
      ([CInt.add], [CInt.mul]); [/] and [%] are [Z.quot] and [Z.rem].
    - C [double] values are the kernel's binary64 floats ([PrimFloat]).
    - Arrays are lists with checked reads and writes: an access outside the
      allocated length makes the process [PFault].
    - [malloc] is an oracle of the requested byte count. *)

From Stdlib Require Import ZArith Floats Lia Bool FunctionalExtensionality.
From stdpp Require Import base list list_numbers.

Local Open Scope Z_scope.

(** ** C integers *)

Module CInt.

Definition INT_MAX : Z := 2147483647.
Definition INT_MIN : Z := -2147483648.

(** Two's complement wrap-around of a 32-bit [int]. *)
Definition wrap (z : Z) : Z := (z + 2147483648) mod 4294967296 - 2147483648.

Definition add (a b : Z) : Z := wrap (a + b).
Definition mul (a b : Z) : Z := wrap (a * b).

Definition in_range (z : Z) : Prop := INT_MIN <= z <= INT_MAX.

Lemma wrap_small z : in_range z -> wrap z = z.
Proof.
  unfold in_range, INT_MIN, INT_MAX, wrap. intros Hz.
  rewrite Z.mod_small; lia.
Qed.

Lemma add_small a b : in_range (a + b) -> add a b = a + b.
Proof. apply wrap_small. Qed.

Lemma mul_small a b : in_range (a * b) -> mul a b = a * b.
Proof. apply wrap_small. Qed.

End CInt.

(** ** Row partition (jacobi_mpi.c, lines 54-59) *)

(** [(r < rem ? 1 : 0)] *)
Definition extra (r rem : Z) : Z := if r <? rem then 1 else 0.

(** [int base = N / size; int rem = N % size;] *)
Definition base (N size : Z) : Z := Z.quot N size.
Definition rem (N size : Z) : Z := Z.rem N size.

(** [int local_rows = base + (rank < rem ? 1 : 0);] *)
Definition local_rows (N size rank : Z) : Z :=
  CInt.add (base N size) (extra rank (rem N size)).

(** [int start_row = rank * base + (rank < rem ? rank : rem);] *)
Definition start_row (N size rank : Z) : Z :=
  CInt.add (CInt.mul rank (base N size))
           (if rank <? rem N size then rank else rem N size).

(** [int end_row = start_row + local_rows;] (exclusive) *)
Definition end_row (N size rank : Z) : Z :=
  CInt.add (start_row N size rank) (local_rows N size rank).

(** ** Scatter bookkeeping on the coordinator (lines 75-85) *)

Record scatter_tbl : Type := mk_scatter_tbl {
  sendcounts : list Z;
  displsA : list Z;
  sendcounts_b : list Z;
  displsb : list Z;
  offset_rows : Z;
  offset_elemsA : Z
}.

(** The four arrays come from [malloc(size * sizeof(int))]; their cells are
    all written before they are read, so the initial contents are taken as
    0. *)
Definition scatter_init (size : Z) : scatter_tbl :=
  let z := replicate (Z.to_nat size) 0 in
  mk_scatter_tbl z z z z 0 0.

(** One pass of the body of [for (int r = 0; r < size; r++)]. *)
Definition scatter_step (N bs rm : Z) (t : scatter_tbl) (r : Z) : scatter_tbl :=
  let rows_r := CInt.add bs (extra r rm) in
  let i := Z.to_nat r in
  {| sendcounts := <[i := CInt.mul rows_r N]> (sendcounts t);
     displsA := <[i := offset_elemsA t]> (displsA t);
     sendcounts_b := <[i := rows_r]> (sendcounts_b t);
     displsb := <[i := offset_rows t]> (displsb t);
     offset_rows := CInt.add (offset_rows t) rows_r;
     offset_elemsA := CInt.add (offset_elemsA t) (CInt.mul rows_r N) |}.

Definition scatter_arrays (N size : Z) : scatter_tbl :=
  foldl (scatter_step N (base N size) (rem N size)) (scatter_init size)
        (seqZ 0 size).

(** ** Gather bookkeeping, recomputed in every round (lines 130-136) *)

Record gather_tbl : Type := mk_gather_tbl {
  rcounts : list Z;
  rdispls : list Z;
  goffset : Z
}.

Definition gather_init (size : Z) : gather_tbl :=
  let z := replicate (Z.to_nat size) 0 in
  mk_gather_tbl z z 0.

Definition gather_step (bs rm : Z) (t : gather_tbl) (r : Z) : gather_tbl :=
  let rows_r := CInt.add bs (extra r rm) in
  let i := Z.to_nat r in
  {| rcounts := <[i := rows_r]> (rcounts t);
     rdispls := <[i := goffset t]> (rdispls t);
     goffset := CInt.add (goffset t) rows_r |}.

Definition gather_arrays (bs rm size : Z) : gather_tbl :=
  foldl (gather_step bs rm) (gather_init size) (seqZ 0 size).

(** ** Facts about the partition *)

Section Partition.

Variables N P : Z.
Hypothesis HN : 1 <= N <= CInt.INT_MAX.
Hypothesis HP : 1 <= P <= CInt.INT_MAX.

Let q := N / P.
Let m := N mod P.

Lemma base_div : base N P = q.
Proof. unfold base, q. apply Z.quot_div_nonneg; lia. Qed.

Lemma rem_mod : rem N P = m.
Proof. unfold rem, m. apply Z.rem_mod_nonneg; lia. Qed.

Lemma qm_facts : N = P * q + m /\ 0 <= m < P /\ 0 <= q <= N.
Proof.
  unfold q, m. pose proof (Z.div_mod N P ltac:(lia)).
  pose proof (Z.mod_pos_bound N P ltac:(lia)).
  pose proof (Z.div_pos N P ltac:(lia) ltac:(lia)).
  repeat split; try lia. nia.
Qed.

Lemma extra_cases r : extra r m = 0 \/ extra r m = 1.
Proof. unfold extra. destruct (r <? m); auto. Qed.

Lemma extra_bound r : 0 <= r < P -> q + extra r m <= N.
Proof.
  intros Hr. pose proof qm_facts as (HNeq & Hm & Hq).
  unfold extra. destruct (Z.ltb_spec r m); [| lia].
  assert (q + 1 <= P * q + m); [| lia].
  destruct (Z.eq_dec q 0) as [->|]; [lia | nia].
Qed.

Lemma local_rows_eq r : 0 <= r < P -> local_rows N P r = q + extra r m.
Proof.
  intros Hr. unfold local_rows. rewrite base_div, rem_mod.
  pose proof (extra_bound r Hr). pose proof (extra_cases r).
  pose proof qm_facts. apply CInt.add_small.
  unfold CInt.in_range, CInt.INT_MIN, CInt.INT_MAX in *. lia.
Qed.

Lemma start_row_eq r :
  0 <= r <= P -> start_row N P r = r * q + Z.min r m.
Proof.
  intros Hr. unfold start_row. rewrite base_div, rem_mod.
  pose proof qm_facts as (HNeq & Hm & Hq).
  assert (Hmin : (if r <? m then r else m) = Z.min r m).
  { destruct (Z.ltb_spec r m); lia. }
  rewrite Hmin.
  assert (0 <= r * q <= P * q) by nia.
  rewrite CInt.mul_small, CInt.add_small; auto;
    unfold CInt.in_range, CInt.INT_MIN, CInt.INT_MAX in *; lia.
Qed.

Lemma start_row_0 : start_row N P 0 = 0.
Proof. rewrite start_row_eq by lia. pose proof qm_facts. lia. Qed.

Lemma start_row_P : start_row N P P = N.
Proof. rewrite start_row_eq by lia. pose proof qm_facts. lia. Qed.

Lemma start_row_succ r :
  0 <= r < P -> start_row N P (r + 1) = start_row N P r + local_rows N P r.
Proof.
  intros Hr. rewrite !start_row_eq, local_rows_eq by lia.
  unfold extra. destruct (Z.ltb_spec r m); lia.
Qed.

Lemma local_rows_nonneg r : 0 <= r < P -> 0 <= local_rows N P r <= N.
Proof.
  intros Hr. rewrite local_rows_eq by lia.
  pose proof (extra_bound r Hr). pose proof (extra_cases r).
  pose proof qm_facts. lia.
Qed.

Lemma start_row_mono r1 r2 :
  0 <= r1 -> r1 <= r2 -> r2 <= P -> start_row N P r1 <= start_row N P r2.
Proof.
  intros H1 H12 H2. rewrite !start_row_eq by lia.
  pose proof qm_facts as (_ & _ & Hq). nia.
Qed.

Lemma start_row_bounds r : 0 <= r <= P -> 0 <= start_row N P r <= N.
Proof.
  intros Hr.
  pose proof (start_row_mono 0 r ltac:(lia) ltac:(lia) ltac:(lia)) as H0.
  pose proof (start_row_mono r P ltac:(lia) ltac:(lia) ltac:(lia)) as H1.
  rewrite start_row_0 in H0. rewrite start_row_P in H1. lia.
Qed.

Lemma end_row_eq r :
  0 <= r < P -> end_row N P r = start_row N P (r + 1).
Proof.
  intros Hr. unfold end_row. rewrite start_row_succ by lia.
  apply CInt.add_small. rewrite <- start_row_succ by lia.
  pose proof (start_row_bounds (r + 1) ltac:(lia)).
  unfold CInt.in_range, CInt.INT_MIN, CInt.INT_MAX in *. lia.
Qed.

(** Every row below [start_row k] is owned by a rank below [k]. *)
Lemma rows_covered (k : nat) :
  Z.of_nat k <= P ->
  forall i, 0 <= i < start_row N P (Z.of_nat k) ->
    exists r, 0 <= r < Z.of_nat k /\
              start_row N P r <= i < start_row N P r + local_rows N P r.
Proof.
  induction k as [|k IH]; intros Hk i Hi.
  - change (Z.of_nat 0) with 0 in Hi. rewrite start_row_0 in Hi. lia.
  - rewrite Nat2Z.inj_succ in *. unfold Z.succ in *.
    rewrite start_row_succ in Hi by lia.
    destruct (Z_lt_le_dec i (start_row N P (Z.of_nat k))) as [Hlt|Hge].
    + destruct (IH ltac:(lia) i ltac:(lia)) as (r & Hr & Hin).
      exists r. split; [lia | exact Hin].
    + exists (Z.of_nat k). split; lia.
Qed.

Lemma owner_exists i :
  0 <= i < N ->
  exists r, 0 <= r < P /\
            start_row N P r <= i < start_row N P r + local_rows N P r.
Proof.
  intros Hi. destruct (rows_covered (Z.to_nat P) ltac:(lia) i) as (r & Hr & Hin).
  - rewrite Z2Nat.id by lia. rewrite start_row_P. lia.
  - exists r. split; [lia | exact Hin].
Qed.

Lemma ranges_disjoint r1 r2 i :
  0 <= r1 < P -> 0 <= r2 < P ->
  start_row N P r1 <= i < start_row N P r1 + local_rows N P r1 ->
  start_row N P r2 <= i < start_row N P r2 + local_rows N P r2 ->
  r1 = r2.
Proof.
  intros H1 H2 I1 I2.
  rewrite <- start_row_succ in I1, I2 by lia.
  destruct (Z.lt_total r1 r2) as [Hlt | [Heq | Hgt]]; [| exact Heq |].
  - pose proof (start_row_mono (r1 + 1) r2 ltac:(lia) ltac:(lia) ltac:(lia)). lia.
  - pose proof (start_row_mono (r2 + 1) r1 ltac:(lia) ltac:(lia) ltac:(lia)). lia.
Qed.

(** Sum of the sizes of the first [k] ranges. *)
Lemma sizes_prefix_sum (k : nat) :
  Z.of_nat k <= P ->
  foldr Z.add 0 (local_rows N P <$> seqZ 0 (Z.of_nat k))
  = start_row N P (Z.of_nat k).
Proof.
  induction k as [|k IH]; intros Hk.
  - change (Z.of_nat 0) with 0. now rewrite start_row_0.
  - rewrite seqZ_S, fmap_app, foldr_app. simpl.
    rewrite Nat2Z.inj_succ. unfold Z.succ.
    rewrite start_row_succ by lia. rewrite <- IH by lia.
    rewrite Z.add_0_l.
    generalize (local_rows N P (Z.of_nat k)).
    generalize (local_rows N P <$> seqZ 0 (Z.of_nat k)).
    intros l z. induction l as [|a l IHl]; simpl; lia.
Qed.

Lemma sizes_sum : foldr Z.add 0 (local_rows N P <$> seqZ 0 P) = N.
Proof.
  pose proof (sizes_prefix_sum (Z.to_nat P)) as H.
  rewrite Z2Nat.id in H by lia. rewrite H by lia. apply start_row_P.
Qed.

End Partition.

(** ** The bookkeeping loops fill their arrays rank by rank *)

Lemma wrap_add_wrap_l a b : CInt.wrap (CInt.wrap a + b) = CInt.wrap (a + b).
Proof.
  unfold CInt.wrap. f_equal.
  replace ((a + 2147483648) mod 4294967296 - 2147483648 + b + 2147483648)
    with ((a + 2147483648) mod 4294967296 + b) by lia.
  rewrite Zplus_mod_idemp_l. f_equal. lia.
Qed.

Lemma wrap_add_wrap_r a b : CInt.wrap (a + CInt.wrap b) = CInt.wrap (a + b).
Proof. rewrite (Z.add_comm a), wrap_add_wrap_l. f_equal. lia. Qed.

Lemma insert_fill {A} (l1 : list A) (d v : A) (n : nat) :
  <[length l1 := v]> (l1 ++ replicate (S n) d) = (l1 ++ [v]) ++ replicate n d.
Proof.
  rewrite insert_app_r_alt by lia. rewrite Nat.sub_diag. simpl.
  now rewrite <- app_assoc.
Qed.

Lemma length_fmap_seqZ {A} (f : Z -> A) (k : nat) :
  length (f <$> seqZ 0 (Z.of_nat k)) = k.
Proof. rewrite length_fmap, length_seqZ. lia. Qed.

Section Bookkeeping.

Variables N P : Z.
Hypothesis HN : 1 <= N <= CInt.INT_MAX.
Hypothesis HP : 1 <= P <= CInt.INT_MAX.

(** Contents of the scatter table after the first [k] passes. *)
Definition scatter_after (k : nat) : scatter_tbl :=
  let pad := replicate (Z.to_nat P - k)%nat 0 in
  let ks := seqZ 0 (Z.of_nat k) in
  {| sendcounts := ((fun r => CInt.mul (local_rows N P r) N) <$> ks) ++ pad;
     displsA := ((fun r => CInt.wrap (start_row N P r * N)) <$> ks) ++ pad;
     sendcounts_b := (local_rows N P <$> ks) ++ pad;
     displsb := (start_row N P <$> ks) ++ pad;
     offset_rows := start_row N P (Z.of_nat k);
     offset_elemsA := CInt.wrap (start_row N P (Z.of_nat k) * N) |}.

Lemma scatter_loop_inv (k : nat) :
  Z.of_nat k <= P ->
  foldl (scatter_step N (base N P) (rem N P)) (scatter_init P)
        (seqZ 0 (Z.of_nat k))
  = scatter_after k.
Proof.
  induction k as [|k IH]; intros Hk.
  - unfold scatter_after, scatter_init. change (Z.of_nat 0) with 0.
    rewrite (start_row_0 N P HN HP), Nat.sub_0_r. reflexivity.
  - rewrite seqZ_S, foldl_app, IH by lia. simpl.
    unfold scatter_step, scatter_after; simpl.
    rewrite Z.add_0_l, Nat2Z.id.
    fold (local_rows N P (Z.of_nat k)).
    replace (Z.to_nat P - k)%nat with (S (Z.to_nat P - S k)) by lia.
    rewrite !seqZ_S, !fmap_app. simpl. rewrite Z.add_0_l.
    f_equal.
    + rewrite <- (length_fmap_seqZ (fun r => CInt.mul (local_rows N P r) N) k) at 1.
      apply insert_fill.
    + rewrite <- (length_fmap_seqZ (fun r => CInt.wrap (start_row N P r * N)) k) at 1.
      apply insert_fill.
    + rewrite <- (length_fmap_seqZ (local_rows N P) k) at 1.
      apply insert_fill.
    + rewrite <- (length_fmap_seqZ (start_row N P) k) at 1.
      apply insert_fill.
    + rewrite Nat2Z.inj_succ. unfold Z.succ.
      rewrite (start_row_succ N P HN HP) by lia.
      apply CInt.add_small.
      rewrite <- (start_row_succ N P HN HP) by lia.
      pose proof (start_row_bounds N P HN HP (Z.of_nat k + 1) ltac:(lia)).
      unfold CInt.in_range, CInt.INT_MIN, CInt.INT_MAX in *. lia.
    + rewrite Nat2Z.inj_succ. unfold Z.succ.
      rewrite (start_row_succ N P HN HP) by lia.
      unfold CInt.add, CInt.mul.
      rewrite wrap_add_wrap_l, wrap_add_wrap_r. f_equal. lia.
Qed.

Lemma scatter_arrays_eq :
  scatter_arrays N P = scatter_after (Z.to_nat P).
Proof.
  unfold scatter_arrays. rewrite <- (scatter_loop_inv (Z.to_nat P)) by lia.
  now rewrite Z2Nat.id by lia.
Qed.

Lemma sendcounts_b_eq :
  sendcounts_b (scatter_arrays N P) = local_rows N P <$> seqZ 0 P.
Proof.
  rewrite scatter_arrays_eq. unfold scatter_after; simpl.
  rewrite Nat.sub_diag, app_nil_r, Z2Nat.id by lia. reflexivity.
Qed.

Lemma displsb_eq :
  displsb (scatter_arrays N P) = start_row N P <$> seqZ 0 P.
Proof.
  rewrite scatter_arrays_eq. unfold scatter_after; simpl.
  rewrite Nat.sub_diag, app_nil_r, Z2Nat.id by lia. reflexivity.
Qed.

Lemma sendcounts_eq :
  sendcounts (scatter_arrays N P)
  = (fun r => CInt.mul (local_rows N P r) N) <$> seqZ 0 P.
Proof.
  rewrite scatter_arrays_eq. unfold scatter_after; simpl.
  rewrite Nat.sub_diag, app_nil_r, Z2Nat.id by lia. reflexivity.
Qed.

Lemma displsA_eq :
  displsA (scatter_arrays N P)
  = (fun r => CInt.wrap (start_row N P r * N)) <$> seqZ 0 P.
Proof.
  rewrite scatter_arrays_eq. unfold scatter_after; simpl.
  rewrite Nat.sub_diag, app_nil_r, Z2Nat.id by lia. reflexivity.
Qed.

(** The same for the table rebuilt before every gather. *)
Definition gather_after (k : nat) : gather_tbl :=
  let pad := replicate (Z.to_nat P - k)%nat 0 in
  let ks := seqZ 0 (Z.of_nat k) in
  {| rcounts := (local_rows N P <$> ks) ++ pad;
     rdispls := (start_row N P <$> ks) ++ pad;
     goffset := start_row N P (Z.of_nat k) |}.

Lemma gather_loop_inv (k : nat) :
  Z.of_nat k <= P ->
  foldl (gather_step (base N P) (rem N P)) (gather_init P)
        (seqZ 0 (Z.of_nat k))
  = gather_after k.
Proof.
  induction k as [|k IH]; intros Hk.
  - unfold gather_after, gather_init. change (Z.of_nat 0) with 0.
    rewrite (start_row_0 N P HN HP), Nat.sub_0_r. reflexivity.
  - rewrite seqZ_S, foldl_app, IH by lia. simpl.
    unfold gather_step, gather_after; simpl.
    rewrite Z.add_0_l, Nat2Z.id.
    fold (local_rows N P (Z.of_nat k)).
    replace (Z.to_nat P - k)%nat with (S (Z.to_nat P - S k)) by lia.
    rewrite !seqZ_S, !fmap_app. simpl. rewrite Z.add_0_l.
    f_equal.
    + rewrite <- (length_fmap_seqZ (local_rows N P) k) at 1.
      apply insert_fill.
    + rewrite <- (length_fmap_seqZ (start_row N P) k) at 1.
      apply insert_fill.
    + rewrite Nat2Z.inj_succ. unfold Z.succ.
      rewrite (start_row_succ N P HN HP) by lia.
      apply CInt.add_small.
      rewrite <- (start_row_succ N P HN HP) by lia.
      pose proof (start_row_bounds N P HN HP (Z.of_nat k + 1) ltac:(lia)).
      unfold CInt.in_range, CInt.INT_MIN, CInt.INT_MAX in *. lia.
Qed.

Lemma gather_arrays_eq :
  gather_arrays (base N P) (rem N P) P
  = mk_gather_tbl (local_rows N P <$> seqZ 0 P) (start_row N P <$> seqZ 0 P) N.
Proof.
  unfold gather_arrays.
  pose proof (gather_loop_inv (Z.to_nat P)) as H.
  rewrite Z2Nat.id in H by lia. rewrite H by lia. unfold gather_after.
  rewrite Nat.sub_diag, !app_nil_r, Z2Nat.id by lia.
  now rewrite (start_row_P N P HN HP).
Qed.

End Bookkeeping.

(** ** Doubles, constants and checked array access *)

Local Open Scope float_scope.

(** [#define MAX_ITER 1000] and [#define TOLERANCE 1e-5]; the float is the
    binary64 value nearest to the decimal literal, as a C compiler takes
    it. *)
Definition MAX_ITER : Z := 1000.
Definition TOLERANCE : float := 0x1.4f8b588e368f1p-17.

(** The sibling programs (serial and OpenMP) refuse a diagonal entry below
    this magnitude: [fabs(diag[i]) < 1e-20]. *)
Definition DIAG_EPS : float := 0x1.79ca10c924223p-67.

(** Contents of freshly allocated memory.  The program writes every cell it
    later reads, so the value chosen here is never observed. *)
Definition uninit : float := nan.

(** [a[i]] as an rvalue. *)
Definition rd (a : list float) (i : Z) : option float :=
  if (i <? 0)%Z then None else a !! Z.to_nat i.

(** [a[i] = v]. *)
Definition wr (a : list float) (i : Z) (v : float) : option (list float) :=
  if ((0 <=? i) && (i <? Z.of_nat (length a)))%Z
  then Some (<[Z.to_nat i := v]> a) else None.

(** [for (int i = lo; i < hi; i++) body], threading a state; [None] is an
    access outside an array. *)
Definition for_each {S : Type} (lo hi : Z) (body : Z -> S -> option S) (s : S)
  : option S :=
  foldl (fun acc i => match acc with Some s' => body i s' | None => None end)
        (Some s) (seqZ lo (hi - lo)).

(** ** size_t arithmetic and the allocator *)

Module SizeT.
Definition modulus : Z := 18446744073709551616.
(** [(size_t)n] *)
Definition of_int (n : Z) : Z := (n mod modulus)%Z.
Definition mul (a b : Z) : Z := ((a * b) mod modulus)%Z.
End SizeT.

(** Reasons for [die], in source order. *)
Inductive die_reason : Type :=
| OpenFailed | ReadNFailed | AllocFailedRank0 | ReadAFailed | ReadBFailed
| LocalAllocFailed | ScatterAllocFailed | XAllocFailed | GatherAllocFailed.

(** What [matrix_data.txt] holds, as [fscanf] sees it: the result of the
    first [%d] conversion and the doubles that the following [%lf]
    conversions yield, in order. *)
Record file_data : Type := mk_file { f_N : option Z; f_nums : list float }.

Record env : Type := mk_env {
  file : option file_data;      (* [None]: [fopen] fails *)
  malloc_ok : Z -> bool         (* does [malloc] of that many bytes succeed *)
}.

(** [(double * )malloc(bytes)]: the buffer has room for [bytes / 8]
    doubles. *)
Definition malloc_doubles (e : env) (bytes : Z) : option (list float) :=
  if malloc_ok e bytes
  then Some (replicate (Z.to_nat (bytes / 8)) uninit) else None.

(** ** The loader on rank 0 (lines 26-44) *)

Inductive read_result : Type :=
| ReadOk (buf : list float) (rest : list float)
| ReadShort
| ReadFault.

(** [n] successive [fscanf("%lf", &buf[idx++])]. *)
Fixpoint read_into (n : nat) (idx : Z) (buf stream : list float) : read_result :=
  match n with
  | O => ReadOk buf stream
  | S n' =>
      match stream with
      | [] => ReadShort
      | v :: rest =>
          match wr buf idx v with
          | None => ReadFault
          | Some buf' => read_into n' (idx + 1)%Z buf' rest
          end
      end
  end.

Inductive loaded : Type :=
| LoadDie (why : die_reason)
| LoadFault
| LoadOk (N : Z) (A_full b_full : list float).

(** The nested loops over [i] and [j] store at [(size_t)i * N + j], which
    runs through [0 .. N*N-1] in order; no loop runs when [N <= 0]. *)
Definition load (e : env) : loaded :=
  match file e with
  | None => LoadDie OpenFailed
  | Some f =>
      match f_N f with
      | None => LoadDie ReadNFailed
      | Some N =>
          let bytesA :=
            SizeT.mul (SizeT.mul (SizeT.of_int N) (SizeT.of_int N)) 8 in
          let bytesb := SizeT.mul (SizeT.of_int N) 8 in
          match malloc_doubles e bytesA, malloc_doubles e bytesb with
          | Some A0, Some b0 =>
              let cells := if (N <=? 0)%Z then 0%Z else (N * N)%Z in
              match read_into (Z.to_nat cells) 0 A0 (f_nums f) with
              | ReadShort => LoadDie ReadAFailed
              | ReadFault => LoadFault
              | ReadOk A_full rest =>
                  match read_into (Z.to_nat N) 0 b0 rest with
                  | ReadShort => LoadDie ReadBFailed
                  | ReadFault => LoadFault
                  | ReadOk b_full _ => LoadOk N A_full b_full
                  end
              end
          | _, _ => LoadDie AllocFailedRank0
          end
      end
  end.

(** ** Per-rank memory and the three loops of a round *)

Record rank_mem : Type := mk_mem {
  A_local : list float;
  b_local : list float;
  x : list float;
  x_old : list float;
  x_local : list float
}.

Definition set_x (m : rank_mem) (v : list float) : rank_mem :=
  mk_mem (A_local m) (b_local m) v (x_old m) (x_local m).
Definition set_x_old (m : rank_mem) (v : list float) : rank_mem :=
  mk_mem (A_local m) (b_local m) (x m) v (x_local m).
Definition set_x_local (m : rank_mem) (v : list float) : rank_mem :=
  mk_mem (A_local m) (b_local m) (x m) (x_old m) v.

(** [for (int i = 0; i < N; i++) x_old[i] = x[i];] *)
Definition copy_body (i : Z) (m : rank_mem) : option rank_mem :=
  match rd (x m) i with
  | None => None
  | Some v =>
      match wr (x_old m) i v with
      | None => None
      | Some xo => Some (set_x_old m xo)
      end
  end.

(** [if (j != i) sum += A_local[(size_t)li * N + j] * x_old[j];] *)
Definition sum_body (N li i : Z) (m : rank_mem) (j : Z) (sum : float)
  : option float :=
  if (j =? i)%Z then Some sum
  else
    match rd (A_local m) (li * N + j)%Z, rd (x_old m) j with
    | Some a, Some xj => Some (sum + a * xj)
    | _, _ => None
    end.

(** Body of [for (int li = 0; li < local_rows; li++)] (lines 113-120). *)
Definition sweep_body (N start : Z) (li : Z) (m : rank_mem) : option rank_mem :=
  let i := CInt.add start li in
  match for_each 0 N (sum_body N li i m) 0 with
  | None => None
  | Some sum =>
      match rd (b_local m) li, rd (A_local m) (li * N + i)%Z with
      | Some bl, Some d =>
          match wr (x_local m) li ((bl - sum) / d) with
          | None => None
          | Some xl => Some (set_x_local m xl)
          end
      | _, _ => None
      end
  end.

(** [local_error += fabs(x[i] - x_old[i]);] with [i = start_row + li]
    (lines 146-150). *)
Definition err_body (start : Z) (m : rank_mem) (li : Z) (err : float)
  : option float :=
  let i := CInt.add start li in
  match rd (x m) i, rd (x_old m) i with
  | Some a, Some b => Some (err + abs (a - b))
  | _, _ => None
  end.

(** [for (int i = 0; i < N; i++) x[i] = 0.0;] *)
Definition zero_body (i : Z) (a : list float) : option (list float) := wr a i 0.

(** ** The per-rank program as a process over MPI collectives *)

(** What rank 0 prints: the complaint about [N] on stderr, or the final
    report on stdout. *)
Inductive output : Type :=
| OutInvalidN (N : Z)
| OutReport (N size print_size : Z) (xs : list float) (iterations : Z)
            (final_error : float).

(** A process is either finished or waiting in a collective with the
    arguments it passed; the continuation receives what the collective left
    in its receive buffer.  Count and displacement arrays are [None] where
    the source passes [NULL] (every rank but 0). *)
Inductive proc : Type :=
| PExit (status : Z) (out : option output)
| PAbort (code : Z) (why : die_reason)
| PFault
| PFuel
| PBcastInt (buf : Z) (k : Z -> proc)
| PScatterv (sendbuf : list float) (args : option (list Z * list Z))
            (recvbuf : list float) (recvcount : Z) (k : list float -> proc)
| PGatherv (sendbuf : list float) (sendcount : Z) (recvbuf : list float)
           (args : option (list Z * list Z)) (k : list float -> proc)
| PBcast (buf : list float) (count : Z) (k : list float -> proc)
| PAllreduce (v : float) (k : float -> proc).

(** Lines 161-171 and the final [return 0]. *)
Definition finish (N size rank : Z) (m : rank_mem) (iterations : Z)
    (global_error : float) : proc :=
  if (rank =? 0)%Z then
    let print_size := if (N <? 5)%Z then N else 5%Z in
    match mapM (rd (x m)) (seqZ 0 print_size) with
    | None => PFault
    | Some xs =>
        PExit 0 (Some (OutReport N size print_size xs iterations global_error))
    end
  else PExit 0 None.

(** Lines 124-137: rank 0 allocates and fills [rcounts] and [rdispls] anew
    in every round.  Outer [None]: an allocation failed. *)
Definition gather_args (e : env) (N size rank : Z)
  : option (option (list Z * list Z)) :=
  if (rank =? 0)%Z then
    let bytes := SizeT.mul (SizeT.of_int size) 4 in
    if malloc_ok e bytes && malloc_ok e bytes then
      let t := gather_arrays (base N size) (rem N size) size in
      Some (Some (rcounts t, rdispls t))
    else None
  else Some None.

(** The [do { ... } while (global_error > TOLERANCE && iterations < MAX_ITER)]
    loop, lines 108-159.  [fuel] bounds the number of rounds. *)
Fixpoint jacobi_loop (fuel : nat) (e : env) (N size rank : Z)
    (m : rank_mem) (iterations : Z) : proc :=
  match fuel with
  | O => PFuel
  | S fuel' =>
      let lrows := local_rows N size rank in
      let srow := start_row N size rank in
      match for_each 0 N copy_body m with
      | None => PFault
      | Some m1 =>
      match for_each 0 lrows (sweep_body N srow) m1 with
      | None => PFault
      | Some m2 =>
      match gather_args e N size rank with
      | None => PAbort 1 GatherAllocFailed
      | Some gargs =>
          PGatherv (x_local m2) lrows (x m2) gargs (fun xg =>
          PBcast xg N (fun xb =>
            let m3 := set_x m2 xb in
            match for_each 0 lrows (err_body srow m3) 0 with
            | None => PFault
            | Some local_error =>
                PAllreduce local_error (fun global_error =>
                  let iterations' := CInt.add iterations 1 in
                  if (TOLERANCE <? global_error)
                     && (iterations' <? MAX_ITER)%Z
                  then jacobi_loop fuel' e N size rank m3 iterations'
                  else finish N size rank m3 iterations' global_error)
            end))
      end end end
  end.

(** Lines 66-86: the scatter tables exist on rank 0 only. *)
Definition scatter_args (e : env) (N size rank : Z)
  : option (option scatter_tbl) :=
  if (rank =? 0)%Z then
    let bytes := SizeT.mul (SizeT.of_int size) 4 in
    if malloc_ok e bytes && malloc_ok e bytes
       && malloc_ok e bytes && malloc_ok e bytes
    then Some (Some (scatter_arrays N size))
    else None
  else Some None.

(** Lines 94-104, after both scatters. *)
Definition start_iterating (e : env) (N size rank : Z)
    (A_loc b_loc : list float) : proc :=
  let lrows := local_rows N size rank in
  let bytesN := SizeT.mul (SizeT.of_int N) 8 in
  match malloc_doubles e bytesN, malloc_doubles e bytesN,
        malloc_doubles e (SizeT.mul (SizeT.of_int lrows) 8) with
  | Some x0, Some xo0, Some xl0 =>
      match for_each 0 N zero_body x0 with
      | None => PFault
      | Some x1 =>
          match for_each 0 N zero_body xo0 with
          | None => PFault
          | Some xo1 =>
              jacobi_loop (Z.to_nat MAX_ITER) e N size rank
                          (mk_mem A_loc b_loc x1 xo1 xl0) 0
          end
      end
  | _, _, _ => PAbort 1 XAllocFailed
  end.

(** Lines 47-92, after [MPI_Bcast(&N, ...)]. *)
Definition after_bcast (e : env) (size rank : Z) (A_full b_full : list float)
    (N : Z) : proc :=
  if (N <=? 0)%Z then
    PExit 1 (if (rank =? 0)%Z then Some (OutInvalidN N) else None)
  else
    let lrows := local_rows N size rank in
    match malloc_doubles e
            (SizeT.mul (SizeT.mul (SizeT.of_int lrows) (SizeT.of_int N)) 8),
          malloc_doubles e (SizeT.mul (SizeT.of_int lrows) 8) with
    | Some A0, Some b0 =>
        match scatter_args e N size rank with
        | None => PAbort 1 ScatterAllocFailed
        | Some tbl =>
            PScatterv A_full
              (option_map (fun t => (sendcounts t, displsA t)) tbl)
              A0 (CInt.mul lrows N) (fun A_loc =>
            PScatterv b_full
              (option_map (fun t => (sendcounts_b t, displsb t)) tbl)
              b0 lrows (fun b_loc =>
            start_iterating e N size rank A_loc b_loc))
        end
    | _, _ => PAbort 1 LocalAllocFailed
    end.

(** [main] on rank [rank] of [size]. *)
Definition rank_main (e : env) (size rank : Z) : proc :=
  if (rank =? 0)%Z then
    match load e with
    | LoadDie why => PAbort 1 why
    | LoadFault => PFault
    | LoadOk N A_full b_full =>
        PBcastInt N (after_bcast e size rank A_full b_full)
    end
  else PBcastInt 0 (after_bcast e size rank [] []).

(** ** The collectives, and the ranks run in lock-step *)

Inductive outcome : Type :=
| Finished (results : list (Z * option output))  (* every rank returned *)
| Aborted (code : Z) (why : die_reason)          (* a rank called [MPI_Abort] *)
| Faulted                                        (* out-of-range access *)
| MpiError           (* a collective was given arguments that do not match *)
| Deadlock           (* the ranks do not all wait in the same collective *)
| OutOfFuel.

(** Order of an [MPI_SUM] reduction: rank by rank, from rank 0. *)
Definition reduce_sum (vs : list float) : float :=
  match vs with
  | [] => 0
  | v :: vs' => foldl PrimFloat.add v vs'
  end.

(** Rank [r] of a scatter: [cnt] doubles of the root's buffer from [dsp]
    land at the start of its receive buffer. *)
Definition scatter_one (sendbuf : list float) (cnt dsp : Z)
    (recvbuf : list float) (recvcount : Z) : option (list float) :=
  if ((cnt =? recvcount) && (0 <=? cnt) && (0 <=? dsp)
      && (dsp + cnt <=? Z.of_nat (length sendbuf))
      && (cnt <=? Z.of_nat (length recvbuf)))%Z
  then Some (take (Z.to_nat cnt) (drop (Z.to_nat dsp) sendbuf)
             ++ drop (Z.to_nat cnt) recvbuf)
  else None.

Fixpoint scatter_all (sendbuf : list float) (counts displs : list Z)
    (rs : list (list float * Z * (list float -> proc))) : option (list proc) :=
  match rs, counts, displs with
  | [], [], [] => Some []
  | (rb, rc, k) :: rs', c :: cs, d :: ds =>
      match scatter_one sendbuf c d rb rc, scatter_all sendbuf cs ds rs' with
      | Some v, Some ps => Some (k v :: ps)
      | _, _ => None
      end
  | _, _, _ => None
  end.

(** The root's receive buffer after the contributions were stored at their
    displacements. *)
Fixpoint gather_all (recv : list float) (counts displs : list Z)
    (parts : list (list float * Z)) : option (list float) :=
  match parts, counts, displs with
  | [], [], [] => Some recv
  | (sb, sc) :: parts', c :: cs, d :: ds =>
      if ((sc =? c) && (0 <=? sc) && (sc <=? Z.of_nat (length sb))
          && (0 <=? d) && (d + sc <=? Z.of_nat (length recv)))%Z
      then gather_all (take (Z.to_nat d) recv ++ take (Z.to_nat sc) sb
                       ++ drop (Z.to_nat (d + sc)) recv) cs ds parts'
      else None
  | _, _, _ => None
  end.

Definition bcast_one (rootbuf : list float) (count : Z)
    (buf : list float) (cnt : Z) : option (list float) :=
  if ((cnt =? count) && (0 <=? count)
      && (count <=? Z.of_nat (length rootbuf))
      && (count <=? Z.of_nat (length buf)))%Z
  then Some (take (Z.to_nat count) rootbuf ++ drop (Z.to_nat count) buf)
  else None.

Definition as_exit (p : proc) : option (Z * option output) :=
  match p with PExit s o => Some (s, o) | _ => None end.
Definition as_bcast_int (p : proc) : option (Z * (Z -> proc)) :=
  match p with PBcastInt v k => Some (v, k) | _ => None end.
Definition as_scatterv (p : proc)
  : option (list float * option (list Z * list Z)
            * (list float * Z * (list float -> proc))) :=
  match p with
  | PScatterv sb a rb rc k => Some (sb, a, (rb, rc, k))
  | _ => None
  end.
Definition as_gatherv (p : proc)
  : option (list float * Z * list float * option (list Z * list Z)
            * (list float -> proc)) :=
  match p with
  | PGatherv sb sc rb a k => Some (sb, sc, rb, a, k)
  | _ => None
  end.
Definition as_bcast (p : proc) : option (list float * Z * (list float -> proc)) :=
  match p with PBcast b c k => Some (b, c, k) | _ => None end.
Definition as_allreduce (p : proc) : option (float * (float -> proc)) :=
  match p with PAllreduce v k => Some (v, k) | _ => None end.

Definition first_abort (ps : list proc) : option (Z * die_reason) :=
  foldr (fun p acc => match p with PAbort c w => Some (c, w) | _ => acc end)
        None ps.
Definition is_fault (p : proc) : bool :=
  match p with PFault => true | _ => false end.
Definition is_fuel (p : proc) : bool :=
  match p with PFuel => true | _ => false end.

(** One collective, entered by every rank, or the end of the job.  Rank 0,
    the root of every rooted collective of the program, is the head of the
    list. *)
Definition world_step (ps : list proc) : outcome + list proc :=
  match first_abort ps with
  | Some (c, w) => inl (Aborted c w)
  | None =>
  if existsb is_fault ps then inl Faulted
  else if existsb is_fuel ps then inl OutOfFuel
  else
  match ps with
  | [] => inl (Finished [])
  | PExit _ _ :: _ =>
      match mapM as_exit ps with
      | Some rs => inl (Finished rs)
      | None => inl Deadlock
      end
  | PBcastInt v0 _ :: _ =>
      match mapM as_bcast_int ps with
      | Some l => inr ((fun vk => snd vk v0) <$> l)
      | None => inl Deadlock
      end
  | PScatterv sb (Some (counts, displs)) _ _ _ :: _ =>
      match mapM as_scatterv ps with
      | Some l =>
          match scatter_all sb counts displs (snd <$> l) with
          | Some ps' => inr ps'
          | None => inl MpiError
          end
      | None => inl Deadlock
      end
  | PGatherv _ _ rb (Some (counts, displs)) k0 :: rest =>
      match mapM as_gatherv ps, mapM as_gatherv rest with
      | Some l, Some lrest =>
          match gather_all rb counts displs
                  ((fun a => (a.1.1.1.1, a.1.1.1.2)) <$> l) with
          | Some rb' => inr (k0 rb' :: ((fun a => a.2 a.1.1.2) <$> lrest))
          | None => inl MpiError
          end
      | _, _ => inl Deadlock
      end
  | PBcast b0 c0 _ :: _ =>
      match mapM as_bcast ps with
      | Some l =>
          match mapM (fun a => option_map a.2 (bcast_one b0 c0 a.1.1 a.1.2)) l with
          | Some ps' => inr ps'
          | None => inl MpiError
          end
      | None => inl Deadlock
      end
  | PAllreduce _ _ :: _ =>
      match mapM as_allreduce ps with
      | Some l => let s := reduce_sum (fst <$> l) in inr ((fun a => a.2 s) <$> l)
      | None => inl Deadlock
      end
  | _ => inl MpiError
  end
  end.

Fixpoint run_world (fuel : nat) (ps : list proc) : outcome :=
  match fuel with
  | O => OutOfFuel
  | S fuel' =>
      match world_step ps with
      | inl o => o
      | inr ps' => run_world fuel' ps'
      end
  end.

(** The job: [mpirun -np size] of the program.  Three collectives precede
    the loop, every round has three, and one more step collects the exit
    statuses. *)
Definition JOB_FUEL : nat := Z.to_nat (3 * MAX_ITER + 4).

Definition run_job (e : env) (size : Z) : outcome :=
  run_world JOB_FUEL (rank_main e size <$> seqZ 0 size).

(** ** Gather tables computed once

    The variant that the specification allows: rank 0 allocates and fills
    [rcounts] and [rdispls] once, before the loop, and every round passes
    the same two arrays to the gather.  Everything else is the program
    above. *)

Fixpoint jacobi_loop_precomputed (fuel : nat) (e : env) (N size rank : Z)
    (gargs : option (list Z * list Z)) (m : rank_mem) (iterations : Z) : proc :=
  match fuel with
  | O => PFuel
  | S fuel' =>
      let lrows := local_rows N size rank in
      let srow := start_row N size rank in
      match for_each 0 N copy_body m with
      | None => PFault
      | Some m1 =>
      match for_each 0 lrows (sweep_body N srow) m1 with
      | None => PFault
      | Some m2 =>
          PGatherv (x_local m2) lrows (x m2) gargs (fun xg =>
          PBcast xg N (fun xb =>
            let m3 := set_x m2 xb in
            match for_each 0 lrows (err_body srow m3) 0 with
            | None => PFault
            | Some local_error =>
                PAllreduce local_error (fun global_error =>
                  let iterations' := CInt.add iterations 1 in
                  if (TOLERANCE <? global_error)
                     && (iterations' <? MAX_ITER)%Z
                  then jacobi_loop_precomputed fuel' e N size rank gargs m3
                                               iterations'
                  else finish N size rank m3 iterations' global_error)
            end))
      end end
  end.

Definition start_iterating_precomputed (e : env) (N size rank : Z)
    (A_loc b_loc : list float) : proc :=
  let lrows := local_rows N size rank in
  let bytesN := SizeT.mul (SizeT.of_int N) 8 in
  match malloc_doubles e bytesN, malloc_doubles e bytesN,
        malloc_doubles e (SizeT.mul (SizeT.of_int lrows) 8) with
  | Some x0, Some xo0, Some xl0 =>
      match for_each 0 N zero_body x0 with
      | None => PFault
      | Some x1 =>
          match for_each 0 N zero_body xo0 with
          | None => PFault
          | Some xo1 =>
              match gather_args e N size rank with
              | None => PAbort 1 GatherAllocFailed
              | Some gargs =>
                  jacobi_loop_precomputed (Z.to_nat MAX_ITER) e N size rank
                    gargs (mk_mem A_loc b_loc x1 xo1 xl0) 0
              end
          end
      end
  | _, _, _ => PAbort 1 XAllocFailed
  end.

Definition after_bcast_precomputed (e : env) (size rank : Z)
    (A_full b_full : list float) (N : Z) : proc :=
  if (N <=? 0)%Z then
    PExit 1 (if (rank =? 0)%Z then Some (OutInvalidN N) else None)
  else
    let lrows := local_rows N size rank in
    match malloc_doubles e
            (SizeT.mul (SizeT.mul (SizeT.of_int lrows) (SizeT.of_int N)) 8),
          malloc_doubles e (SizeT.mul (SizeT.of_int lrows) 8) with
    | Some A0, Some b0 =>
        match scatter_args e N size rank with
        | None => PAbort 1 ScatterAllocFailed
        | Some tbl =>
            PScatterv A_full
              (option_map (fun t => (sendcounts t, displsA t)) tbl)
              A0 (CInt.mul lrows N) (fun A_loc =>
            PScatterv b_full
              (option_map (fun t => (sendcounts_b t, displsb t)) tbl)
              b0 lrows (fun b_loc =>
            start_iterating_precomputed e N size rank A_loc b_loc))
        end
    | _, _ => PAbort 1 LocalAllocFailed
    end.

Definition rank_main_precomputed (e : env) (size rank : Z) : proc :=
  if (rank =? 0)%Z then
    match load e with
    | LoadDie why => PAbort 1 why
    | LoadFault => PFault
    | LoadOk N A_full b_full =>
        PBcastInt N (after_bcast_precomputed e size rank A_full b_full)
    end
  else PBcastInt 0 (after_bcast_precomputed e size rank [] []).

Definition run_job_precomputed (e : env) (size : Z) : outcome :=
  run_world JOB_FUEL (rank_main_precomputed e size <$> seqZ 0 size).

(** ** Reasoning about the loops *)

Lemma for_each_empty {St : Type} (lo hi : Z) (body : Z -> St -> option St) (s : St) :
  (hi <= lo)%Z -> for_each lo hi body s = Some s.
Proof. intros H. unfold for_each. now rewrite seqZ_nil by lia. Qed.

Lemma for_each_snoc {St : Type} (lo : Z) (k : nat) (body : Z -> St -> option St) (s : St) :
  for_each lo (lo + Z.of_nat (S k)) body s
  = match for_each lo (lo + Z.of_nat k) body s with
    | Some s' => body (lo + Z.of_nat k)%Z s'
    | None => None
    end.
Proof.
  unfold for_each.
  replace (lo + Z.of_nat (S k) - lo)%Z with (Z.of_nat (S k)) by lia.
  replace (lo + Z.of_nat k - lo)%Z with (Z.of_nat k) by lia.
  now rewrite seqZ_S, foldl_app.
Qed.

(** Loop invariant rule: the loop does not fault and establishes the
    invariant at its upper bound. *)
Lemma for_each_inv {St : Type} (I : Z -> St -> Prop) (lo hi : Z)
    (body : Z -> St -> option St) (s : St) :
  (lo <= hi)%Z ->
  I lo s ->
  (forall i t, (lo <= i < hi)%Z -> I i t ->
     exists t', body i t = Some t' /\ I (i + 1)%Z t') ->
  exists s', for_each lo hi body s = Some s' /\ I hi s'.
Proof.
  intros Hle H0 Hstep.
  assert (Hk : forall k : nat, (lo + Z.of_nat k <= hi)%Z ->
            exists s', for_each lo (lo + Z.of_nat k) body s = Some s'
                       /\ I (lo + Z.of_nat k)%Z s').
  { induction k as [|k IH]; intros Hb.
    - exists s. rewrite for_each_empty by lia.
      rewrite Z.add_0_r. auto.
    - destruct IH as (t & Ht & It); [lia |].
      rewrite for_each_snoc, Ht.
      destruct (Hstep (lo + Z.of_nat k)%Z t ltac:(lia) It) as (t' & Hb' & It').
      exists t'. split; [exact Hb' |].
      replace (lo + Z.of_nat (S k))%Z with (lo + Z.of_nat k + 1)%Z by lia.
      exact It'. }
  destruct (Hk (Z.to_nat (hi - lo)) ltac:(lia)) as (s' & Hs' & Is').
  replace (lo + Z.of_nat (Z.to_nat (hi - lo)))%Z with hi in * by lia.
  eauto.
Qed.

(** A loop whose body never faults on its range is a left fold. *)
Lemma for_each_fold {St : Type} (lo hi : Z) (body : Z -> St -> option St)
    (f : St -> Z -> St) (s : St) :
  (forall i t, (lo <= i < hi)%Z -> body i t = Some (f t i)) ->
  for_each lo hi body s = Some (foldl f s (seqZ lo (hi - lo))).
Proof.
  intros Hb. destruct (Z_le_gt_dec hi lo) as [Hle|Hgt].
  { rewrite for_each_empty by lia. now rewrite seqZ_nil by lia. }
  destruct (for_each_inv (fun i t => t = foldl f s (seqZ lo (i - lo)))
              lo hi body s) as (s' & Hs' & ->); try lia; auto.
  - now rewrite Z.sub_diag.
  - intros i t Hi ->. exists (f (foldl f s (seqZ lo (i - lo))) i).
    split; [now apply Hb |].
    replace (i + 1 - lo)%Z with (Z.of_nat (S (Z.to_nat (i - lo)))) by lia.
    rewrite seqZ_S, foldl_app. simpl.
    rewrite Z2Nat.id by lia. do 2 f_equal. lia.
Qed.

(** Reading with a default, for stating what a loop computed. *)
Definition get (a : list float) (i : Z) : float :=
  match rd a i with Some v => v | None => 0 end.

Lemma rd_in_range (a : list float) (i : Z) :
  (0 <= i < Z.of_nat (length a))%Z -> rd a i = Some (get a i).
Proof.
  intros Hi. unfold get, rd.
  destruct (Z.ltb_spec i 0); [lia |].
  destruct (lookup_lt_is_Some_2 a (Z.to_nat i) ltac:(lia)) as [v Hv].
  now rewrite Hv.
Qed.

Lemma wr_in_range (a : list float) (i : Z) (v : float) :
  (0 <= i < Z.of_nat (length a))%Z -> wr a i v = Some (<[Z.to_nat i := v]> a).
Proof.
  intros Hi. unfold wr.
  destruct (Z.leb_spec 0 i); [| lia].
  destruct (Z.ltb_spec i (Z.of_nat (length a))); [| lia]. reflexivity.
Qed.

Lemma insert_take_drop_step {A : Type} (l w : list A) (k : nat) (v : A) :
  length w = k -> (k < length l)%nat ->
  <[k := v]> (w ++ drop k l) = (w ++ [v]) ++ drop (S k) l.
Proof.
  intros Hw Hk. rewrite insert_app_r_alt by lia.
  rewrite Hw, Nat.sub_diag.
  destruct (drop k l) as [|y t] eqn:Hd.
  - apply (f_equal length) in Hd. rewrite length_drop in Hd. simpl in Hd. lia.
  - simpl. rewrite <- app_assoc. simpl. do 2 f_equal.
    rewrite <- (Nat.add_1_r k), <- drop_drop, Hd. reflexivity.
Qed.

(** A loop that stores [f i] in cell [i] for every [i < n]. *)
Lemma for_each_fill {St : Type} (arr : St -> list float) (n : Z)
    (body : Z -> St -> option St) (f : Z -> float) (s : St) (rebuild : list float -> St) :
  (0 <= n)%Z -> Z.of_nat (length (arr s)) = n ->
  (forall w, arr (rebuild w) = w) ->
  rebuild (arr s) = s ->
  (forall i w, (0 <= i < n)%Z -> length w = length (arr s) ->
     body i (rebuild w) = match wr w i (f i) with
                          | Some w' => Some (rebuild w') | None => None end) ->
  for_each 0 n body s = Some (rebuild (f <$> seqZ 0 n)).
Proof.
  intros Hn Hlen Harr Hre Hbody.
  destruct (for_each_inv
    (fun i t => t = rebuild ((f <$> seqZ 0 i) ++ drop (Z.to_nat i) (arr s)))
    0 n body s) as (s' & Hs' & ->); try lia.
  - simpl. now rewrite drop_0.
  - intros i t Hi ->. eexists. split.
    + rewrite Hbody; [| lia |].
      * rewrite wr_in_range.
        2:{ rewrite length_app, length_fmap, length_seqZ, length_drop. lia. }
        reflexivity.
      * rewrite length_app, length_fmap, length_seqZ, length_drop. lia.
    + f_equal.
      rewrite insert_take_drop_step;
        [| rewrite length_fmap, length_seqZ; lia | lia].
      replace (i + 1)%Z with (Z.of_nat (S (Z.to_nat i))) by lia.
      rewrite seqZ_S, fmap_app. simpl.
      rewrite Z2Nat.id by lia. rewrite Nat2Z.id. reflexivity.
  - rewrite Hs'. do 2 f_equal.
    rewrite drop_ge by lia. now rewrite app_nil_r.
Qed.

(** ** What the loops of a round compute *)

(** The sum over all columns [j] of [0 .. N-1] other than [i], accumulated
    from 0 in increasing [j]. *)
Definition offdiag_sum (N li i : Z) (A xo : list float) : float :=
  foldl (fun s j => s + get A (li * N + j) * get xo j) 0
        (filter (fun j => j <> i) (seqZ 0 N)).

(** The Jacobi update of local row [li], which is global row [start + li]. *)
Definition row_value (N start : Z) (A b xo : list float) (li : Z) : float :=
  (get b li - offdiag_sum N li (start + li) A xo) / get A (li * N + (start + li)).

(** A rank's share of the L1 distance between two iterates. *)
Definition local_err (start lrows : Z) (xn xo : list float) : float :=
  foldl (fun e li => e + abs (get xn (start + li) - get xo (start + li))) 0
        (seqZ 0 lrows).

Lemma get_fmap_seqZ (l : list float) :
  get l <$> seqZ 0 (Z.of_nat (length l)) = l.
Proof.
  apply list_eq. intros k. rewrite list_lookup_fmap.
  destruct (Nat.lt_ge_cases k (length l)) as [Hlt|Hge].
  - rewrite lookup_seqZ_lt by lia. simpl. rewrite Z.add_0_l.
    unfold get, rd. destruct (Z.ltb_spec (Z.of_nat k) 0); [lia |].
    rewrite Nat2Z.id.
    destruct (lookup_lt_is_Some_2 l k Hlt) as [v Hv]. now rewrite Hv.
  - rewrite lookup_seqZ_ge by lia. simpl. symmetry.
    now apply lookup_ge_None_2.
Qed.

Lemma foldl_skip_filter {A B : Type} (f : A -> B -> A) (P : B -> Prop)
    `{forall b, Decision (P b)} (l : list B) (a : A) :
  foldl (fun s j => if decide (P j) then f s j else s) a l
  = foldl f a (filter P l).
Proof.
  revert a. induction l as [|b l IH]; intros a; [reflexivity |].
  simpl. rewrite filter_cons. destruct (decide (P b)); simpl; apply IH.
Qed.

Lemma copy_loop (N : Z) (m : rank_mem) :
  Z.of_nat (length (x m)) = N -> Z.of_nat (length (x_old m)) = N ->
  for_each 0 N copy_body m = Some (set_x_old m (x m)).
Proof.
  intros Hx Hxo.
  rewrite (for_each_fill x_old N copy_body (get (x m)) m (set_x_old m));
    try lia; auto.
  - rewrite <- Hx, get_fmap_seqZ. reflexivity.
  - destruct m; reflexivity.
  - intros i w Hi Hw. unfold copy_body. simpl.
    rewrite rd_in_range by lia. destruct (wr w i (get (x m) i)); reflexivity.
Qed.

Lemma zero_loop (N : Z) (a : list float) :
  Z.of_nat (length a) = N ->
  for_each 0 N zero_body a = Some (replicate (Z.to_nat N) 0).
Proof.
  intros Ha.
  rewrite (for_each_fill (fun w => w) N zero_body (fun _ => 0) a (fun w => w));
    try lia; auto.
  - f_equal. apply list_eq. intros k. rewrite list_lookup_fmap.
    destruct (Nat.lt_ge_cases k (Z.to_nat N)) as [Hlt|Hge].
    + rewrite lookup_seqZ_lt by lia. simpl.
      symmetry. now apply lookup_replicate_2.
    + rewrite lookup_seqZ_ge by lia. simpl. symmetry.
      apply lookup_ge_None_2. rewrite length_replicate. lia.
  - intros i w Hi Hw. unfold zero_body. destruct (wr w i 0); reflexivity.
Qed.

Lemma sum_loop (N li i : Z) (m : rank_mem) :
  (0 <= li)%Z -> (0 <= N)%Z ->
  ((li + 1) * N <= Z.of_nat (length (A_local m)))%Z ->
  Z.of_nat (length (x_old m)) = N ->
  for_each 0 N (sum_body N li i m) 0
  = Some (offdiag_sum N li i (A_local m) (x_old m)).
Proof.
  intros Hli HN HA Hxo.
  rewrite (for_each_fold 0 N _
    (fun s j => if decide (j <> i) then
                  s + get (A_local m) (li * N + j) * get (x_old m) j
                else s)).
  - rewrite Z.sub_0_r. unfold offdiag_sum. f_equal.
    apply (foldl_skip_filter
             (fun s j => s + get (A_local m) (li * N + j) * get (x_old m) j)).
  - intros j t Hj. unfold sum_body.
    destruct (Z.eqb_spec j i) as [->|Hne].
    + destruct (decide (i <> i)) as [Hc|_]; [now destruct Hc | reflexivity].
    + destruct (decide (j <> i)) as [_|Hc]; [| now destruct Hc].
      rewrite !rd_in_range by nia. reflexivity.
Qed.

Lemma sweep_loop (N start lrows : Z) (m : rank_mem) :
  (0 <= lrows)%Z -> (0 <= start)%Z -> (start + lrows <= N)%Z ->
  (N <= CInt.INT_MAX)%Z ->
  Z.of_nat (length (A_local m)) = (lrows * N)%Z ->
  Z.of_nat (length (b_local m)) = lrows ->
  Z.of_nat (length (x_old m)) = N ->
  Z.of_nat (length (x_local m)) = lrows ->
  for_each 0 lrows (sweep_body N start) m
  = Some (set_x_local m
            (row_value N start (A_local m) (b_local m) (x_old m)
               <$> seqZ 0 lrows)).
Proof.
  intros Hl Hs Hsl HN HA Hb Hxo Hxl.
  apply (for_each_fill x_local lrows (sweep_body N start)
           (row_value N start (A_local m) (b_local m) (x_old m)) m
           (set_x_local m)); try lia; auto.
  - destruct m; reflexivity.
  - intros li w Hli Hw. unfold sweep_body.
    rewrite CInt.add_small
      by (unfold CInt.in_range, CInt.INT_MIN, CInt.INT_MAX in *; lia).
    rewrite sum_loop; simpl; try lia; [| nia].
    rewrite !rd_in_range by nia. unfold row_value.
    destruct (wr w li _); reflexivity.
Qed.

Lemma err_loop (N start lrows : Z) (m : rank_mem) :
  (0 <= start)%Z -> (start + lrows <= N)%Z -> (N <= CInt.INT_MAX)%Z ->
  Z.of_nat (length (x m)) = N ->
  Z.of_nat (length (x_old m)) = N ->
  for_each 0 lrows (err_body start m) 0
  = Some (local_err start lrows (x m) (x_old m)).
Proof.
  intros Hs Hsl HN Hx Hxo.
  rewrite (for_each_fold 0 lrows _
    (fun e li => e + abs (get (x m) (start + li) - get (x_old m) (start + li)))).
  - now rewrite Z.sub_0_r.
  - intros li t Hli. unfold err_body.
    rewrite CInt.add_small
      by (unfold CInt.in_range, CInt.INT_MIN, CInt.INT_MAX in *; lia).
    rewrite !rd_in_range by lia. reflexivity.
Qed.

(** ** One step of the group, when every rank waits in the same collective *)

Definition live (p : proc) : Prop :=
  match p with PAbort _ _ | PFault | PFuel => False | _ => True end.

Lemma world_guard (ps : list proc) :
  Forall live ps ->
  first_abort ps = None /\ existsb is_fault ps = false
  /\ existsb is_fuel ps = false.
Proof.
  induction 1 as [|p ps Hp _ (IH1 & IH2 & IH3)]; [repeat split |].
  simpl. rewrite IH1, IH2, IH3. destruct p; simpl in *; tauto.
Qed.

Lemma Forall_live_fmap {A : Type} (f : A -> proc) (l : list A) :
  (forall a, live (f a)) -> Forall live (f <$> l).
Proof. intros H. apply Forall_fmap, Forall_forall. intros a _. apply H. Qed.

Lemma mapM_fmap_some {A B C : Type} (g : B -> option C) (f : A -> B)
    (h : A -> C) (l : list A) :
  (forall a, g (f a) = Some (h a)) -> mapM g (f <$> l) = Some (h <$> l).
Proof.
  intros H. apply mapM_Some_2.
  induction l as [|a l IH]; simpl; constructor; auto.
Qed.

Lemma fmap_ext_in {A B : Type} (f g : A -> B) (l : list A) :
  (forall a, a ∈ l -> f a = g a) -> f <$> l = g <$> l.
Proof.
  induction l as [|a l IH]; intros H; [reflexivity |].
  simpl. rewrite (H a) by left. f_equal. apply IH.
  intros b Hb. apply H. now right.
Qed.

Ltac guard_step :=
  match goal with
  | |- context [first_abort ?ps] =>
      let G := fresh "G" in
      assert (G : Forall live ps)
        by (apply (Forall_live_fmap _ (_ :: _)); intros ?; exact I);
      destruct (world_guard ps G) as (-> & -> & ->); clear G
  end.

Lemma world_step_exit {A : Type} (s : A -> Z) (o : A -> option output)
    (l : list A) :
  world_step ((fun r => PExit (s r) (o r)) <$> l)
  = inl (Finished ((fun r => (s r, o r)) <$> l)).
Proof.
  destruct l as [|r0 rest]; [reflexivity |].
  unfold world_step. guard_step. simpl fmap at 1.
  cbv beta iota.
  rewrite (mapM_fmap_some as_exit _ (fun r => (s r, o r))) by reflexivity.
  reflexivity.
Qed.

Lemma world_step_bcast_int {A : Type} (v : A -> Z) (k : A -> Z -> proc)
    (r0 : A) (rest : list A) :
  world_step ((fun r => PBcastInt (v r) (k r)) <$> (r0 :: rest))
  = inr ((fun r => k r (v r0)) <$> (r0 :: rest)).
Proof.
  unfold world_step. guard_step.
  rewrite (mapM_fmap_some as_bcast_int _ (fun r => (v r, k r))) by reflexivity.
  simpl. f_equal. f_equal. rewrite <- list_fmap_compose. reflexivity.
Qed.

Lemma scatter_all_fmap {A : Type} (sb : list float) (cf df : A -> Z)
    (rb : A -> list float) (rc : A -> Z) (k : A -> list float -> proc)
    (v : A -> list float) (l : list A) :
  (forall r, r ∈ l -> scatter_one sb (cf r) (df r) (rb r) (rc r) = Some (v r)) ->
  scatter_all sb (cf <$> l) (df <$> l) ((fun r => (rb r, rc r, k r)) <$> l)
  = Some ((fun r => k r (v r)) <$> l).
Proof.
  induction l as [|a l IH]; intros H; [reflexivity |].
  rewrite !fmap_cons. cbn [scatter_all].
  rewrite (H a) by left. rewrite IH; [reflexivity |].
  intros r Hr. apply H. now right.
Qed.

Lemma world_step_scatterv {A : Type} (sb : A -> list float)
    (ar : A -> option (list Z * list Z)) (cf df : A -> Z)
    (rb : A -> list float) (rc : A -> Z) (k : A -> list float -> proc)
    (v : A -> list float) (r0 : A) (rest : list A) :
  ar r0 = Some (cf <$> (r0 :: rest), df <$> (r0 :: rest)) ->
  (forall r, r ∈ r0 :: rest ->
     scatter_one (sb r0) (cf r) (df r) (rb r) (rc r) = Some (v r)) ->
  world_step ((fun r => PScatterv (sb r) (ar r) (rb r) (rc r) (k r))
                <$> (r0 :: rest))
  = inr ((fun r => k r (v r)) <$> (r0 :: rest)).
Proof.
  intros Har Hv. unfold world_step. guard_step.
  rewrite (mapM_fmap_some as_scatterv _
             (fun r => (sb r, ar r, (rb r, rc r, k r)))) by reflexivity.
  simpl fmap at 1. cbv beta iota. rewrite Har. cbv beta iota.
  rewrite <- list_fmap_compose.
  change (snd ∘ _) with (fun r => (rb r, rc r, k r)).
  rewrite (scatter_all_fmap (sb r0) cf df rb rc k v) by exact Hv.
  reflexivity.
Qed.

Lemma world_step_gatherv {A : Type} (sb : A -> list float) (sc : A -> Z)
    (rb : A -> list float) (ar : A -> option (list Z * list Z))
    (k : A -> list float -> proc) (counts displs : list Z)
    (rb' : list float) (r0 : A) (rest : list A) :
  ar r0 = Some (counts, displs) ->
  gather_all (rb r0) counts displs ((fun r => (sb r, sc r)) <$> (r0 :: rest))
  = Some rb' ->
  world_step ((fun r => PGatherv (sb r) (sc r) (rb r) (ar r) (k r))
                <$> (r0 :: rest))
  = inr (k r0 rb' :: ((fun r => k r (rb r)) <$> rest)).
Proof.
  intros Har Hg. unfold world_step. guard_step.
  simpl fmap at 1. cbv beta iota. rewrite Har. cbv beta iota.
  change (list_fmap A proc ?f rest) with (f <$> rest).
  rewrite !(mapM_fmap_some as_gatherv _
              (fun r => (sb r, sc r, rb r, ar r, k r))) by reflexivity.
  rewrite <- !list_fmap_compose.
  change (gather_all (rb r0) counts displs
            ((fun r => (sb r, sc r)) <$> (r0 :: rest))) with
    (gather_all (rb r0) counts displs
       (((fun a : list float * Z * list float * option (list Z * list Z)
                   * (list float -> proc) => (a.1.1.1.1, a.1.1.1.2))
           ∘ (fun r => (sb r, sc r, rb r, ar r, k r))) <$> (r0 :: rest))) in Hg.
  rewrite Hg. reflexivity.
Qed.

Lemma bcast_one_full (b0 b : list float) (c : Z) :
  Z.of_nat (length b0) = c -> Z.of_nat (length b) = c ->
  bcast_one b0 c b c = Some b0.
Proof.
  intros H0 Hb. unfold bcast_one.
  rewrite Z.eqb_refl. simpl.
  destruct (Z.leb_spec 0 c); [| lia].
  destruct (Z.leb_spec c (Z.of_nat (length b0))); [| lia].
  destruct (Z.leb_spec c (Z.of_nat (length b))); [| lia].
  simpl. rewrite take_ge, drop_ge by lia. now rewrite app_nil_r.
Qed.

Lemma world_step_bcast {A : Type} (b0 : list float) (b : A -> list float)
    (c : Z) (k0 : list float -> proc) (k : A -> list float -> proc)
    (rest : list A) :
  Z.of_nat (length b0) = c ->
  (forall r, r ∈ rest -> Z.of_nat (length (b r)) = c) ->
  world_step (PBcast b0 c k0 :: ((fun r => PBcast (b r) c (k r)) <$> rest))
  = inr (k0 b0 :: ((fun r => k r b0) <$> rest)).
Proof.
  intros H0 Hb. unfold world_step.
  match goal with
  | |- context [first_abort ?ps] =>
      assert (G : Forall live ps)
        by (constructor; [exact I | apply Forall_live_fmap; intros ?; exact I]);
      destruct (world_guard ps G) as (-> & -> & ->); clear G
  end.
  replace (mapM as_bcast
             (PBcast b0 c k0 :: ((fun r => PBcast (b r) c (k r)) <$> rest)))
    with (Some ((b0, c, k0) :: ((fun r => (b r, c, k r)) <$> rest))).
  2:{ symmetry. apply mapM_Some_2. constructor; [reflexivity |].
      clear. induction rest; simpl; constructor; auto. }
  replace (mapM _ ((b0, c, k0) :: ((fun r => (b r, c, k r)) <$> rest)))
    with (Some (k0 b0 :: ((fun r => k r b0) <$> rest))); [reflexivity |].
  symmetry. apply mapM_Some_2. constructor.
  - simpl. now rewrite bcast_one_full.
  - clear -H0 Hb. induction rest as [|a rest IH]; simpl; constructor.
    + simpl. rewrite bcast_one_full; auto. apply Hb. left.
    + apply IH. intros r Hr. apply Hb. now right.
Qed.

Lemma world_step_allreduce {A : Type} (v : A -> float)
    (k : A -> float -> proc) (r0 : A) (rest : list A) :
  world_step ((fun r => PAllreduce (v r) (k r)) <$> (r0 :: rest))
  = inr ((fun r => k r (reduce_sum (v <$> (r0 :: rest)))) <$> (r0 :: rest)).
Proof.
  unfold world_step. guard_step.
  rewrite (mapM_fmap_some as_allreduce _ (fun r => (v r, k r))) by reflexivity.
  simpl fmap at 1. cbv beta iota.
  rewrite <- !list_fmap_compose. reflexivity.
Qed.

(** ** The solver as a function of the whole system

    What the group of ranks computes, written over the full matrix: the
    blocks the scatter hands out, the update of a rank's rows, the iterate
    assembled by the gather, the reduced error, and the loop. *)

Definition slice (l : list float) (off cnt : Z) : list float :=
  take (Z.to_nat cnt) (drop (Z.to_nat off) l).

Section Solver.

Variables (N P : Z) (A_full b_full : list float).

Definition A_block (r : Z) : list float :=
  slice A_full (start_row N P r * N) (local_rows N P r * N).

Definition b_block (r : Z) : list float :=
  slice b_full (start_row N P r) (local_rows N P r).

Definition rank_update (xo : list float) (r : Z) : list float :=
  row_value N (start_row N P r) (A_block r) (b_block r) xo
    <$> seqZ 0 (local_rows N P r).

Definition next_x (xo : list float) : list float :=
  concat (rank_update xo <$> seqZ 0 P).

Definition rank_err (xn xo : list float) (r : Z) : float :=
  local_err (start_row N P r) (local_rows N P r) xn xo.

Definition global_err (xn xo : list float) : float :=
  reduce_sum (rank_err xn xo <$> seqZ 0 P).

(** [fuel + 1] is the number of rounds still allowed. *)
Fixpoint iterate (fuel : nat) (xo : list float) (it : Z)
  : list float * Z * float :=
  let xn := next_x xo in
  let err := global_err xn xo in
  let it' := (it + 1)%Z in
  match fuel with
  | O => (xn, it', err)
  | S fuel' =>
      if (TOLERANCE <? err) && (it' <? MAX_ITER)%Z
      then iterate fuel' xn it'
      else (xn, it', err)
  end.

Definition solve : list float * Z * float :=
  iterate (Z.to_nat (MAX_ITER - 1)) (replicate (Z.to_nat N) 0) 0.

Lemma iterate_S (fuel : nat) (xo : list float) (it : Z) :
  iterate (S fuel) xo it
  = if (TOLERANCE <? global_err (next_x xo) xo) && (it + 1 <? MAX_ITER)%Z
    then iterate fuel (next_x xo) (it + 1)%Z
    else (next_x xo, (it + 1)%Z, global_err (next_x xo) xo).
Proof. reflexivity. Qed.

Lemma solve_unfold :
  exists fuel : nat,
    solve = iterate (S (S fuel)) (replicate (Z.to_nat N) 0) 0.
Proof. exists 997%nat. reflexivity. Qed.

Hypothesis HN : (1 <= N <= CInt.INT_MAX)%Z.
Hypothesis HP : (1 <= P <= CInt.INT_MAX)%Z.

Lemma length_rank_update xo r :
  (0 <= r < P)%Z ->
  Z.of_nat (length (rank_update xo r)) = local_rows N P r.
Proof.
  intros Hr. unfold rank_update. rewrite length_fmap, length_seqZ.
  pose proof (local_rows_nonneg N P HN HP r Hr). lia.
Qed.

Lemma length_concat_prefix (xl : Z -> list float) (k : nat) :
  (Z.of_nat k <= P)%Z ->
  (forall r, (0 <= r < P)%Z -> Z.of_nat (length (xl r)) = local_rows N P r) ->
  Z.of_nat (length (concat (xl <$> seqZ 0 (Z.of_nat k))))
  = start_row N P (Z.of_nat k).
Proof.
  intros Hk Hxl. induction k as [|k IH].
  - change (Z.of_nat 0) with 0%Z. now rewrite (start_row_0 N P HN HP).
  - rewrite seqZ_S, fmap_app, concat_app, length_app. simpl.
    rewrite app_nil_r, Z.add_0_l, Nat2Z.inj_add, IH, Hxl by lia.
    rewrite Nat2Z.inj_succ. unfold Z.succ.
    now rewrite (start_row_succ N P HN HP) by lia.
Qed.

Lemma length_next_x xo : Z.of_nat (length (next_x xo)) = N.
Proof.
  unfold next_x.
  pose proof (length_concat_prefix (rank_update xo) (Z.to_nat P)) as H.
  rewrite Z2Nat.id in H by lia. rewrite H; [| lia |].
  - apply (start_row_P N P HN HP).
  - intros r Hr. now apply length_rank_update.
Qed.

(** The gather stores the contributions side by side. *)
Lemma gather_all_spec (xl : Z -> list float) (n : nat) :
  forall (k : Z) (recv : list float),
    (0 <= k)%Z -> (k + Z.of_nat n = P)%Z ->
    Z.of_nat (length recv) = N ->
    (forall r, (0 <= r < P)%Z -> Z.of_nat (length (xl r)) = local_rows N P r) ->
    gather_all recv (local_rows N P <$> seqZ k (Z.of_nat n))
               (start_row N P <$> seqZ k (Z.of_nat n))
               ((fun r => (xl r, local_rows N P r)) <$> seqZ k (Z.of_nat n))
    = Some (take (Z.to_nat (start_row N P k)) recv
            ++ concat (xl <$> seqZ k (Z.of_nat n))).
Proof.
  induction n as [|n IH]; intros k recv Hk Hkn Hrecv Hxl.
  - simpl. rewrite app_nil_r.
    replace k with P by lia. rewrite (start_row_P N P HN HP).
    now rewrite take_ge by lia.
  - rewrite seqZ_cons by lia. rewrite !fmap_cons. cbn [gather_all].
    pose proof (local_rows_nonneg N P HN HP k ltac:(lia)) as Hrows.
    pose proof (start_row_bounds N P HN HP k ltac:(lia)) as Hst.
    pose proof (start_row_bounds N P HN HP (k + 1) ltac:(lia)) as Hst1.
    pose proof (start_row_succ N P HN HP k ltac:(lia)) as Hsucc.
    pose proof (Hxl k ltac:(lia)) as Hlk.
    rewrite Z.eqb_refl.
    destruct (Z.leb_spec 0 (local_rows N P k)); [| lia].
    destruct (Z.leb_spec (local_rows N P k) (Z.of_nat (length (xl k)))); [| lia].
    destruct (Z.leb_spec 0 (start_row N P k)); [| lia].
    destruct (Z.leb_spec (start_row N P k + local_rows N P k)
                         (Z.of_nat (length recv))); [| lia].
    cbn [andb].
    replace (Z.pred (Z.of_nat (S n))) with (Z.of_nat n) by lia.
    rewrite (take_ge (xl k)) by lia.
    rewrite IH; try lia; auto.
    + f_equal. unfold Z.succ. rewrite Hsucc.
      rewrite Z2Nat.inj_add by lia.
      rewrite app_assoc.
      rewrite take_app_length'.
      2:{ rewrite length_app, length_take. lia. }
      simpl. now rewrite <- app_assoc.
    + rewrite !length_app, length_take, length_drop. lia.
Qed.

Lemma gather_next_x (recv xo : list float) :
  Z.of_nat (length recv) = N ->
  gather_all recv (local_rows N P <$> seqZ 0 P) (start_row N P <$> seqZ 0 P)
             ((fun r => (rank_update xo r, local_rows N P r)) <$> seqZ 0 P)
  = Some (next_x xo).
Proof.
  intros Hrecv.
  pose proof (gather_all_spec (rank_update xo) (Z.to_nat P) 0 recv) as H.
  rewrite Z2Nat.id in H by lia. rewrite H; try lia.
  - rewrite (start_row_0 N P HN HP). reflexivity.
  - intros r Hr. now apply length_rank_update.
Qed.

End Solver.

(** ** Well-formed runs *)

(** The input file holds a dimension [N >= 1], then [N*N] and [N] doubles;
    [N*N] fits an [int], as the element counts and displacements handed to
    [MPI_Scatterv] need; the launcher starts [P >= 1] ranks; and no
    allocation that the run makes fails: every request of at least one
    byte is granted, and so are the requests of zero bytes, which only the
    ranks without rows make, that is when [P > N].  ([malloc(0)] may return
    a null pointer; a run with [P <= N] never asks for it.) *)
Definition valid_run (e : env) (N P : Z) (A_full b_full : list float) : Prop :=
  (1 <= N)%Z /\ (N * N <= CInt.INT_MAX)%Z /\ (1 <= P <= CInt.INT_MAX)%Z
  /\ Z.of_nat (length A_full) = (N * N)%Z
  /\ Z.of_nat (length b_full) = N
  /\ (exists rest, file e = Some (mk_file (Some N) (A_full ++ b_full ++ rest)))
  /\ (forall n, (0 < n)%Z -> malloc_ok e n = true)
  /\ ((N < P)%Z -> malloc_ok e 0 = true).

Lemma valid_run_N e N P A b :
  valid_run e N P A b -> (1 <= N <= CInt.INT_MAX)%Z.
Proof. intros (H1 & H2 & _). unfold CInt.INT_MAX in *. nia. Qed.

Lemma sizet_bytes2 (a b : Z) :
  (0 <= a)%Z -> (0 <= b)%Z -> (a * b <= CInt.INT_MAX)%Z ->
  (a <= CInt.INT_MAX)%Z -> (b <= CInt.INT_MAX)%Z ->
  SizeT.mul (SizeT.mul (SizeT.of_int a) (SizeT.of_int b)) 8 = (a * b * 8)%Z.
Proof.
  intros Ha Hb Hab Ha' Hb'. unfold SizeT.mul, SizeT.of_int, SizeT.modulus.
  unfold CInt.INT_MAX in *.
  rewrite (Z.mod_small a), (Z.mod_small b) by lia.
  rewrite (Z.mod_small (a * b)) by nia.
  rewrite Z.mod_small by nia. reflexivity.
Qed.

Lemma sizet_bytes1 (a : Z) (w : Z) :
  (0 <= a <= CInt.INT_MAX)%Z -> (0 < w <= 8)%Z ->
  SizeT.mul (SizeT.of_int a) w = (a * w)%Z.
Proof.
  intros Ha Hw. unfold SizeT.mul, SizeT.of_int, SizeT.modulus.
  unfold CInt.INT_MAX in *.
  rewrite (Z.mod_small a) by lia. rewrite Z.mod_small by nia. reflexivity.
Qed.

Lemma malloc_doubles_ok (e : env) (n : Z) :
  (forall k, malloc_ok e k = true) ->
  malloc_doubles e (n * 8) = Some (replicate (Z.to_nat n) uninit).
Proof.
  intros H. unfold malloc_doubles. rewrite H.
  now rewrite Z.div_mul by lia.
Qed.

Lemma malloc_doubles_pos (e : env) (n : Z) :
  (forall k, (0 < k)%Z -> malloc_ok e k = true) -> (0 < n)%Z ->
  malloc_doubles e (n * 8) = Some (replicate (Z.to_nat n) uninit).
Proof.
  intros H Hn. unfold malloc_doubles. rewrite H by lia.
  now rewrite Z.div_mul by lia.
Qed.

Lemma read_into_spec (n : nat) :
  forall (idx : nat) (buf stream : list float),
    (idx + n <= length buf)%nat -> (n <= length stream)%nat ->
    read_into n (Z.of_nat idx) buf stream
    = ReadOk (take idx buf ++ take n stream ++ drop (idx + n) buf)
             (drop n stream).
Proof.
  induction n as [|n IH]; intros idx buf stream Hb Hs.
  - simpl. rewrite Nat.add_0_r, take_drop, drop_0. reflexivity.
  - destruct stream as [|v rest]; [simpl in Hs; lia |].
    cbn [read_into]. rewrite wr_in_range by lia. rewrite Nat2Z.id.
    replace (Z.of_nat idx + 1)%Z with (Z.of_nat (S idx)) by lia.
    rewrite IH; [| rewrite length_insert; lia | simpl in Hs; lia].
    f_equal.
    rewrite (take_S_r _ idx v)
      by (apply list_lookup_insert_eq; lia).
    rewrite take_insert_ge by lia.
    rewrite drop_insert_lt by lia.
    rewrite <- app_assoc. simpl.
    replace (idx + S n)%nat with (S (idx + n)) by lia. reflexivity.
Qed.

Lemma read_into_fresh (n : Z) (vals rest : list float) :
  Z.of_nat (length vals) = n ->
  read_into (Z.to_nat n) 0 (replicate (Z.to_nat n) uninit) (vals ++ rest)
  = ReadOk vals rest.
Proof.
  intros Hn.
  rewrite (read_into_spec (Z.to_nat n) 0);
    [| rewrite length_replicate; lia | rewrite length_app; lia].
  simpl. rewrite drop_ge by (rewrite length_replicate; lia).
  rewrite app_nil_r.
  replace (Z.to_nat n) with (length vals) by lia.
  now rewrite take_app_length, drop_app_length.
Qed.

Lemma load_ok e N P A b :
  valid_run e N P A b -> load e = LoadOk N A b.
Proof.
  intros (H1 & H2 & HP & HA & Hb & (rest & Hf) & Hm & _).
  assert (HNmax : (N <= CInt.INT_MAX)%Z) by (unfold CInt.INT_MAX in *; nia).
  unfold load. rewrite Hf. simpl.
  rewrite sizet_bytes2, sizet_bytes1 by lia.
  rewrite !malloc_doubles_pos by (auto; nia).
  destruct (Z.leb_spec N 0); [lia |].
  rewrite read_into_fresh by lia.
  rewrite read_into_fresh by lia. reflexivity.
Qed.

(** ** Every rank of a well-formed run, up to the loop *)

Lemma run_world_step (n : nat) (ps ps' : list proc) :
  world_step ps = inr ps' -> run_world (S n) ps = run_world n ps'.
Proof. intros H. simpl. now rewrite H. Qed.

Lemma run_world_done (n : nat) (ps : list proc) (o : outcome) :
  world_step ps = inl o -> run_world (S n) ps = o.
Proof. intros H. simpl. now rewrite H. Qed.

Lemma seqZ_ranks (P : Z) : (1 <= P)%Z -> seqZ 0 P = 0%Z :: seqZ 1 (P - 1).
Proof. intros HP. rewrite seqZ_cons by lia. reflexivity. Qed.

Section Run.

Variables (e : env) (N P : Z) (A_full b_full : list float).
Hypothesis Hvalid : valid_run e N P A_full b_full.

Let rows := local_rows N P.
Let start := start_row N P.

Lemma run_N : (1 <= N <= CInt.INT_MAX)%Z.
Proof. exact (valid_run_N _ _ _ _ _ Hvalid). Qed.

Lemma run_P : (1 <= P <= CInt.INT_MAX)%Z.
Proof. destruct Hvalid as (_ & _ & HP & _). exact HP. Qed.

Lemma run_NN : (N * N <= CInt.INT_MAX)%Z.
Proof. destruct Hvalid as (_ & H & _). exact H. Qed.

Lemma run_alloc n : (0 < n)%Z -> malloc_ok e n = true.
Proof. destruct Hvalid as (_ & _ & _ & _ & _ & _ & H & _). apply H. Qed.

Lemma run_alloc_zero : (N < P)%Z -> malloc_ok e 0 = true.
Proof. destruct Hvalid as (_ & _ & _ & _ & _ & _ & _ & H). exact H. Qed.

Lemma run_len_A : Z.of_nat (length A_full) = (N * N)%Z.
Proof. destruct Hvalid as (_ & _ & _ & H & _). exact H. Qed.

Lemma run_len_b : Z.of_nat (length b_full) = N.
Proof. destruct Hvalid as (_ & _ & _ & _ & H & _). exact H. Qed.

Lemma rank_range r :
  (0 <= r < P)%Z ->
  (0 <= rows r)%Z /\ (0 <= start r)%Z /\ (start r + rows r <= N)%Z.
Proof.
  intros Hr. unfold rows, start.
  pose proof (local_rows_nonneg N P run_N run_P r Hr).
  pose proof (start_row_bounds N P run_N run_P r ltac:(lia)).
  pose proof (start_row_bounds N P run_N run_P (r + 1) ltac:(lia)).
  pose proof (start_row_succ N P run_N run_P r Hr). lia.
Qed.

(** A rank without rows exists only when there are more ranks than rows. *)
Lemma rows_zero_more_ranks r :
  (0 <= r < P)%Z -> rows r = 0%Z -> (N < P)%Z.
Proof.
  intros Hr H0. unfold rows in H0.
  rewrite (local_rows_eq N P run_N run_P r Hr) in H0.
  destruct (Z_lt_ge_dec N P) as [Hlt|Hge]; [exact Hlt |].
  exfalso. pose proof run_N. pose proof run_P.
  assert (1 <= N / P)%Z by (apply Z.div_le_lower_bound; lia).
  unfold extra in H0. destruct (r <? N mod P)%Z; lia.
Qed.

Lemma run_malloc_doubles n :
  (0 < n)%Z \/ (n = 0%Z /\ (N < P)%Z) ->
  malloc_doubles e (n * 8) = Some (replicate (Z.to_nat n) uninit).
Proof.
  intros [Hn | (-> & HNP)].
  - apply malloc_doubles_pos; [exact run_alloc | exact Hn].
  - unfold malloc_doubles. change (0 * 8)%Z with 0%Z.
    now rewrite (run_alloc_zero HNP).
Qed.

Ltac rows_alloc r :=
  destruct (Z.eq_dec (local_rows N P r) 0%Z) as [E|E];
  [ right; split; [nia | now apply (rows_zero_more_ranks r)]
  | left; nia ].

Lemma length_A_block r :
  (0 <= r < P)%Z ->
  Z.of_nat (length (A_block N P A_full r)) = (rows r * N)%Z.
Proof.
  intros Hr. destruct (rank_range r Hr) as (H1 & H2 & H3).
  pose proof run_N. pose proof run_len_A.
  unfold A_block, slice. fold rows start.
  rewrite length_take, length_drop. nia.
Qed.

Lemma length_b_block r :
  (0 <= r < P)%Z ->
  Z.of_nat (length (b_block N P b_full r)) = rows r.
Proof.
  intros Hr. destruct (rank_range r Hr) as (H1 & H2 & H3).
  pose proof run_N. pose proof run_len_b.
  unfold b_block, slice. fold rows start.
  rewrite length_take, length_drop. lia.
Qed.

Lemma elems_in_range r :
  (0 <= r < P)%Z ->
  CInt.mul (rows r) N = (rows r * N)%Z
  /\ CInt.wrap (start r * N) = (start r * N)%Z.
Proof.
  intros Hr. destruct (rank_range r Hr) as (H1 & H2 & H3).
  pose proof run_N. pose proof run_NN.
  split; [apply CInt.mul_small | apply CInt.wrap_small];
    unfold CInt.in_range, CInt.INT_MIN, CInt.INT_MAX in *; nia.
Qed.

Lemma scatter_A_one r :
  (0 <= r < P)%Z ->
  scatter_one A_full (CInt.mul (rows r) N) (CInt.wrap (start r * N))
              (replicate (Z.to_nat (rows r * N)) uninit)
              (CInt.mul (rows r) N)
  = Some (A_block N P A_full r).
Proof.
  intros Hr. destruct (rank_range r Hr) as (H1 & H2 & H3).
  destruct (elems_in_range r Hr) as (-> & ->).
  pose proof run_N. pose proof run_len_A.
  unfold scatter_one. rewrite Z.eqb_refl, length_replicate.
  destruct (Z.leb_spec 0 (rows r * N)); [| nia].
  destruct (Z.leb_spec 0 (start r * N)); [| nia].
  destruct (Z.leb_spec (start r * N + rows r * N)
                       (Z.of_nat (length A_full))); [| nia].
  destruct (Z.leb_spec (rows r * N) (Z.of_nat (Z.to_nat (rows r * N))));
    [| lia].
  cbn [andb]. rewrite (drop_ge (replicate _ _));
    [now rewrite app_nil_r |].
  rewrite length_replicate. lia.
Qed.

Lemma scatter_b_one r :
  (0 <= r < P)%Z ->
  scatter_one b_full (rows r) (start r)
              (replicate (Z.to_nat (rows r)) uninit) (rows r)
  = Some (b_block N P b_full r).
Proof.
  intros Hr. destruct (rank_range r Hr) as (H1 & H2 & H3).
  pose proof run_N. pose proof run_len_b.
  unfold scatter_one. rewrite Z.eqb_refl, length_replicate.
  destruct (Z.leb_spec 0 (rows r)); [| lia].
  destruct (Z.leb_spec 0 (start r)); [| lia].
  destruct (Z.leb_spec (start r + rows r) (Z.of_nat (length b_full)));
    [| lia].
  destruct (Z.leb_spec (rows r) (Z.of_nat (Z.to_nat (rows r)))); [| lia].
  cbn [andb]. rewrite (drop_ge (replicate _ _));
    [now rewrite app_nil_r |].
  rewrite length_replicate. lia.
Qed.

(** An argument that only rank 0 passes. *)
Definition root_only {T : Type} (r : Z) (v : T) : option T :=
  if (r =? 0)%Z then Some v else None.

Definition zeros : list float := replicate (Z.to_nat N) 0.

Lemma rank_main_form r :
  rank_main e P r
  = PBcastInt (if (r =? 0)%Z then N else 0%Z)
      (after_bcast e P r (if (r =? 0)%Z then A_full else [])
                   (if (r =? 0)%Z then b_full else [])).
Proof.
  unfold rank_main. destruct (r =? 0)%Z; [| reflexivity].
  now rewrite (load_ok e N P A_full b_full Hvalid).
Qed.

Lemma after_bcast_form r Af bf :
  (0 <= r < P)%Z ->
  after_bcast e P r Af bf N
  = PScatterv Af
      (root_only r (sendcounts (scatter_arrays N P),
                    displsA (scatter_arrays N P)))
      (replicate (Z.to_nat (rows r * N)) uninit) (CInt.mul (rows r) N)
      (fun A_loc =>
         PScatterv bf
           (root_only r (sendcounts_b (scatter_arrays N P),
                         displsb (scatter_arrays N P)))
           (replicate (Z.to_nat (rows r)) uninit) (rows r)
           (fun b_loc => start_iterating e N P r A_loc b_loc)).
Proof.
  intros Hr. destruct (rank_range r Hr) as (H1 & H2 & H3).
  pose proof run_N. pose proof run_NN.
  unfold after_bcast. destruct (Z.leb_spec N 0); [lia |].
  fold (rows r).
  pose proof run_P.
  rewrite sizet_bytes2, sizet_bytes1 by (unfold CInt.INT_MAX in *; nia).
  rewrite !run_malloc_doubles by (unfold rows in *; rows_alloc r).
  unfold scatter_args, root_only.
  rewrite sizet_bytes1 by lia. rewrite !run_alloc by lia.
  destruct (r =? 0)%Z; reflexivity.
Qed.

Lemma start_iterating_form r Al bl :
  (0 <= r < P)%Z ->
  start_iterating e N P r Al bl
  = jacobi_loop (Z.to_nat MAX_ITER) e N P r
      (mk_mem Al bl zeros zeros (replicate (Z.to_nat (rows r)) uninit)) 0.
Proof.
  intros Hr. destruct (rank_range r Hr) as (H1 & H2 & H3).
  pose proof run_N.
  unfold start_iterating. fold (rows r).
  rewrite !sizet_bytes1 by (unfold CInt.INT_MAX in *; lia).
  rewrite !(run_malloc_doubles N) by (left; lia).
  rewrite run_malloc_doubles by (unfold rows in *; rows_alloc r).
  rewrite zero_loop by (rewrite length_replicate; lia).
  reflexivity.
Qed.

(** *** One round on one rank *)

Definition loop_k3 (f : nat) (r : Z) (m3 : rank_mem) (it : Z)
  : float -> proc :=
  fun global_error =>
    let iterations' := CInt.add it 1 in
    if (TOLERANCE <? global_error) && (iterations' <? MAX_ITER)%Z
    then jacobi_loop f e N P r m3 iterations'
    else finish N P r m3 iterations' global_error.

Definition loop_k2 (f : nat) (r : Z) (m2 : rank_mem) (it : Z)
  : list float -> proc :=
  fun xb =>
    let m3 := set_x m2 xb in
    match for_each 0 (local_rows N P r) (err_body (start_row N P r) m3) 0 with
    | None => PFault
    | Some local_error => PAllreduce local_error (loop_k3 f r m3 it)
    end.

Definition loop_k1 (f : nat) (r : Z) (m2 : rank_mem) (it : Z)
  : list float -> proc :=
  fun xg => PBcast xg N (loop_k2 f r m2 it).

Lemma jacobi_loop_unfold f r m it :
  jacobi_loop (S f) e N P r m it
  = match for_each 0 N copy_body m with
    | None => PFault
    | Some m1 =>
        match for_each 0 (local_rows N P r)
                       (sweep_body N (start_row N P r)) m1 with
        | None => PFault
        | Some m2 =>
            match gather_args e N P r with
            | None => PAbort 1 GatherAllocFailed
            | Some gargs =>
                PGatherv (x_local m2) (local_rows N P r) (x m2) gargs
                         (loop_k1 f r m2 it)
            end
        end
    end.
Proof. reflexivity. Qed.

(** The memory of rank [r] at the head of the loop, when the current
    iterate is [X]. *)
Definition mem_ok (r : Z) (m : rank_mem) (X : list float) : Prop :=
  A_local m = A_block N P A_full r /\ b_local m = b_block N P b_full r
  /\ x m = X
  /\ Z.of_nat (length (x_old m)) = N
  /\ Z.of_nat (length (x_local m)) = rows r.

(** The memory of rank [r] after the update of its rows. *)
Definition mem_swept (r : Z) (X : list float) : rank_mem :=
  mk_mem (A_block N P A_full r) (b_block N P b_full r) X X
         (rank_update N P A_full b_full X r).

Lemma gather_args_form r :
  gather_args e N P r
  = Some (root_only r (local_rows N P <$> seqZ 0 P,
                       start_row N P <$> seqZ 0 P)).
Proof.
  pose proof run_P.
  unfold gather_args, root_only.
  rewrite sizet_bytes1 by lia. rewrite !run_alloc by lia.
  rewrite (gather_arrays_eq N P run_N run_P).
  destruct (r =? 0)%Z; reflexivity.
Qed.

Lemma round_head f r m X it :
  (0 <= r < P)%Z -> Z.of_nat (length X) = N -> mem_ok r m X ->
  jacobi_loop (S f) e N P r m it
  = PGatherv (rank_update N P A_full b_full X r) (rows r) X
      (root_only r (local_rows N P <$> seqZ 0 P, start_row N P <$> seqZ 0 P))
      (loop_k1 f r (mem_swept r X) it).
Proof.
  intros Hr HX (HA & Hb & Hx & Hxo & Hxl).
  destruct (rank_range r Hr) as (H1 & H2 & H3). pose proof run_N.
  rewrite jacobi_loop_unfold.
  rewrite copy_loop by (rewrite ?Hx; lia).
  rewrite sweep_loop; simpl; fold (rows r) (start r); try lia.
  - rewrite gather_args_form.
    unfold mem_swept, rank_update, set_x_local, set_x_old. simpl.
    rewrite HA, Hb, Hx. reflexivity.
  - rewrite HA. now apply length_A_block.
  - rewrite Hb. now apply length_b_block.
  - rewrite Hx. lia.
Qed.

Lemma round_err f r X X' it :
  (0 <= r < P)%Z -> Z.of_nat (length X) = N -> Z.of_nat (length X') = N ->
  loop_k2 f r (mem_swept r X) it X'
  = PAllreduce (rank_err N P X' X r)
               (loop_k3 f r (set_x (mem_swept r X) X') it).
Proof.
  intros Hr HX HX'.
  destruct (rank_range r Hr) as (H1 & H2 & H3). pose proof run_N.
  unfold loop_k2. cbv zeta.
  rewrite (err_loop N); simpl; fold (rows r) (start r); try lia.
  reflexivity.
Qed.

Lemma mem_ok_next r X X' :
  (0 <= r < P)%Z -> Z.of_nat (length X) = N ->
  mem_ok r (set_x (mem_swept r X) X') X'.
Proof.
  intros Hr HX. unfold mem_ok, set_x, mem_swept. simpl.
  repeat split; auto.
  apply (length_rank_update N P A_full b_full run_N run_P X r Hr).
Qed.

(** *** The report and the end of the job *)

Definition print_size : Z := if (N <? 5)%Z then N else 5%Z.

Definition report (res : list float * Z * float) : output :=
  OutReport N P print_size (take (Z.to_nat print_size) res.1.1)
            res.1.2 res.2.

Definition job_results (res : list float * Z * float)
  : list (Z * option output) :=
  (fun r => (0%Z, root_only r (report res))) <$> seqZ 0 P.

Lemma mapM_rd_prefix (l : list float) (n : Z) :
  (0 <= n <= Z.of_nat (length l))%Z ->
  mapM (rd l) (seqZ 0 n) = Some (take (Z.to_nat n) l).
Proof.
  intros Hn. apply mapM_Some_2.
  replace (take (Z.to_nat n) l) with (get l <$> seqZ 0 n).
  - apply Forall2_fmap_r, Forall_Forall2_diag, Forall_forall.
    intros i Hi. apply elem_of_seqZ in Hi. simpl.
    apply rd_in_range. lia.
  - rewrite <- (get_fmap_seqZ (take (Z.to_nat n) l)).
    rewrite length_take.
    replace (Z.of_nat (Z.to_nat n `min` length l)) with n by lia.
    apply fmap_ext_in. intros i Hi. apply elem_of_seqZ in Hi.
    unfold get, rd. destruct (i <? 0)%Z; [reflexivity |].
    now rewrite lookup_take_lt by lia.
Qed.

Lemma finish_form r m it ge :
  Z.of_nat (length (x m)) = N ->
  finish N P r m it ge = PExit 0 (root_only r (report (x m, it, ge))).
Proof.
  intros Hx. pose proof run_N. unfold finish, root_only, report.
  destruct (r =? 0)%Z; [| reflexivity].
  fold print_size. rewrite mapM_rd_prefix; [reflexivity |].
  unfold print_size. destruct (Z.ltb_spec N 5); lia.
Qed.

(** One round of the group: gather, broadcast, reduction, and then the
    test of the [while]. *)
Lemma round_run (f k : nat) (mem : Z -> rank_mem) (X : list float) (it : Z) :
  (0 <= it < MAX_ITER)%Z ->
  Z.of_nat (length X) = N ->
  (forall r, (0 <= r < P)%Z -> mem_ok r (mem r) X) ->
  let X' := next_x N P A_full b_full X in
  let ge := global_err N P X' X in
  run_world (S (S (S k)))
    ((fun r => jacobi_loop (S f) e N P r (mem r) it) <$> seqZ 0 P)
  = run_world k
      ((fun r =>
          if (TOLERANCE <? ge) && (it + 1 <? MAX_ITER)%Z
          then jacobi_loop f e N P r (set_x (mem_swept r X) X') (it + 1)%Z
          else PExit 0 (root_only r (report (X', (it + 1)%Z, ge))))
         <$> seqZ 0 P).
Proof.
  intros Hit HX Hmem X' ge.
  pose proof run_N as HN; pose proof run_P as HP.
  pose proof (length_next_x N P A_full b_full HN HP X) as HX'.
  fold X' in HX'.
  rewrite (fmap_ext_in _
         (fun r => PGatherv (rank_update N P A_full b_full X r) (rows r) X
            (root_only r (local_rows N P <$> seqZ 0 P,
                          start_row N P <$> seqZ 0 P))
            (loop_k1 f r (mem_swept r X) it)))
      by (intros r Hr; apply elem_of_seqZ in Hr;
          apply round_head; auto; lia).
  rewrite !(seqZ_ranks P) by lia.
  erewrite run_world_step;
    [| apply (world_step_gatherv _ _ _ _ _
                (local_rows N P <$> (0%Z :: seqZ 1 (P - 1)))
                (start_row N P <$> (0%Z :: seqZ 1 (P - 1))) X');
       [reflexivity
       | rewrite <- (seqZ_ranks P) by lia;
         apply (gather_next_x N P A_full b_full HN HP X X HX)]].
  erewrite run_world_step;
    [| apply (world_step_bcast X' (fun _ => X) N
                (loop_k2 f 0 (mem_swept 0 X) it)
                (fun r => loop_k2 f r (mem_swept r X) it));
       [exact HX' | intros; exact HX]].
  rewrite <- (fmap_cons (fun r => loop_k2 f r (mem_swept r X) it X')).
  rewrite (fmap_ext_in _
         (fun r => PAllreduce (rank_err N P X' X r)
                              (loop_k3 f r (set_x (mem_swept r X) X') it)))
      by (intros r Hr; rewrite <- (seqZ_ranks P) in Hr by lia;
          apply elem_of_seqZ in Hr; apply round_err; auto; lia).
  erewrite run_world_step; [| apply world_step_allreduce].
  rewrite <- !(seqZ_ranks P) by lia.
  fold (global_err N P X' X). fold ge.
  f_equal. apply fmap_ext_in. intros r _.
  unfold loop_k3; cbv zeta.
  rewrite CInt.add_small
    by (unfold CInt.in_range, CInt.INT_MIN, CInt.INT_MAX, MAX_ITER in *; lia).
  destruct ((TOLERANCE <? ge) && (it + 1 <? MAX_ITER)%Z); [reflexivity |].
  apply finish_form. exact HX'.
Qed.

Lemma exits_run (k : nat) (res : list float * Z * float) :
  run_world (S k) ((fun r => PExit 0 (root_only r (report res))) <$> seqZ 0 P)
  = Finished (job_results res).
Proof. erewrite run_world_done; [| apply world_step_exit]. reflexivity. Qed.

Lemma fmap_if {A B : Type} (c : bool) (f g : A -> B) (l : list A) :
  (fun a => if c then f a else g a) <$> l = if c then f <$> l else g <$> l.
Proof. destruct c; reflexivity. Qed.

(** *** The loop, for the whole group *)

Lemma loop_run (f : nat) :
  forall (mem : Z -> rank_mem) (X : list float) (it : Z),
    (it + 1 + Z.of_nat f = MAX_ITER)%Z -> (0 <= it)%Z ->
    Z.of_nat (length X) = N ->
    (forall r, (0 <= r < P)%Z -> mem_ok r (mem r) X) ->
    run_world (S (S (S (3 * f + 1))))
      ((fun r => jacobi_loop (S f) e N P r (mem r) it) <$> seqZ 0 P)
    = Finished (job_results (iterate N P A_full b_full f X it)).
Proof.
  induction f as [|f IH]; intros mem X it Hit Hit0 HX Hmem.
  all: pose proof run_N as HN; pose proof run_P as HP.
  all: pose proof (length_next_x N P A_full b_full HN HP X) as HX'.
  all: rewrite (round_run _ _ mem X it) by (auto; unfold MAX_ITER in *; lia);
    rewrite fmap_if.
  - (* the last round that the cap allows *)
    replace (it + 1 <? MAX_ITER)%Z with false
      by (symmetry; apply Z.ltb_ge; lia).
    rewrite andb_false_r. apply exits_run.
  - cbn [iterate]. cbv zeta.
    destruct ((TOLERANCE <? global_err N P (next_x N P A_full b_full X) X)
              && (it + 1 <? MAX_ITER)%Z).
    + replace (3 * S f + 1)%nat with (S (S (S (3 * f + 1)))) by lia.
      apply (IH (fun r => set_x (mem_swept r X)
                                (next_x N P A_full b_full X))); auto; try lia.
      intros r Hr. now apply mem_ok_next.
    + replace (3 * S f + 1)%nat with (S (3 * f + 3)) by lia.
      apply exits_run.
Qed.

(** *** The whole job *)

Lemma in_ranks r : r ∈ (0%Z :: seqZ 1 (P - 1)) -> (0 <= r < P)%Z.
Proof.
  pose proof run_P. rewrite <- (seqZ_ranks P) by lia.
  intros H0. apply elem_of_seqZ in H0. lia.
Qed.

Theorem run_job_spec :
  run_job e P = Finished (job_results (solve N P A_full b_full)).
Proof.
  pose proof run_N as HN. pose proof run_P as HP.
  unfold run_job.
  replace JOB_FUEL with (S (S (S (S (S (S (3 * 999 + 1)))))))
    by (vm_compute; reflexivity).
  (* MPI_Bcast of N *)
  rewrite (fmap_ext_in _ _ _ (fun r _ => rank_main_form r)).
  rewrite (seqZ_ranks P) at 1 by lia.
  erewrite run_world_step; [| apply world_step_bcast_int].
  cbv beta. change (if (0 =? 0)%Z then N else 0%Z) with N.
  (* MPI_Scatterv of the rows of A *)
  rewrite (fmap_ext_in _ _ _
             (fun r Hr => after_bcast_form r
                            (if (r =? 0)%Z then A_full else [])
                            (if (r =? 0)%Z then b_full else [])
                            (in_ranks r Hr))).
  erewrite run_world_step;
    [| apply (world_step_scatterv _ _
                (fun r => CInt.mul (rows r) N)
                (fun r => CInt.wrap (start r * N)) _ _ _
                (A_block N P A_full));
       [ unfold root_only; change (0 =? 0)%Z with true; cbv iota;
         rewrite (sendcounts_eq N P HN HP), (displsA_eq N P HN HP),
                 (seqZ_ranks P) by lia; reflexivity
       | intros r Hr; change (if (0 =? 0)%Z then A_full else [])
                        with A_full;
         apply scatter_A_one; now apply in_ranks ]].
  (* MPI_Scatterv of the entries of b *)
  erewrite run_world_step;
    [| apply (world_step_scatterv _ _ rows start _ _ _
                (b_block N P b_full));
       [ unfold root_only; change (0 =? 0)%Z with true; cbv iota;
         rewrite (sendcounts_b_eq N P HN HP), (displsb_eq N P HN HP),
                 (seqZ_ranks P) by lia; reflexivity
       | intros r Hr; change (if (0 =? 0)%Z then b_full else [])
                        with b_full;
         apply scatter_b_one; now apply in_ranks ]].
  (* the loop *)
  cbv beta.
  rewrite (fmap_ext_in _ _ _
             (fun r Hr => start_iterating_form r
                            (A_block N P A_full r) (b_block N P b_full r)
                            (in_ranks r Hr))).
  rewrite <- (seqZ_ranks P) by lia.
  change (Z.to_nat MAX_ITER) with (S 999).
  rewrite (loop_run 999 _ zeros 0).
  - reflexivity.
  - reflexivity.
  - lia.
  - unfold zeros. rewrite length_replicate. lia.
  - intros r Hr. destruct (rank_range r Hr) as (H1 & _).
    unfold mem_ok, zeros; simpl. rewrite !length_replicate.
    repeat split; lia.
Qed.

End Run.

(** ** Facts of binary64 arithmetic used below *)

Lemma Prim2SF_eq (a b : float) : Prim2SF a = Prim2SF b -> a = b.
Proof.
  intros H. rewrite <- (SF2Prim_Prim2SF a), <- (SF2Prim_Prim2SF b).
  now rewrite H.
Qed.

Lemma float_sub_0_r (a : float) : a - 0 = a.
Proof.
  apply Prim2SF_eq. rewrite sub_spec.
  change (Prim2SF 0) with (S754_zero false).
  destruct (Prim2SF a) as [s | s | | s m e]; try reflexivity.
  destruct s; reflexivity.
Qed.

Lemma float_add_0_abs (d : float) : 0 + abs d = abs d.
Proof.
  apply Prim2SF_eq. rewrite add_spec, abs_spec.
  change (Prim2SF 0) with (S754_zero false).
  destruct (Prim2SF d) as [s | s | | s m e]; reflexivity.
Qed.

Lemma float_abs_add_0 (d : float) : abs d + 0 = abs d.
Proof.
  apply Prim2SF_eq. rewrite add_spec, abs_spec.
  change (Prim2SF 0) with (S754_zero false).
  destruct (Prim2SF d) as [s | s | | s m e]; reflexivity.
Qed.

(** [y - y] is [+0] or NaN, so its magnitude never exceeds the tolerance. *)
Lemma float_self_diff_small (y : float) : (TOLERANCE <? abs (y - y)) = false.
Proof.
  rewrite ltb_spec, abs_spec, sub_spec.
  destruct (Prim2SF y) as [s | s | | s m e]; try (destruct s; reflexivity).
  - reflexivity.
  - unfold SF64sub, SFsub. rewrite Z.sub_diag. reflexivity.
Qed.

(** Comparisons: [<=] excludes [>], and a value that is not greater is
    smaller-or-equal or NaN. *)
Lemma SFcompare_antisym (a b : spec_float) :
  SFcompare b a = option_map CompOpp (SFcompare a b).
Proof.
  destruct a as [sa | sa | | sa ma ea], b as [sb | sb | | sb mb eb];
    try destruct sa; try destruct sb; try reflexivity.
  all: simpl; rewrite (Z.compare_antisym ea eb);
    destruct (ea ?= eb)%Z; simpl; try reflexivity.
  all: pose proof (Pos.compare_cont_antisym ma mb Eq) as H; simpl in H;
    rewrite <- H.
  all: now rewrite ?CompOpp_involutive.
Qed.

Lemma float_leb_not_gt (a b : float) : (a <=? b) = true -> (b <? a) = false.
Proof.
  rewrite leb_spec, ltb_spec. unfold SFleb, SFltb.
  rewrite (SFcompare_antisym (Prim2SF a) (Prim2SF b)).
  destruct (SFcompare (Prim2SF a) (Prim2SF b)) as [[]|]; simpl; congruence.
Qed.

Lemma float_not_gt_cases (a b : float) :
  (b <? a) = false -> (a <=? b) = true \/ is_nan a = true \/ is_nan b = true.
Proof.
  unfold is_nan. rewrite leb_spec, ltb_spec, !FloatAxioms.eqb_spec.
  unfold SFleb, SFltb, SFeqb.
  rewrite (SFcompare_antisym (Prim2SF a) (Prim2SF b)).
  destruct (Prim2SF a) as [sa | sa | | sa ma ea] eqn:Ea;
    destruct (Prim2SF b) as [sb | sb | | sb mb eb] eqn:Eb;
    try (right; left; reflexivity); try (right; right; reflexivity).
  all: destruct (SFcompare _ _) as [[]|] eqn:Ec; simpl;
    try discriminate; try (intros _; left; reflexivity).
  all: try (destruct sa; discriminate); try (destruct sb; discriminate);
    try (destruct sa, sb; discriminate).
  all: exfalso; revert Ec; simpl; destruct sa, sb; try discriminate;
    destruct (ea ?= eb)%Z; discriminate.
Qed.

(** * The specification, claim by claim *)

(** C1. The Jacobi update of a rank.  On a rank whose buffers have the sizes
    the program allocates, the loop over its rows does not fault, and for
    every owned row [li] (global row [i = start + li]) it stores
    [(b_local[li] - sum) / A_local[li*N + i]], where [sum] adds
    [A_local[li*N + j] * x_old[j]] over the columns [j] of [0 .. N-1] other
    than [i], in increasing [j] from 0.  The diagonal column is left out of
    the sum, and [x_old], [A_local], [b_local] and [x] are what they were. *)
Theorem jacobi_update_formula (N start lrows : Z) (m : rank_mem) :
  (0 <= lrows)%Z -> (0 <= start)%Z -> (start + lrows <= N)%Z ->
  (N <= CInt.INT_MAX)%Z ->
  Z.of_nat (length (A_local m)) = (lrows * N)%Z ->
  Z.of_nat (length (b_local m)) = lrows ->
  Z.of_nat (length (x_old m)) = N ->
  Z.of_nat (length (x_local m)) = lrows ->
  exists m',
    for_each 0 lrows (sweep_body N start) m = Some m'
    /\ Z.of_nat (length (x_local m')) = lrows
    /\ (forall li, (0 <= li < lrows)%Z ->
          let i := (start + li)%Z in
          let sum :=
            foldl (fun s j => s + get (A_local m) (li * N + j) * get (x_old m) j)
                  0 (filter (fun j => j <> i) (seqZ 0 N)) in
          rd (x_local m') li
          = Some ((get (b_local m) li - sum) / get (A_local m) (li * N + i)))
    /\ x_old m' = x_old m /\ A_local m' = A_local m
    /\ b_local m' = b_local m /\ x m' = x m.
Proof.
  intros Hl Hs Hsl HN HA Hb Hxo Hxl.
  eexists. split; [apply sweep_loop; assumption |].
  simpl. split; [rewrite length_fmap, length_seqZ; lia |].
  split; [| repeat split].
  intros li Hli. unfold rd.
  destruct (Z.ltb_spec li 0); [lia |].
  rewrite list_lookup_fmap, lookup_seqZ_lt by lia. simpl.
  rewrite Z2Nat.id by lia. reflexivity.
Qed.

Lemma jacobi_update_formula_witness :
  exists m',
    for_each 0 2 (sweep_body 2 0)
             (mk_mem [4; 1; 3; 5] [4; 8] [1; 1] [1; 1] [uninit; uninit])
    = Some m'
    /\ x_local m' = [0.75; 1].
Proof.
  destruct (jacobi_update_formula 2 0 2
              (mk_mem [4; 1; 3; 5] [4; 8] [1; 1] [1; 1] [uninit; uninit]))
    as (m' & Hrun & _);
    [lia | lia | lia | unfold CInt.INT_MAX; lia | reflexivity
     | reflexivity | reflexivity | reflexivity |].
  exists m'. split; [exact Hrun |].
  vm_compute in Hrun. injection Hrun as <-. reflexivity.
Defined.

(** C2. The row partition.  For [N >= 1] rows and [P >= 1] ranks (both
    [int]s): every row belongs to exactly one rank; the ranges start at row
    0, follow one another without gap or overlap and end at row [N]; the
    sizes add up to [N] and differ by at most 1; the ranks below [N mod P]
    are the ones with the extra row; and the tables the coordinator builds
    for the scatter hold, for every rank, the count and the displacement
    that the rank computes for itself (for the matrix, the same two
    numbers times [N], in [int] arithmetic). *)
Theorem row_partition (N P : Z) :
  (1 <= N <= CInt.INT_MAX)%Z -> (1 <= P <= CInt.INT_MAX)%Z ->
  (forall i, (0 <= i < N)%Z ->
     exists r, (0 <= r < P)%Z
       /\ (start_row N P r <= i < start_row N P r + local_rows N P r)%Z
       /\ forall r', (0 <= r' < P)%Z ->
            (start_row N P r' <= i < start_row N P r' + local_rows N P r')%Z ->
            r' = r)
  /\ start_row N P 0 = 0%Z
  /\ (forall r, (0 <= r < P - 1)%Z ->
        start_row N P (r + 1) = (start_row N P r + local_rows N P r)%Z)
  /\ (start_row N P (P - 1) + local_rows N P (P - 1))%Z = N
  /\ (forall r, (0 <= r < P)%Z ->
        (0 <= local_rows N P r)%Z
        /\ end_row N P r = (start_row N P r + local_rows N P r)%Z)
  /\ (forall r1 r2, (0 <= r1 < r2)%Z -> (r2 < P)%Z ->
        (start_row N P r1 + local_rows N P r1 <= start_row N P r2)%Z)
  /\ foldr Z.add 0%Z (local_rows N P <$> seqZ 0 P) = N
  /\ (forall r1 r2, (0 <= r1 < P)%Z -> (0 <= r2 < P)%Z ->
        (Z.abs (local_rows N P r1 - local_rows N P r2) <= 1)%Z)
  /\ (forall r, (0 <= r < P)%Z ->
        local_rows N P r
        = (N / P + (if (r <? N mod P)%Z then 1 else 0))%Z)
  /\ sendcounts_b (scatter_arrays N P) = local_rows N P <$> seqZ 0 P
  /\ displsb (scatter_arrays N P) = start_row N P <$> seqZ 0 P
  /\ sendcounts (scatter_arrays N P)
     = (fun r => CInt.mul (local_rows N P r) N) <$> seqZ 0 P
  /\ displsA (scatter_arrays N P)
     = (fun r => CInt.wrap (start_row N P r * N)) <$> seqZ 0 P.
Proof.
  intros HN HP.
  pose proof (start_row_succ N P HN HP) as Hsucc.
  repeat apply conj.
  - intros i Hi. destruct (owner_exists N P HN HP i Hi) as (r & Hr & Hin).
    exists r. repeat split; try lia.
    intros r' Hr' Hin'. now apply (ranges_disjoint N P HN HP r' r i).
  - apply (start_row_0 N P HN HP).
  - intros r Hr. apply Hsucc. lia.
  - rewrite <- Hsucc by lia. replace (P - 1 + 1)%Z with P by lia.
    apply (start_row_P N P HN HP).
  - intros r Hr. split.
    + apply (local_rows_nonneg N P HN HP r Hr).
    + rewrite (end_row_eq N P HN HP) by lia. now apply Hsucc.
  - intros r1 r2 H1 H2. rewrite <- Hsucc by lia.
    apply (start_row_mono N P HN HP); lia.
  - apply (sizes_sum N P HN HP).
  - intros r1 r2 H1 H2. rewrite !(local_rows_eq N P HN HP) by lia.
    unfold extra. destruct (r1 <? N mod P)%Z, (r2 <? N mod P)%Z; lia.
  - intros r Hr. now rewrite (local_rows_eq N P HN HP) by lia.
  - apply (sendcounts_b_eq N P HN HP).
  - apply (displsb_eq N P HN HP).
  - apply (sendcounts_eq N P HN HP).
  - apply (displsA_eq N P HN HP).
Qed.

Lemma row_partition_witness :
  local_rows 10 4 <$> seqZ 0 4 = [3; 3; 2; 2]%Z
  /\ start_row 10 4 <$> seqZ 0 4 = [0; 3; 6; 8]%Z
  /\ sendcounts_b (scatter_arrays 10 4) = local_rows 10 4 <$> seqZ 0 4
  /\ displsb (scatter_arrays 10 4) = start_row 10 4 <$> seqZ 0 4.
Proof.
  destruct (row_partition 10 4) as (_ & _ & _ & _ & _ & _ & _ & _ & _
                                    & Hc & Hd & _);
    [unfold CInt.INT_MAX; lia | unfold CInt.INT_MAX; lia |].
  split; [reflexivity | split; [reflexivity | split; [exact Hc | exact Hd]]].
Defined.

(** ** Concrete systems *)

(** A run on a file that holds [N] and the given numbers, with an allocator
    that never fails. *)
Definition system_env (N : Z) (nums : list float) : env :=
  mk_env (Some (mk_file (Some N) nums)) (fun _ => true).

Lemma system_env_valid (N P : Z) (A b : list float) :
  (1 <= N)%Z -> (N * N <= CInt.INT_MAX)%Z -> (1 <= P <= CInt.INT_MAX)%Z ->
  Z.of_nat (length A) = (N * N)%Z -> Z.of_nat (length b) = N ->
  valid_run (system_env N (A ++ b)) N P A b.
Proof.
  intros H1 H2 H3 H4 H5. repeat split; try assumption; try lia.
  exists []. now rewrite app_nil_r.
Qed.

(** The check that the serial and the OpenMP solver make before their first
    round ([fabs(diag[i]) < 1e-20], then [exit(EXIT_FAILURE)]): the first
    row it would reject. *)
Definition near_zero_diagonal (N : Z) (A : list float) : option Z :=
  List.find (fun i => abs (get A (i * N + i)) <? DIAG_EPS) (seqZ 0 N).

(** C3.  The MPI solver has no such check.  On the 1x1 system [0 * x = 1],
    which the sibling solvers reject at row 0, it runs two rounds, prints
    an infinite solution and a NaN error, and every rank exits with
    status 0. *)
Theorem zero_diagonal_not_rejected :
  near_zero_diagonal 1 [0] = Some 0%Z
  /\ run_job (system_env 1 [0; 1]) 1
     = Finished [(0%Z, Some (OutReport 1 1 1 [infinity] 2 nan))].
Proof. split; vm_compute; reflexivity. Qed.

(** ** 1x1 systems *)

Lemma partition_of_one (P : Z) :
  (1 <= P <= CInt.INT_MAX)%Z ->
  local_rows 1 P 0 = 1%Z /\ start_row 1 P 0 = 0%Z
  /\ forall r, (1 <= r < P)%Z -> local_rows 1 P r = 0%Z.
Proof.
  intros HP.
  assert (H1 : (1 <= 1 <= CInt.INT_MAX)%Z) by (unfold CInt.INT_MAX; lia).
  pose proof (sizes_sum 1%Z P H1 HP) as Hsum.
  pose proof (start_row_0 1%Z P H1 HP) as H0.
  pose proof (start_row_succ 1%Z P H1 HP 0%Z ltac:(lia)) as Hs.
  pose proof (start_row_bounds 1%Z P H1 HP) as Hb.
  pose proof (start_row_mono 1%Z P H1 HP) as Hm.
  pose proof (local_rows_eq 1%Z P H1 HP) as Hl.
  assert (Hrows0 : local_rows 1 P 0 = 1%Z).
  { rewrite Hl by lia. destruct (Z.eq_dec P 1%Z) as [->|Hne]; [reflexivity |].
    rewrite Z.div_small, Z.mod_small by lia. reflexivity. }
  repeat split; auto.
  intros r Hr.
  pose proof (local_rows_nonneg 1%Z P H1 HP r ltac:(lia)) as Hnn.
  pose proof (start_row_succ 1%Z P H1 HP r ltac:(lia)) as Hsr.
  pose proof (Hb (r + 1)%Z ltac:(lia)) as Hb1.
  pose proof (Hm (0 + 1)%Z r ltac:(lia) ltac:(lia) ltac:(lia)) as Hmono.
  rewrite Hs, H0, Hrows0 in Hmono. lia.
Qed.

Lemma concat_all_nil {A B : Type} (f : A -> list B) (l : list A) :
  (forall a, a ∈ l -> f a = []) -> concat (f <$> l) = [].
Proof.
  induction l as [|a l IH]; intros H; [reflexivity |].
  simpl. rewrite (H a) by left. apply IH. intros b Hb. apply H. now right.
Qed.

Lemma foldl_add_zeros (d : float) (l : list float) :
  (forall v, v ∈ l -> v = 0) -> foldl PrimFloat.add (abs d) l = abs d.
Proof.
  induction l as [|v l IH]; intros H; [reflexivity |].
  simpl. rewrite (H v) by left. rewrite float_abs_add_0.
  apply IH. intros w Hw. apply H. now right.
Qed.

Lemma next_x_one (P : Z) (a b : float) (X : list float) :
  (1 <= P <= CInt.INT_MAX)%Z -> next_x 1 P [a] [b] X = [b / a].
Proof.
  intros HP. destruct (partition_of_one P HP) as (Hr0 & Hs0 & Hr).
  unfold next_x. rewrite (seqZ_ranks P) by lia. rewrite fmap_cons. simpl concat.
  rewrite concat_all_nil.
  - rewrite app_nil_r. unfold rank_update, A_block, b_block.
    rewrite Hr0, Hs0. vm_compute.
    now rewrite float_sub_0_r.
  - intros r Hin. apply elem_of_seqZ in Hin. unfold rank_update.
    now rewrite Hr by lia.
Qed.

Lemma global_err_one (P : Z) (y : float) (X : list float) :
  (1 <= P <= CInt.INT_MAX)%Z ->
  global_err 1 P [y] X = abs (y - get X 0).
Proof.
  intros HP. destruct (partition_of_one P HP) as (Hr0 & Hs0 & Hr).
  unfold global_err. rewrite (seqZ_ranks P) by lia. rewrite fmap_cons.
  unfold reduce_sum.
  assert (H0 : rank_err 1 P [y] X 0 = abs (y - get X 0)).
  { unfold rank_err, local_err. rewrite Hr0, Hs0.
    change (seqZ 0 1) with [0%Z]. cbn [foldl]. rewrite float_add_0_abs.
    reflexivity. }
  rewrite H0. apply foldl_add_zeros.
  intros v Hv. apply list_elem_of_fmap in Hv as (r & -> & Hin).
  apply elem_of_seqZ in Hin. unfold rank_err, local_err.
  now rewrite Hr by lia.
Qed.

(** C4, as the code has it.  On a well-formed run on a 1x1 system whose
    coefficient [A[0][0]] is not zero, the solver ends with
    [x[0] = b[0] / A[0][0]].  The count it reports is 1 only if that
    quotient is within the tolerance of the initial guess 0 (or is NaN);
    otherwise the first round changes [x[0]] by more than the tolerance and
    a second round, which changes nothing, is what ends the loop: the count
    is 2. *)
Theorem one_by_one_system (e : env) (P : Z) (a b : float) :
  valid_run e 1 P [a] [b] ->
  (a =? 0) = false ->
  let y := b / a in
  run_job e P
  = Finished (job_results 1 P
      (if TOLERANCE <? abs y then ([y], 2%Z, abs (y - y))
       else ([y], 1%Z, abs y))).
Proof.
  intros Hvalid _ y.
  assert (HP : (1 <= P <= CInt.INT_MAX)%Z) by (destruct Hvalid as (_ & _ & H & _); exact H).
  rewrite (run_job_spec e 1 P [a] [b] Hvalid). do 2 f_equal.
  destruct (solve_unfold 1 P [a] [b]) as (fuel & ->).
  change (replicate (Z.to_nat 1) 0) with [0].
  rewrite iterate_S, next_x_one, global_err_one by exact HP. fold y.
  change (get [0] 0) with 0. rewrite float_sub_0_r.
  change (0 + 1 <? MAX_ITER)%Z with true. rewrite andb_true_r.
  destruct (TOLERANCE <? abs y); [| reflexivity].
  rewrite iterate_S, next_x_one, global_err_one by exact HP. fold y.
  change (get [y] 0) with y. rewrite float_self_diff_small.
  reflexivity.
Qed.

Lemma one_by_one_system_witness :
  run_job (system_env 1 [2; 4]) 1
  = Finished (job_results 1 1 ([2], 2%Z, 0)).
Proof.
  apply (one_by_one_system (system_env 1 [2; 4]) 1 2 4).
  - apply (system_env_valid 1 1 [2] [4]);
      unfold CInt.INT_MAX; simpl; lia.
  - reflexivity.
Defined.

(** C4 as stated fails: [2 * x = 4] has a non-zero coefficient, and the
    solver reports 2 iterations for it. *)
Lemma one_by_one_not_one_iteration :
  ~ (forall a b : float, (a =? 0) = false ->
       exists err, run_job (system_env 1 [a; b]) 1
                   = Finished [(0%Z, Some (OutReport 1 1 1 [b / a] 1 err))]).
Proof.
  intros H. destruct (H 2 4 eq_refl) as (err & Hrun).
  vm_compute in Hrun. discriminate Hrun.
Qed.

(** ** The error of a round and the test that ends the loop *)

Lemma ranges_concat_prefix (N P : Z) (k : nat) :
  (1 <= N <= CInt.INT_MAX)%Z -> (1 <= P <= CInt.INT_MAX)%Z ->
  (Z.of_nat k <= P)%Z ->
  concat ((fun r => seqZ (start_row N P r) (local_rows N P r))
            <$> seqZ 0 (Z.of_nat k))
  = seqZ 0 (start_row N P (Z.of_nat k)).
Proof.
  intros HN HP. induction k as [|k IH]; intros Hk.
  - change (Z.of_nat 0) with 0%Z. now rewrite (start_row_0 N P HN HP).
  - rewrite seqZ_S, fmap_app, concat_app, IH by lia. simpl.
    rewrite app_nil_r, Z.add_0_l, Nat2Z.inj_succ. unfold Z.succ.
    rewrite (start_row_succ N P HN HP) by lia.
    pose proof (start_row_bounds N P HN HP (Z.of_nat k) ltac:(lia)).
    pose proof (local_rows_nonneg N P HN HP (Z.of_nat k) ltac:(lia)).
    rewrite seqZ_app by lia. reflexivity.
Qed.

Lemma ranges_concat (N P : Z) :
  (1 <= N <= CInt.INT_MAX)%Z -> (1 <= P <= CInt.INT_MAX)%Z ->
  concat ((fun r => seqZ (start_row N P r) (local_rows N P r)) <$> seqZ 0 P)
  = seqZ 0 N.
Proof.
  intros HN HP.
  pose proof (ranges_concat_prefix N P (Z.to_nat P) HN HP) as H.
  rewrite Z2Nat.id in H by lia. rewrite H by lia.
  now rewrite (start_row_P N P HN HP).
Qed.

(** C5, as the code has it.  In a round that starts from the iterate [X] on
    every rank, with [x_new] the vector that the gather assembles and the
    broadcast hands to every rank: the owned ranges of the ranks, in rank
    order, are exactly the rows [0 .. N-1]; the reduced error [ge] is the
    sum, over the ranks, of each rank's sum of [|x_new[i] - X[i]|] over its
    own rows; the test is made after the three collectives of the round;
    the run ends after this round when [ge] is not greater than the
    tolerance or the counter has reached the cap, and otherwise goes on
    with the next round.  An error [<=] the tolerance is not greater than
    it; an error that is not greater is [<=] the tolerance or NaN. *)
Theorem global_error_and_halting (e : env) (N P : Z) (A_full b_full : list float)
    (f k : nat) (mem : Z -> rank_mem) (X : list float) (it : Z) :
  valid_run e N P A_full b_full ->
  (0 <= it < MAX_ITER)%Z ->
  Z.of_nat (length X) = N ->
  (forall r, (0 <= r < P)%Z -> mem_ok N P A_full b_full r (mem r) X) ->
  let heads := (fun r => jacobi_loop (S f) e N P r (mem r) it) <$> seqZ 0 P in
  let x_new := next_x N P A_full b_full X in
  let ge :=
    reduce_sum
      ((fun r =>
          foldl (fun s li => s + abs (get x_new (start_row N P r + li)
                                      - get X (start_row N P r + li)))
                0 (seqZ 0 (local_rows N P r)))
         <$> seqZ 0 P) in
  concat ((fun r => seqZ (start_row N P r) (local_rows N P r)) <$> seqZ 0 P)
  = seqZ 0 N
  /\ ((TOLERANCE <? ge) = false \/ (it + 1)%Z = MAX_ITER ->
      run_world (S (S (S (S k)))) heads
      = Finished (job_results N P (x_new, (it + 1)%Z, ge)))
  /\ ((TOLERANCE <? ge) = true -> (it + 1 < MAX_ITER)%Z ->
      run_world (S (S (S k))) heads
      = run_world k
          ((fun r => jacobi_loop f e N P r
                       (set_x (mem_swept N P A_full b_full r X) x_new)
                       (it + 1)%Z) <$> seqZ 0 P))
  /\ ((ge <=? TOLERANCE) = true -> (TOLERANCE <? ge) = false)
  /\ ((TOLERANCE <? ge) = false ->
      (ge <=? TOLERANCE) = true \/ is_nan ge = true).
Proof.
  intros Hvalid Hit HX Hmem heads x_new ge.
  pose proof (valid_run_N _ _ _ _ _ Hvalid) as HN.
  pose proof (run_P _ _ _ _ _ Hvalid) as HP.
  assert (Hround : forall k',
            run_world (S (S (S k'))) heads
            = run_world k'
                (if (TOLERANCE <? ge) && (it + 1 <? MAX_ITER)%Z
                 then (fun r => jacobi_loop f e N P r
                          (set_x (mem_swept N P A_full b_full r X) x_new)
                          (it + 1)%Z) <$> seqZ 0 P
                 else (fun r => PExit 0 (root_only r
                          (report N P (x_new, (it + 1)%Z, ge)))) <$> seqZ 0 P)).
  { intros k'. unfold heads.
    rewrite (round_run e N P A_full b_full Hvalid f k' mem X it Hit HX Hmem).
    cbv zeta. rewrite fmap_if. reflexivity. }
  split; [apply (ranges_concat N P HN HP) |].
  split; [| split; [| split]].
  - intros Hstop. rewrite (Hround (S k)).
    replace ((TOLERANCE <? ge) && (it + 1 <? MAX_ITER)%Z) with false.
    + apply exits_run.
    + symmetry. destruct Hstop as [-> | ->]; [reflexivity |].
      rewrite Z.ltb_irrefl. apply andb_false_r.
  - intros Hgt Hcap. rewrite (Hround k), Hgt.
    destruct (Z.ltb_spec (it + 1) MAX_ITER); [reflexivity | lia].
  - apply float_leb_not_gt.
  - intros Hle. destruct (float_not_gt_cases ge TOLERANCE Hle)
      as [H | [H | H]]; auto. discriminate H.
Qed.

Lemma global_error_and_halting_witness :
  run_world 4
    ((fun r => jacobi_loop 1 (system_env 1 [2; 4]) 1 1 r
                 (mk_mem [2] [4] [2] [0] [2]) 1) <$> seqZ 0 1)
  = Finished (job_results 1 1 ([2], 2%Z, 0)).
Proof.
  refine (proj1 (proj2 (global_error_and_halting
            (system_env 1 [2; 4]) 1 1 [2] [4] 0 0
            (fun _ => mk_mem [2] [4] [2] [0] [2]) [2] 1 _ _ _ _)) _).
  - apply (system_env_valid 1 1 [2] [4]); unfold CInt.INT_MAX; simpl; lia.
  - unfold MAX_ITER; lia.
  - reflexivity.
  - intros r Hr. assert (r = 0%Z) as -> by lia.
    repeat split; reflexivity.
  - left. vm_compute. reflexivity.
Defined.

(** C5 as stated fails: the 1x1 system [0.5 * x = 1.5e308] overflows to an
    infinite iterate, the error of the second round is NaN, and the loop
    ends there, far below the cap, although the error is not [<=] the
    tolerance. *)
Lemma halting_not_only_below_tolerance :
  ~ (forall (e : env) (N P : Z) (A b : list float),
       valid_run e N P A b ->
       forall ps xs it err rest,
         run_job e P
         = Finished ((0%Z, Some (OutReport N P ps xs it err)) :: rest) ->
         (it < MAX_ITER)%Z -> (err <=? TOLERANCE) = true).
Proof.
  intros H.
  specialize (H (system_env 1 [0.5; 0x1.ab36d48e1acf0p+1023]) 1%Z 1%Z
                [0.5] [0x1.ab36d48e1acf0p+1023]).
  specialize (H (system_env_valid 1 1 [0.5] [0x1.ab36d48e1acf0p+1023]
                   ltac:(lia) ltac:(unfold CInt.INT_MAX; lia)
                   ltac:(unfold CInt.INT_MAX; lia) eq_refl eq_refl)).
  specialize (H 1%Z [infinity] 2%Z nan [] ltac:(vm_compute; reflexivity)
                ltac:(unfold MAX_ITER; lia)).
  vm_compute in H. discriminate H.
Qed.

(** ** The counter *)

Lemma iterate_count (N P : Z) (A b : list float) (f : nat) :
  forall (X : list float) (it : Z),
    let res := iterate N P A b f X it in
    (it + 1 <= res.1.2 <= it + 1 + Z.of_nat f)%Z
    /\ res.1.1 = Nat.iter (Z.to_nat (res.1.2 - it)) (next_x N P A b) X
    /\ ((it + 1 + Z.of_nat f)%Z = MAX_ITER ->
        (TOLERANCE <? res.2) = false \/ res.1.2 = MAX_ITER).
Proof.
  assert (Hone : forall (X : list float) (it : Z),
            next_x N P A b X
            = Nat.iter (Z.to_nat (it + 1 - it)) (next_x N P A b) X).
  { intros X it. replace (it + 1 - it)%Z with 1%Z by lia. reflexivity. }
  induction f as [|f IH]; intros X it; cbn [iterate]; cbv zeta.
  - cbn [fst snd]. split; [lia |]. split; [apply Hone |].
    intros H. right. lia.
  - destruct (TOLERANCE <? global_err N P (next_x N P A b X) X) eqn:Hgt;
      destruct (Z.ltb_spec (it + 1) MAX_ITER) as [Hlt|Hge]; cbn [andb].
    + destruct (IH (next_x N P A b X) (it + 1)%Z) as (Hc & Hx & Hstop).
      split; [lia |]. split.
      * rewrite Hx.
        replace (Z.to_nat ((iterate N P A b f (next_x N P A b X) (it + 1)).1.2 - it))
          with (Z.to_nat ((iterate N P A b f (next_x N P A b X) (it + 1)).1.2
                          - (it + 1)) + 1)%nat by lia.
        now rewrite Nat.iter_add.
      * intros H. apply Hstop. lia.
    + cbn [fst snd]. split; [lia |]. split; [apply Hone |].
      intros H. right. lia.
    + cbn [fst snd]. split; [lia |]. split; [apply Hone |].
      intros _. left. exact Hgt.
    + cbn [fst snd]. split; [lia |]. split; [apply Hone |].
      intros _. left. exact Hgt.
Qed.

Lemma solve_count (N P : Z) (A b : list float) :
  (1 <= (solve N P A b).1.2 <= MAX_ITER)%Z
  /\ (solve N P A b).1.1
     = Nat.iter (Z.to_nat (solve N P A b).1.2) (next_x N P A b)
                (replicate (Z.to_nat N) 0)
  /\ ((TOLERANCE <? (solve N P A b).2) = false
      \/ (solve N P A b).1.2 = MAX_ITER).
Proof.
  pose proof (iterate_count N P A b (Z.to_nat (MAX_ITER - 1))
                (replicate (Z.to_nat N) 0) 0) as H.
  cbv zeta in H.
  change (iterate N P A b (Z.to_nat (MAX_ITER - 1))
                  (replicate (Z.to_nat N) 0) 0) with (solve N P A b) in H.
  destruct H as (Hc & Hx & Hstop).
  split; [unfold MAX_ITER in *; lia |]. split.
  - rewrite Hx at 1. f_equal. lia.
  - apply Hstop. reflexivity.
Qed.

Lemma job_results_lookup (N P : Z) (res : list float * Z * float) (r : Z) :
  (0 <= r < P)%Z ->
  job_results N P res !! Z.to_nat r = Some (0%Z, root_only r (report N P res)).
Proof.
  intros Hr. unfold job_results.
  rewrite list_lookup_fmap, lookup_seqZ_lt by lia. simpl.
  now rewrite Z2Nat.id by lia.
Qed.

(** ** Ranks without rows *)

Lemma no_rows_beyond_N (N P r : Z) :
  (1 <= N <= CInt.INT_MAX)%Z -> (1 <= P <= CInt.INT_MAX)%Z ->
  (N < P)%Z -> (N <= r < P)%Z ->
  local_rows N P r = 0%Z /\ start_row N P r = N.
Proof.
  intros HN HP HNP Hr.
  rewrite (local_rows_eq N P HN HP) by lia.
  rewrite (start_row_eq N P HN HP) by lia.
  rewrite Z.div_small, Z.mod_small by lia. unfold extra.
  destruct (Z.ltb_spec r N); lia.
Qed.

(** C7, as the code has it.  With more ranks than rows, a rank [r >= N]
    owns no row, and its buffers [A_local], [b_local] and [x_local] are
    requests of zero bytes.  On a run where these requests are granted (a
    well-formed run with [P > N] includes [malloc_ok e 0 = true]): in every
    round such a rank copies [x] to [x_old] (indices [0 .. N-1] of two
    vectors of length [N]), updates nothing ([x_local] keeps its empty
    contents), and then enters the gather with 0 elements, the broadcast,
    and the reduction with the contribution 0, before it makes the same
    test as every other rank: it never faults and skips no collective.  The
    job as a whole ends normally. *)
Theorem zero_row_worker (e : env) (N P : Z) (A_full b_full : list float) (r : Z) :
  valid_run e N P A_full b_full ->
  (N < P)%Z -> (N <= r < P)%Z ->
  local_rows N P r = 0%Z
  /\ (forall (f : nat) (m : rank_mem) (X : list float) (it : Z),
        (0 <= it < MAX_ITER)%Z -> Z.of_nat (length X) = N ->
        mem_ok N P A_full b_full r m X ->
        x_local m = []
        /\ jacobi_loop (S f) e N P r m it
           = PGatherv (x_local m) 0 X None (fun xg =>
             PBcast xg N (fun xb =>
             PAllreduce 0 (fun ge =>
               if (TOLERANCE <? ge) && (it + 1 <? MAX_ITER)%Z
               then jacobi_loop f e N P r (set_x (set_x_old m X) xb) (it + 1)%Z
               else PExit 0 None))))
  /\ run_job e P = Finished (job_results N P (solve N P A_full b_full)).
Proof.
  intros Hvalid HNP Hr.
  pose proof (valid_run_N _ _ _ _ _ Hvalid) as HN.
  pose proof (run_P _ _ _ _ _ Hvalid) as HP.
  destruct (no_rows_beyond_N N P r HN HP HNP Hr) as (Hrows & Hstart).
  split; [exact Hrows |]. split; [| now apply run_job_spec].
  intros f m X it Hit HX (HA & Hb & Hx & Hxo & Hxl).
  assert (Hnil : x_local m = []).
  { rewrite Hrows in Hxl. destruct (x_local m); [reflexivity | simpl in Hxl; lia]. }
  split; [exact Hnil |].
  cbn [jacobi_loop].
  rewrite copy_loop by (rewrite ?Hx; lia).
  rewrite Hrows.
  unfold gather_args, finish.
  replace (r =? 0)%Z with false by (symmetry; apply Z.eqb_neq; lia).
  rewrite (CInt.add_small it 1)
    by (unfold CInt.in_range, CInt.INT_MIN, CInt.INT_MAX, MAX_ITER in *; lia).
  unfold for_each. change (seqZ 0 (0 - 0)) with (@nil Z).
  cbn [foldl x x_local set_x_old]. rewrite Hx. reflexivity.
Qed.

Lemma zero_row_worker_witness :
  local_rows 1 3 2 = 0%Z
  /\ run_job (system_env 1 [2; 4]) 3
     = Finished (job_results 1 3 (solve 1 3 [2] [4])).
Proof.
  destruct (zero_row_worker (system_env 1 [2; 4]) 1 3 [2] [4] 2)
    as (Hrows & _ & Hrun).
  - apply (system_env_valid 1 3 [2] [4]); unfold CInt.INT_MAX; simpl; lia.
  - lia.
  - lia.
  - split; [exact Hrows | exact Hrun].
Defined.

(** C7 as stated fails where [malloc(0)] returns a null pointer: every
    request of at least one byte is granted and the file is complete, yet
    with 2 ranks on a 1x1 system rank 1, which owns no row, takes the null
    pointer of line 62 for a failed allocation and calls [die]; the job is
    aborted and that rank enters no collective after the broadcast of
    [N]. *)
Lemma zero_row_worker_needs_malloc0 :
  ~ (forall (e : env) (N P : Z) (A_full b_full : list float),
       (1 <= N)%Z -> (N * N <= CInt.INT_MAX)%Z ->
       (N < P <= CInt.INT_MAX)%Z ->
       Z.of_nat (length A_full) = (N * N)%Z ->
       Z.of_nat (length b_full) = N ->
       file e = Some (mk_file (Some N) (A_full ++ b_full)) ->
       (forall n, (0 < n)%Z -> malloc_ok e n = true) ->
       exists res, run_job e P = Finished res).
Proof.
  intros H.
  destruct (H (mk_env (Some (mk_file (Some 1%Z) [2; 4])) (fun n => (0 <? n)%Z))
              1%Z 2%Z [2] [4])
    as (res & Hrun);
    try reflexivity; try (unfold CInt.INT_MAX; lia).
  - intros n Hn. now apply Z.ltb_lt.
  - vm_compute in Hrun. discriminate Hrun.
Qed.

(** ** Exit statuses *)

Lemma load_nonpositive (e : env) (N : Z) (nums : list float) :
  file e = Some (mk_file (Some N) nums) -> (N <= 0)%Z ->
  load e = LoadDie AllocFailedRank0
  \/ exists A0 b0, load e = LoadOk N A0 b0.
Proof.
  intros Hf HN. unfold load. rewrite Hf. simpl.
  destruct (malloc_doubles e _) as [A0|]; [| now left].
  destruct (malloc_doubles e _) as [b0|]; [| now left].
  destruct (Z.leb_spec N 0); [| lia].
  replace (Z.to_nat N) with 0%nat by lia. simpl.
  right. now exists A0, b0.
Qed.

Lemma rank_main_loaded (e : env) (P N : Z) (A0 b0 : list float) (r : Z) :
  load e = LoadOk N A0 b0 ->
  rank_main e P r
  = PBcastInt (if (r =? 0)%Z then N else 0%Z)
      (after_bcast e P r (if (r =? 0)%Z then A0 else [])
                   (if (r =? 0)%Z then b0 else [])).
Proof.
  intros Hl. unfold rank_main. rewrite Hl. destruct (r =? 0)%Z; reflexivity.
Qed.

Lemma run_job_rank0_dies (e : env) (P : Z) (why : die_reason) :
  (1 <= P)%Z -> load e = LoadDie why -> run_job e P = Aborted 1 why.
Proof.
  intros HP Hl. unfold run_job. rewrite (seqZ_ranks P) by lia.
  rewrite fmap_cons. unfold rank_main at 1. simpl (0 =? 0)%Z. cbv iota.
  rewrite Hl. reflexivity.
Qed.

(** C8.  The exit status.  A well-formed run ends with status 0 on every
    rank, whether the loop was left because the error was not greater than
    the tolerance or because the counter reached the cap.  When the
    dimension read from the file is [<= 0], no rank exits with 0: either
    rank 0 already stopped the job through [MPI_Abort] with code 1 because
    an allocation of the loader failed, or every rank returns 1 after the
    broadcast of [N], rank 0 having printed the complaint.  A file that
    cannot be opened, or that does not start with a number, aborts the job
    with code 1 as well.  But a matrix with a zero or near-zero diagonal
    entry is no error for the program: such a run is a well-formed run like
    any other, and every rank returns 0 after rank 0 printed its report. *)
Theorem exit_status (e : env) (P : Z) :
  (1 <= P)%Z ->
  (forall N A_full b_full,
     valid_run e N P A_full b_full ->
     exists res,
       run_job e P = Finished (job_results N P res)
       /\ Forall (fun s => s.1 = 0%Z) (job_results N P res)
       /\ ((TOLERANCE <? res.2) = false \/ res.1.2 = MAX_ITER))
  /\ (forall N nums,
        file e = Some (mk_file (Some N) nums) -> (N <= 0)%Z ->
        run_job e P = Aborted 1 AllocFailedRank0
        \/ run_job e P
           = Finished ((fun r => (1%Z, root_only r (OutInvalidN N)))
                         <$> seqZ 0 P))
  /\ (file e = None -> run_job e P = Aborted 1 OpenFailed)
  /\ (forall nums, file e = Some (mk_file None nums) ->
        run_job e P = Aborted 1 ReadNFailed)
  /\ (forall N A_full b_full i,
        valid_run e N P A_full b_full ->
        near_zero_diagonal N A_full = Some i ->
        (0 <= i < N)%Z
        /\ (abs (get A_full (i * N + i)) <? DIAG_EPS) = true
        /\ exists res,
             run_job e P
             = Finished ((fun r => (0%Z, root_only r (report N P res)))
                           <$> seqZ 0 P)).
Proof.
  intros HP. split; [| split; [| split; [| split]]].
  - intros N A_full b_full Hvalid.
    exists (solve N P A_full b_full).
    split; [now apply run_job_spec |]. split.
    + unfold job_results. apply Forall_fmap, Forall_forall.
      intros r _. reflexivity.
    + apply (solve_count N P A_full b_full).
  - intros N nums Hf HN.
    destruct (load_nonpositive e N nums Hf HN) as [Hl | (A0 & b0 & Hl)].
    + left. now apply run_job_rank0_dies.
    + right. unfold run_job.
      rewrite (fmap_ext_in _ _ _ (fun r _ => rank_main_loaded e P N A0 b0 r Hl)).
      rewrite (seqZ_ranks P) by lia.
      change JOB_FUEL with (S (S (Z.to_nat (3 * MAX_ITER + 2)))).
      erewrite run_world_step; [| apply world_step_bcast_int].
      cbv beta. change (if (0 =? 0)%Z then N else 0%Z) with N.
      rewrite (fmap_ext_in _ (fun r => PExit 1 (root_only r (OutInvalidN N)))).
      * erewrite run_world_done; [| apply world_step_exit]. reflexivity.
      * intros r _. unfold after_bcast.
        destruct (Z.leb_spec N 0); [reflexivity | lia].
  - intros Hf. apply run_job_rank0_dies; [exact HP |].
    unfold load. now rewrite Hf.
  - intros nums Hf. apply run_job_rank0_dies; [exact HP |].
    unfold load. now rewrite Hf.
  - intros N A_full b_full i Hvalid Hz.
    unfold near_zero_diagonal in Hz.
    apply List.find_some in Hz as (Hin & Hsmall).
    apply list_elem_of_In, elem_of_seqZ in Hin.
    split; [lia |]. split; [exact Hsmall |].
    exists (solve N P A_full b_full). now apply run_job_spec.
Qed.

Lemma exit_status_witness :
  run_job (system_env 0 []) 2
  = Finished [(1%Z, Some (OutInvalidN 0)); (1%Z, None)]
  /\ run_job (mk_env (Some (mk_file (Some (-3)%Z) []))
                     (fun n => (n <? 1099511627776)%Z)) 2
     = Aborted 1 AllocFailedRank0
  /\ (abs (get [0] (0 * 1 + 0)) <? DIAG_EPS) = true
  /\ exists res,
       run_job (system_env 1 [0; 1]) 1
       = Finished ((fun r => (0%Z, root_only r (report 1 1 res)))
                     <$> seqZ 0 1).
Proof.
  destruct (exit_status (system_env 0 []) 2 ltac:(lia)) as (_ & H0 & _).
  destruct (exit_status (mk_env (Some (mk_file (Some (-3)%Z) []))
                                (fun n => (n <? 1099511627776)%Z)) 2
              ltac:(lia)) as (_ & H3 & _).
  destruct (exit_status (system_env 1 [0; 1]) 1 ltac:(lia))
    as (_ & _ & _ & _ & Hz).
  split; [| split].
  - destruct (H0 0%Z [] eq_refl ltac:(lia)) as [H | H];
      [vm_compute in H; discriminate H | exact H].
  - destruct (H3 (-3)%Z [] eq_refl ltac:(lia)) as [H | H];
      [exact H | vm_compute in H; discriminate H].
  - destruct (Hz 1%Z [0] [1] 0%Z) as (_ & Hsmall & Hrun).
    + apply (system_env_valid 1 1 [0] [1]); unfold CInt.INT_MAX; simpl; lia.
    + reflexivity.
    + split; [exact Hsmall | exact Hrun].
Defined.

(** ** Precomputed gather tables give the same job *)

Lemma gather_args_after_scatter_args (e : env) (N size rank : Z)
    (tbl : option scatter_tbl) :
  scatter_args e N size rank = Some tbl ->
  exists gargs, gather_args e N size rank = Some gargs.
Proof.
  unfold scatter_args, gather_args.
  destruct (rank =? 0)%Z; [| intros _; eauto].
  destruct (malloc_ok e (SizeT.mul (SizeT.of_int size) 4)); simpl;
    [intros _; eauto | discriminate].
Qed.

Lemma jacobi_loop_precomputed_eq (fuel : nat) :
  forall (e : env) (N size rank : Z) (gargs : option (list Z * list Z))
         (m : rank_mem) (it : Z),
    gather_args e N size rank = Some gargs ->
    jacobi_loop_precomputed fuel e N size rank gargs m it
    = jacobi_loop fuel e N size rank m it.
Proof.
  induction fuel as [|fuel IH]; intros e N size rank gargs m it Hg;
    [reflexivity |].
  cbn [jacobi_loop_precomputed jacobi_loop]. rewrite Hg.
  destruct (for_each 0 N copy_body m) as [m1|]; [| reflexivity].
  destruct (for_each 0 (local_rows N size rank) _ m1) as [m2|]; [| reflexivity].
  f_equal. extensionality xg. f_equal. extensionality xb.
  destruct (for_each 0 (local_rows N size rank) _ 0) as [le|]; [| reflexivity].
  f_equal. extensionality ge.
  destruct ((TOLERANCE <? ge) && (CInt.add it 1 <? MAX_ITER)%Z);
    [now apply IH | reflexivity].
Qed.

Lemma start_iterating_precomputed_eq (e : env) (N size rank : Z)
    (tbl : option scatter_tbl) (A_loc b_loc : list float) :
  scatter_args e N size rank = Some tbl ->
  start_iterating_precomputed e N size rank A_loc b_loc
  = start_iterating e N size rank A_loc b_loc.
Proof.
  intros Hs.
  destruct (gather_args_after_scatter_args e N size rank tbl Hs) as (g & Hg).
  unfold start_iterating_precomputed, start_iterating.
  destruct (malloc_doubles e _) as [x0|]; [| reflexivity].
  destruct (malloc_doubles e _) as [xl0|]; [| reflexivity].
  destruct (for_each 0 N zero_body x0) as [x1|]; [| reflexivity].
  rewrite Hg. now apply jacobi_loop_precomputed_eq.
Qed.

Lemma rank_main_precomputed_eq (e : env) (size rank : Z) :
  rank_main_precomputed e size rank = rank_main e size rank.
Proof.
  assert (H : forall A b, after_bcast_precomputed e size rank A b
                          = after_bcast e size rank A b).
  { intros A b. extensionality N.
    unfold after_bcast_precomputed, after_bcast.
    destruct (N <=? 0)%Z; [reflexivity |].
    destruct (malloc_doubles e _) as [A0|]; [| reflexivity].
    destruct (malloc_doubles e _) as [b0|]; [| reflexivity].
    destruct (scatter_args e N size rank) as [tbl|] eqn:Hs; [| reflexivity].
    f_equal. extensionality A_loc. f_equal. extensionality b_loc.
    now apply (start_iterating_precomputed_eq e N size rank tbl). }
  unfold rank_main_precomputed, rank_main.
  destruct (rank =? 0)%Z; [| now rewrite H].
  destruct (load e); try reflexivity. now rewrite H.
Qed.

(** C9.  The tables of the gather.  What rank 0 rebuilds in a round depends
    on [N] and the number of ranks alone: the counts are the row counts of
    the ranks and the displacements their running sums, the very arrays the
    scatter of [b] was given, and every round of rank 0 passes them to the
    gather.  The program that fills the two arrays once, before the loop,
    behaves as the source does on every input: same solution vector, same
    iteration count, same final error, same exit statuses. *)
Theorem gather_tables_precomputable (e : env) (N P : Z)
    (A_full b_full : list float) :
  valid_run e N P A_full b_full ->
  let t := gather_arrays (base N P) (rem N P) P in
  rcounts t = sendcounts_b (scatter_arrays N P)
  /\ rdispls t = displsb (scatter_arrays N P)
  /\ rcounts t = local_rows N P <$> seqZ 0 P
  /\ (forall k : nat, (Z.of_nat k < P)%Z ->
        rdispls t !! k
        = Some (foldr Z.add 0%Z (local_rows N P <$> seqZ 0 (Z.of_nat k))))
  /\ (forall (f : nat) (m : rank_mem) (X : list float) (it : Z),
        Z.of_nat (length X) = N -> mem_ok N P A_full b_full 0 m X ->
        exists sb k,
          jacobi_loop (S f) e N P 0 m it
          = PGatherv sb (local_rows N P 0) X (Some (rcounts t, rdispls t)) k)
  /\ (forall e' size, run_job_precomputed e' size = run_job e' size)
  /\ run_job_precomputed e P
     = Finished (job_results N P (solve N P A_full b_full)).
Proof.
  intros Hvalid t.
  pose proof (valid_run_N _ _ _ _ _ Hvalid) as HN.
  pose proof (run_P _ _ _ _ _ Hvalid) as HP.
  assert (Ht : t = mk_gather_tbl (local_rows N P <$> seqZ 0 P)
                                 (start_row N P <$> seqZ 0 P) N)
    by apply (gather_arrays_eq N P HN HP).
  assert (Hall : forall e' size,
            run_job_precomputed e' size = run_job e' size).
  { intros e' size. unfold run_job_precomputed, run_job. f_equal.
    apply fmap_ext_in. intros r _. apply rank_main_precomputed_eq. }
  rewrite Ht. cbn [rcounts rdispls].
  split; [now rewrite (sendcounts_b_eq N P HN HP) |].
  split; [now rewrite (displsb_eq N P HN HP) |].
  split; [reflexivity |]. split; [| split; [| split]].
  - intros k Hk. rewrite list_lookup_fmap, lookup_seqZ_lt by lia. simpl.
    now rewrite (sizes_prefix_sum N P HN HP k) by lia.
  - intros f m X it HX Hmem.
    rewrite (round_head e N P A_full b_full Hvalid f 0 m X it) by (auto; lia).
    eauto.
  - exact Hall.
  - rewrite Hall. now apply run_job_spec.
Qed.

Lemma gather_tables_precomputable_witness :
  run_job_precomputed (system_env 2 [4; 1; 1; 3; 1; 2]) 2
  = Finished (job_results 2 2 (solve 2 2 [4; 1; 1; 3] [1; 2])).
Proof.
  refine (proj2 (proj2 (proj2 (proj2 (proj2 (proj2
    (gather_tables_precomputable (system_env 2 [4; 1; 1; 3; 1; 2]) 2 2
       [4; 1; 1; 3] [1; 2] _))))))).
  apply (system_env_valid 2 2 [4; 1; 1; 3] [1; 2]);
    unfold CInt.INT_MAX; simpl; lia.
Defined.

(** ** At least one round *)

(** C10.  The test of the loop comes after the first round.  On every
    well-formed run the reported count is at least 1, and what the run
    reports when the first round already meets the tolerance is the vector
    of that round with the count 1, not the initial guess with the count 0.
    The homogeneous 3x3 system (right-hand side all zero), whose solution is
    the initial guess itself, is reported after 1 iteration. *)
Theorem at_least_one_round (e : env) (N P : Z) (A_full b_full : list float) :
  valid_run e N P A_full b_full ->
  let x0 := replicate (Z.to_nat N) 0 in
  let x1 := next_x N P A_full b_full x0 in
  let e1 := global_err N P x1 x0 in
  (exists xs it err,
     run_job e P = Finished (job_results N P (xs, it, err))
     /\ (1 <= it)%Z
     /\ ((TOLERANCE <? e1) = false -> (xs, it, err) = (x1, 1%Z, e1)))
  /\ run_job (system_env 3 [4; 1; 2; 3; 5; 1; 1; 1; 3; 0; 0; 0]) 2
     = Finished [(0%Z, Some (OutReport 3 2 3 [0; 0; 0] 1 0)); (0%Z, None)].
Proof.
  intros Hvalid x0 x1 e1. split; [| vm_compute; reflexivity].
  destruct (solve N P A_full b_full) as [[xs it] err] eqn:Hs.
  exists xs, it, err.
  split; [rewrite <- Hs; now apply run_job_spec |].
  pose proof (solve_count N P A_full b_full) as (Hc & _).
  rewrite Hs in Hc. cbn [fst snd] in Hc.
  split; [lia |].
  intros Hsmall. rewrite <- Hs.
  destruct (solve_unfold N P A_full b_full) as (fuel & ->).
  rewrite iterate_S. fold x0. fold x1. fold e1. rewrite Hsmall. reflexivity.
Qed.

Lemma at_least_one_round_witness :
  exists xs it err,
    run_job (system_env 1 [2; 4]) 1 = Finished (job_results 1 1 (xs, it, err))
    /\ (1 <= it)%Z.
Proof.
  destruct (at_least_one_round (system_env 1 [2; 4]) 1 1 [2] [4])
    as ((xs & it & err & Hrun & Hit & _) & _).
  - apply (system_env_valid 1 1 [2] [4]); unfold CInt.INT_MAX; simpl; lia.
  - exists xs, it, err. split; [exact Hrun | exact Hit].
Defined.

(** ** The job ends on every input

    [within n p]: process [p] cannot reach [PFuel], and enters at most [n]
    collectives before it exits, aborts or faults. *)

Inductive within : nat -> proc -> Prop :=
| within_exit n s o : within n (PExit s o)
| within_abort n c w : within n (PAbort c w)
| within_fault n : within n PFault
| within_bcast_int n v k :
    (forall z, within n (k z)) -> within (S n) (PBcastInt v k)
| within_scatterv n sb a rb rc k :
    (forall v, within n (k v)) -> within (S n) (PScatterv sb a rb rc k)
| within_gatherv n sb sc rb a k :
    (forall v, within n (k v)) -> within (S n) (PGatherv sb sc rb a k)
| within_bcast n b c k :
    (forall v, within n (k v)) -> within (S n) (PBcast b c k)
| within_allreduce n v k :
    (forall z, within n (k z)) -> within (S n) (PAllreduce v k).

Lemma within_S (n : nat) (p : proc) : within n p -> within (S n) p.
Proof. induction 1; constructor; auto. Qed.

Lemma within_le (n m : nat) (p : proc) :
  (n <= m)%nat -> within n p -> within m p.
Proof. induction 1; auto using within_S. Qed.

Lemma finish_within (n : nat) N size rank m it ge :
  within n (finish N size rank m it ge).
Proof.
  unfold finish. destruct (rank =? 0)%Z; [| constructor].
  destruct (mapM _ _); constructor.
Qed.

Lemma jacobi_loop_within (f : nat) :
  forall e N size rank m it,
    (0 <= it)%Z -> (it + Z.of_nat f)%Z = MAX_ITER -> (1 <= f)%nat ->
    within (3 * f) (jacobi_loop f e N size rank m it).
Proof.
  induction f as [|f IH]; intros e N size rank m it Hit Hsum Hf; [lia |].
  replace (3 * S f)%nat with (S (S (S (3 * f)))) by lia.
  cbn [jacobi_loop].
  destruct (for_each 0 N copy_body m) as [m1|]; [| constructor].
  destruct (for_each 0 (local_rows N size rank) _ m1) as [m2|]; [| constructor].
  destruct (gather_args e N size rank) as [g|]; [| constructor].
  constructor. intros xg. constructor. intros xb.
  destruct (for_each 0 (local_rows N size rank) _ 0) as [le|];
    [| constructor].
  constructor. intros ge.
  rewrite CInt.add_small
    by (unfold CInt.in_range, CInt.INT_MIN, CInt.INT_MAX, MAX_ITER in *; lia).
  destruct (TOLERANCE <? ge); cbn [andb]; [| apply finish_within].
  destruct (Z.ltb_spec (it + 1) MAX_ITER); [| apply finish_within].
  apply IH; lia.
Qed.

Lemma rank_main_within (e : env) (size rank : Z) :
  within 3003 (rank_main e size rank).
Proof.
  assert (H : forall A b N, within 3002 (after_bcast e size rank A b N)).
  { intros A b N. unfold after_bcast.
    destruct (N <=? 0)%Z; [constructor |].
    destruct (malloc_doubles e _); [| constructor].
    destruct (malloc_doubles e _); [| constructor].
    destruct (scatter_args e N size rank); [| constructor].
    constructor. intros A_loc. constructor. intros b_loc.
    unfold start_iterating.
    destruct (malloc_doubles e _); [| constructor].
    destruct (malloc_doubles e _); [| constructor].
    destruct (for_each 0 N zero_body _); [| constructor].
    apply (jacobi_loop_within 1000); [lia | reflexivity | lia]. }
  unfold rank_main. destruct (rank =? 0)%Z.
  - destruct (load e); constructor. intros n. apply H.
  - constructor. intros n. apply H.
Qed.

Lemma within_no_fuel (n : nat) (ps : list proc) :
  Forall (within n) ps -> existsb is_fuel ps = false.
Proof.
  induction 1 as [|p ps Hp _ IH]; [reflexivity |].
  simpl. rewrite IH. destruct Hp; reflexivity.
Qed.

Lemma scatter_all_within (n : nat) (sb : list float) :
  forall (rs : list (list float * Z * (list float -> proc)))
         (counts displs : list Z) (ps' : list proc),
    Forall (fun a => forall v, within n (a.2 v)) rs ->
    scatter_all sb counts displs rs = Some ps' ->
    Forall (within n) ps'.
Proof.
  induction rs as [|[[rb rc] k] rs IH]; intros counts displs ps' Hrs Hs.
  - destruct counts, displs; simpl in Hs; try discriminate.
    injection Hs as <-. constructor.
  - destruct counts as [|c cs], displs as [|d ds]; simpl in Hs;
      try discriminate.
    destruct (scatter_one sb c d rb rc) as [v|]; [| discriminate].
    destruct (scatter_all sb cs ds rs) as [ps|] eqn:Hrest; [| discriminate].
    injection Hs as <-. inversion Hrs as [|? ? Hk Hrs']; subst.
    constructor; [apply Hk | now apply (IH cs ds)].
Qed.

Lemma mapM_within {A : Type} (n : nat) (g : proc -> option A)
    (cont : A -> Prop) (ps : list proc) (l : list A) :
  (forall p a, within (S n) p -> g p = Some a -> cont a) ->
  Forall (within (S n)) ps -> mapM g ps = Some l -> Forall cont l.
Proof.
  intros Hg Hps Hm. apply mapM_Some_1 in Hm.
  induction Hm as [|p a ps l Hpa _ IH]; [constructor |].
  inversion Hps; subst. constructor; eauto.
Qed.

Lemma run_world_within (n : nat) :
  forall (ps : list proc) (fuel : nat),
    Forall (within n) ps -> (n < fuel)%nat -> run_world fuel ps <> OutOfFuel.
Proof.
  induction n as [|n IH]; intros ps fuel Hps Hfuel;
    (destruct fuel as [|fuel]; [lia |]); cbn [run_world]; unfold world_step;
    destruct (first_abort ps) as [[c w]|]; try discriminate;
    destruct (existsb is_fault ps); try discriminate;
    rewrite (within_no_fuel _ ps Hps);
    (destruct ps as [|p ps]; [discriminate |]).
  - (* no collective left: the head has ended *)
    inversion Hps as [|? ? Hp _]; subst.
    inversion Hp; subst; try discriminate.
    destruct (mapM as_exit _); discriminate.
  - inversion Hps as [|? ? Hp Hrest]; subst.
    inversion Hp as [ | | | ? ? ? Hk | ? ? ? ? ? ? Hk | ? ? ? ? ? ? Hk
                     | ? ? ? ? Hk | ? ? ? Hk ]; subst; try discriminate.
    + destruct (mapM as_exit _); discriminate.
    + (* MPI_Bcast of an int *)
      destruct (mapM as_bcast_int _) as [l|] eqn:Hm; [| discriminate].
      apply IH; [| lia]. apply Forall_fmap.
      apply (mapM_within n as_bcast_int (fun a => forall z, within n (a.2 z))
               _ l) in Hm; [| | exact Hps].
      * eapply Forall_impl; [exact Hm |]. intros a Ha. apply Ha.
      * intros q a Hq Hqa. destruct q; try discriminate.
        injection Hqa as <-. inversion Hq; subst. assumption.
    + (* MPI_Scatterv *)
      destruct a as [[counts displs]|]; [| discriminate].
      destruct (mapM as_scatterv _) as [l|] eqn:Hm; [| discriminate].
      destruct (scatter_all sb counts displs (snd <$> l)) as [ps'|] eqn:Hs;
        [| discriminate].
      apply IH; [| lia].
      apply (scatter_all_within n sb _ _ _ ps') in Hs; [exact Hs |].
      apply Forall_fmap.
      apply (mapM_within n as_scatterv
               (fun a => forall v, within n (a.2.2 v)) _ l) in Hm;
        [| | exact Hps].
      * eapply Forall_impl; [exact Hm |]. intros x0 Hx0. exact Hx0.
      * intros q x0 Hq Hqa. destruct q; try discriminate.
        injection Hqa as <-. inversion Hq; subst. assumption.
    + (* MPI_Gatherv *)
      destruct a as [[counts displs]|]; [| discriminate].
      destruct (mapM as_gatherv (PGatherv _ _ _ _ _ :: ps)) as [l|];
        [| discriminate].
      destruct (mapM as_gatherv ps) as [lrest|] eqn:Hm; [| discriminate].
      destruct (gather_all rb counts displs _) as [rb'|]; [| discriminate].
      apply IH; [| lia]. constructor; [apply Hk |].
      apply Forall_fmap.
      apply (mapM_within n as_gatherv
               (fun a => forall v, within n (a.2 v)) _ lrest) in Hm;
        [| | exact Hrest].
      * eapply Forall_impl; [exact Hm |]. intros x0 Hx0. apply Hx0.
      * intros q x0 Hq Hqa. destruct q; try discriminate.
        injection Hqa as <-. inversion Hq; subst. assumption.
    + (* MPI_Bcast of the vector *)
      destruct (mapM as_bcast _) as [l|] eqn:Hm; [| discriminate].
      destruct (mapM _ l) as [ps'|] eqn:Hb; [| discriminate].
      apply IH; [| lia].
      apply (mapM_within n as_bcast
               (fun a => forall v, within n (a.2 v)) _ l) in Hm;
        [| | exact Hps].
      * apply mapM_Some_1 in Hb. clear -Hm Hb.
        induction Hb as [|x0 q l ps' Hq _ IHl]; [constructor |].
        inversion Hm; subst. constructor; [| now apply IHl].
        destruct (bcast_one b c x0.1.1 x0.1.2); [| discriminate].
        simpl in Hq. injection Hq as <-. auto.
      * intros q x0 Hq Hqa. destruct q; try discriminate.
        injection Hqa as <-. inversion Hq; subst. assumption.
    + (* MPI_Allreduce *)
      destruct (mapM as_allreduce _) as [l|] eqn:Hm; [| discriminate].
      apply IH; [| lia]. apply Forall_fmap.
      apply (mapM_within n as_allreduce
               (fun a => forall z, within n (a.2 z)) _ l) in Hm;
        [| | exact Hps].
      * eapply Forall_impl; [exact Hm |]. intros x0 Hx0. apply Hx0.
      * intros q x0 Hq Hqa. destruct q; try discriminate.
        injection Hqa as <-. inversion Hq; subst. assumption.
Qed.

Theorem run_job_total (e : env) (size : Z) : run_job e size <> OutOfFuel.
Proof.
  unfold run_job. apply (run_world_within 3003).
  - apply Forall_fmap, Forall_forall. intros r _. apply rank_main_within.
  - vm_compute. lia.
Qed.

(** ** Termination *)

(** C6.  The loop terminates.  On every input the job comes to an end
    within the steps that [MAX_ITER] rounds take: no rank is left in the
    loop.  On every well-formed run the counter that is reported
    is the number of rounds that were run (the final vector is the initial
    zero vector updated that many times), it lies between 1 and the cap
    1000, and the loop was left either because the error was not greater
    than the tolerance or because the counter had reached the cap; in both
    cases every rank exits with status 0 and rank 0 prints the counter
    together with the last error. *)
Theorem loop_terminates (e : env) (P : Z) :
  run_job e P <> OutOfFuel
  /\ forall (N : Z) (A_full b_full : list float),
  valid_run e N P A_full b_full ->
  exists (xs : list float) (it : Z) (err : float),
    run_job e P = Finished (job_results N P (xs, it, err))
    /\ (1 <= it <= MAX_ITER)%Z /\ MAX_ITER = 1000%Z
    /\ xs = Nat.iter (Z.to_nat it) (next_x N P A_full b_full)
                     (replicate (Z.to_nat N) 0)
    /\ ((TOLERANCE <? err) = false \/ it = MAX_ITER)
    /\ forall r, (0 <= r < P)%Z ->
         job_results N P (xs, it, err) !! Z.to_nat r
         = Some (0%Z,
                 if (r =? 0)%Z
                 then Some (OutReport N P (print_size N)
                              (take (Z.to_nat (print_size N)) xs) it err)
                 else None).
Proof.
  split; [apply run_job_total |]. intros N A_full b_full Hvalid.
  destruct (solve N P A_full b_full) as [[xs it] err] eqn:Hs.
  exists xs, it, err.
  pose proof (solve_count N P A_full b_full) as Hc.
  rewrite Hs in Hc. cbn [fst snd] in Hc. destruct Hc as (Hc & Hx & Hstop).
  split; [rewrite <- Hs; now apply run_job_spec |].
  split; [exact Hc |].
  split; [reflexivity |].
  split; [exact Hx |].
  split; [exact Hstop |].
  intros r Hr. apply job_results_lookup. exact Hr.
Qed.

Lemma loop_terminates_witness :
  exists (xs : list float) (it : Z) (err : float),
    run_job (system_env 2 [1; 2; 2; 1; 1; 1]) 2
    = Finished (job_results 2 2 (xs, it, err))
    /\ (1 <= it <= MAX_ITER)%Z.
Proof.
  destruct (proj2 (loop_terminates (system_env 2 [1; 2; 2; 1; 1; 1]) 2) 2%Z
              [1; 2; 2; 1] [1; 1]) as (xs & it & err & Hrun & Hit & _).
  - apply (system_env_valid 2 2 [1; 2; 2; 1] [1; 1]);
      unfold CInt.INT_MAX; simpl; lia.
  - exists xs, it, err. split; [exact Hrun | exact Hit].
Defined.

(** The cap is reached on the system [x + 2y = 1], [2x + y = 1], whose
    iterates grow without bound; the job still ends with status 0. *)
Example cap_reached :
  exists xs err,
    run_job (system_env 2 [1; 2; 2; 1; 1; 1]) 2
    = Finished [(0%Z, Some (OutReport 2 2 2 xs 1000 err)); (0%Z, None)]
    /\ (TOLERANCE <? err) = true.
Proof. eexists _, _. split; vm_compute; reflexivity. Qed.

(** * Further properties of the programs of the repository *)

(** ** The scatter, and the update over the whole matrix *)

Lemma get_slice (l : list float) (off cnt i : Z) :
  (0 <= off)%Z -> (0 <= i < cnt)%Z ->
  get (slice l off cnt) i = get l (off + i).
Proof.
  intros Hoff Hi. unfold get, rd, slice.
  destruct (Z.ltb_spec i 0); [lia |].
  destruct (Z.ltb_spec (off + i) 0); [lia |].
  rewrite lookup_take_lt by lia. rewrite lookup_drop.
  now rewrite Z2Nat.inj_add by lia.
Qed.

Lemma foldl_ext_in {A B : Type} (f g : A -> B -> A) (l : list B) (a : A) :
  (forall s y, y ∈ l -> f s y = g s y) -> foldl f a l = foldl g a l.
Proof.
  revert a. induction l as [|y l IH]; intros a H; [reflexivity |].
  simpl. rewrite (H a y) by left. apply IH. intros s z Hz. apply H. now right.
Qed.

Lemma concat_fmap_fmap {A B C : Type} (f : B -> C) (g : A -> list B)
    (l : list A) :
  concat ((fun a => f <$> g a) <$> l) = f <$> concat (g <$> l).
Proof.
  induction l as [|a l IH]; [reflexivity |].
  rewrite !fmap_cons. simpl concat. now rewrite fmap_app, IH.
Qed.

Lemma concat_slices (N P w : Z) (l : list float) (k : nat) :
  (1 <= N <= CInt.INT_MAX)%Z -> (1 <= P <= CInt.INT_MAX)%Z -> (0 <= w)%Z ->
  (Z.of_nat k <= P)%Z ->
  concat ((fun r => slice l (start_row N P r * w) (local_rows N P r * w))
            <$> seqZ 0 (Z.of_nat k))
  = take (Z.to_nat (start_row N P (Z.of_nat k) * w)) l.
Proof.
  intros HN HP Hw. induction k as [|k IH]; intros Hk.
  - change (Z.of_nat 0) with 0%Z. rewrite (start_row_0 N P HN HP). reflexivity.
  - rewrite seqZ_S, fmap_app, concat_app, IH by lia. simpl.
    rewrite app_nil_r, Z.add_0_l, Nat2Z.inj_succ. unfold Z.succ.
    rewrite (start_row_succ N P HN HP) by lia.
    pose proof (start_row_bounds N P HN HP (Z.of_nat k) ltac:(lia)).
    pose proof (local_rows_nonneg N P HN HP (Z.of_nat k) ltac:(lia)).
    unfold slice. rewrite take_take_drop. f_equal. nia.
Qed.

(** One sweep of the Jacobi method over the full matrix, as a sequential
    program computes it: row [i] reads row [i] of [A]. *)
Definition full_row (N : Z) (A b xo : list float) (i : Z) : float :=
  (get b i - offdiag_sum N i i A xo) / get A (i * N + i).

Definition full_sweep (N : Z) (A b xo : list float) : list float :=
  full_row N A b xo <$> seqZ 0 N.

Lemma row_value_block (N P : Z) (A b X : list float) (r li : Z) :
  (1 <= N <= CInt.INT_MAX)%Z -> (1 <= P <= CInt.INT_MAX)%Z ->
  (0 <= r < P)%Z -> (0 <= li < local_rows N P r)%Z ->
  row_value N (start_row N P r) (A_block N P A r) (b_block N P b r) X li
  = full_row N A b X (start_row N P r + li).
Proof.
  intros HN HP Hr Hli.
  pose proof (start_row_bounds N P HN HP r ltac:(lia)) as Hs.
  pose proof (start_row_bounds N P HN HP (r + 1) ltac:(lia)) as Hs1.
  rewrite (start_row_succ N P HN HP r Hr) in Hs1.
  unfold row_value, full_row, A_block, b_block.
  set (s := start_row N P r) in *. set (n := local_rows N P r) in *.
  rewrite (get_slice b s n li) by lia.
  rewrite (get_slice A (s * N) (n * N)) by nia.
  replace (s * N + (li * N + (s + li)))%Z with ((s + li) * N + (s + li))%Z
    by lia.
  do 2 f_equal. unfold offdiag_sum. apply foldl_ext_in.
  intros acc j Hj. apply list_elem_of_filter in Hj as (_ & Hj).
  apply elem_of_seqZ in Hj.
  rewrite (get_slice A (s * N) (n * N)) by nia.
  do 3 f_equal. lia.
Qed.

Lemma next_x_full_sweep (N P : Z) (A b X : list float) :
  (1 <= N <= CInt.INT_MAX)%Z -> (1 <= P <= CInt.INT_MAX)%Z ->
  next_x N P A b X = full_sweep N A b X.
Proof.
  intros HN HP. unfold next_x, full_sweep.
  rewrite <- (ranges_concat N P HN HP), <- concat_fmap_fmap. f_equal.
  apply fmap_ext_in. intros r Hr. apply elem_of_seqZ in Hr.
  unfold rank_update.
  rewrite <- (Z.add_0_r (start_row N P r)) at 2.
  rewrite <- fmap_add_seqZ, <- list_fmap_compose.
  apply fmap_ext_in. intros li Hli. apply elem_of_seqZ in Hli.
  apply row_value_block; auto; lia.
Qed.

Lemma iter_ext {A : Type} (f g : A -> A) (n : nat) (a : A) :
  (forall y, f y = g y) -> Nat.iter n f a = Nat.iter n g a.
Proof. intros H. induction n as [|n IH]; simpl; [reflexivity |]. now rewrite IH, H. Qed.

(** X1.  The scatter of lines 75-92 is a partition of the input.  On a
    well-formed run, with the counts and displacements that the loop of
    rank 0 computed, [MPI_Scatterv] succeeds on every rank: rank [r], whose
    receive buffer has room for its [local_rows * N] (resp. [local_rows])
    doubles, continues with its block of rows of [A] (resp. of [b]).  The
    blocks of the ranks, put one after the other in rank order, are the
    matrix and the right-hand side that rank 0 loaded: nothing is lost,
    sent twice or reordered. *)
Theorem scatter_round_trip (e : env) (N P : Z) (A b : list float)
    (kA kb : Z -> list float -> proc) :
  valid_run e N P A b ->
  let t := scatter_arrays N P in
  scatter_all A (sendcounts t) (displsA t)
    ((fun r => (replicate (Z.to_nat (local_rows N P r * N)) uninit,
                CInt.mul (local_rows N P r) N, kA r)) <$> seqZ 0 P)
  = Some ((fun r => kA r (A_block N P A r)) <$> seqZ 0 P)
  /\ scatter_all b (sendcounts_b t) (displsb t)
       ((fun r => (replicate (Z.to_nat (local_rows N P r)) uninit,
                   local_rows N P r, kb r)) <$> seqZ 0 P)
     = Some ((fun r => kb r (b_block N P b r)) <$> seqZ 0 P)
  /\ concat (A_block N P A <$> seqZ 0 P) = A
  /\ concat (b_block N P b <$> seqZ 0 P) = b.
Proof.
  intros Hv t. unfold t.
  pose proof (run_N _ _ _ _ _ Hv) as HN. pose proof (run_P _ _ _ _ _ Hv) as HP.
  pose proof (run_len_A _ _ _ _ _ Hv) as HA.
  pose proof (run_len_b _ _ _ _ _ Hv) as Hb.
  rewrite (sendcounts_eq N P HN HP), (displsA_eq N P HN HP),
          (sendcounts_b_eq N P HN HP), (displsb_eq N P HN HP).
  split; [| split; [| split]].
  - apply (scatter_all_fmap A (fun r => CInt.mul (local_rows N P r) N)
             (fun r => CInt.wrap (start_row N P r * N))
             (fun r => replicate (Z.to_nat (local_rows N P r * N)) uninit)
             (fun r => CInt.mul (local_rows N P r) N) kA (A_block N P A)).
    intros r Hr. apply elem_of_seqZ in Hr.
    apply (scatter_A_one e N P A b Hv). lia.
  - apply (scatter_all_fmap b (local_rows N P) (start_row N P)
             (fun r => replicate (Z.to_nat (local_rows N P r)) uninit)
             (local_rows N P) kb (b_block N P b)).
    intros r Hr. apply elem_of_seqZ in Hr.
    apply (scatter_b_one e N P A b Hv). lia.
  - pose proof (concat_slices N P N A (Z.to_nat P) HN HP ltac:(lia)
                  ltac:(lia)) as H.
    rewrite Z2Nat.id, (start_row_P N P HN HP) in H by lia.
    unfold A_block. etransitivity; [exact H |].
    apply take_ge. nia.
  - pose proof (concat_slices N P 1 b (Z.to_nat P) HN HP ltac:(lia)
                  ltac:(lia)) as H.
    rewrite Z2Nat.id, (start_row_P N P HN HP) in H by lia.
    unfold b_block. etransitivity; [| apply (take_ge b (Z.to_nat (N * 1))); lia].
    rewrite <- H. f_equal. apply fmap_ext_in. intros r _.
    now rewrite !Z.mul_1_r.
Qed.

Lemma scatter_round_trip_witness :
  concat (A_block 3 2 [4; 1; 2; 3; 5; 1; 1; 1; 3] <$> seqZ 0 2)
  = [4; 1; 2; 3; 5; 1; 1; 1; 3]
  /\ concat (b_block 3 2 [7; 8; 9] <$> seqZ 0 2) = [7; 8; 9].
Proof.
  destruct (scatter_round_trip
              (system_env 3 ([4; 1; 2; 3; 5; 1; 1; 1; 3] ++ [7; 8; 9])) 3 2
              [4; 1; 2; 3; 5; 1; 1; 1; 3] [7; 8; 9]
              (fun _ _ => PFault) (fun _ _ => PFault))
    as (_ & _ & HA & Hb).
  - apply (system_env_valid 3 2 [4; 1; 2; 3; 5; 1; 1; 1; 3] [7; 8; 9]);
      unfold CInt.INT_MAX; simpl; lia.
  - split; [exact HA | exact Hb].
Defined.

(** X2.  The ranks together do what one sequential sweep does.  On a
    well-formed run with any number [P] of ranks, the vector that the
    gather and the broadcast of a round put into [x] is the Jacobi sweep of
    the full matrix applied to [x_old], and the job reports the vector that
    [it] sequential sweeps make of the all-zero guess, [it] being the
    reported count, between 1 and [MAX_ITER].  The way the rows are cut
    among the ranks changes no entry of any iterate. *)
Theorem gathered_iterate_is_sequential (e : env) (N P : Z)
    (A b : list float) :
  valid_run e N P A b ->
  (forall xo, next_x N P A b xo = full_sweep N A b xo)
  /\ exists it err,
       run_job e P
       = Finished (job_results N P
                     (Nat.iter (Z.to_nat it) (full_sweep N A b)
                               (replicate (Z.to_nat N) 0), it, err))
       /\ (1 <= it <= MAX_ITER)%Z.
Proof.
  intros Hv.
  pose proof (run_N _ _ _ _ _ Hv) as HN. pose proof (run_P _ _ _ _ _ Hv) as HP.
  split; [intros xo; now apply next_x_full_sweep |].
  destruct (solve N P A b) as [[xs it] err] eqn:Hs.
  exists it, err.
  pose proof (solve_count N P A b) as (Hc & Hx & _).
  rewrite Hs in Hc, Hx. cbn [fst snd] in Hc, Hx.
  split; [| exact Hc].
  rewrite (run_job_spec e N P A b Hv), Hs, Hx.
  do 4 f_equal. apply iter_ext. intros y. now apply next_x_full_sweep.
Qed.

Lemma gathered_iterate_is_sequential_witness :
  exists it err,
    run_job (system_env 3 ([4; 1; 2; 3; 5; 1; 1; 1; 3] ++ [7; 8; 9])) 2
    = Finished (job_results 3 2
                  (Nat.iter (Z.to_nat it)
                            (full_sweep 3 [4; 1; 2; 3; 5; 1; 1; 1; 3] [7; 8; 9])
                            (replicate (Z.to_nat 3) 0), it, err))
    /\ (1 <= it <= MAX_ITER)%Z.
Proof.
  destruct (gathered_iterate_is_sequential
              (system_env 3 ([4; 1; 2; 3; 5; 1; 1; 1; 3] ++ [7; 8; 9])) 3 2
              [4; 1; 2; 3; 5; 1; 1; 1; 3] [7; 8; 9])
    as (_ & H).
  - apply (system_env_valid 3 2 [4; 1; 2; 3; 5; 1; 1; 1; 3] [7; 8; 9]);
      unfold CInt.INT_MAX; simpl; lia.
  - exact H.
Defined.

(** ** The loader on files of any length *)

Lemma read_into_short (n : nat) :
  forall (idx : nat) (buf stream : list float),
    (idx + n <= length buf)%nat -> (length stream < n)%nat ->
    read_into n (Z.of_nat idx) buf stream = ReadShort.
Proof.
  induction n as [|n IH]; intros idx buf stream Hb Hs; [lia |].
  destruct stream as [|v rest]; [reflexivity |].
  cbn [read_into]. rewrite wr_in_range by lia.
  replace (Z.of_nat idx + 1)%Z with (Z.of_nat (S idx)) by lia.
  apply IH; [rewrite length_insert; lia | simpl in Hs; lia].
Qed.

Lemma load_cases (e : env) (N : Z) (nums : list float) :
  file e = Some (mk_file (Some N) nums) ->
  (forall k, (0 < k)%Z -> malloc_ok e k = true) ->
  (1 <= N)%Z -> (N * N <= CInt.INT_MAX)%Z ->
  load e
  = if (Z.of_nat (length nums) <? N * N)%Z then LoadDie ReadAFailed
    else if (Z.of_nat (length nums) <? N * N + N)%Z then LoadDie ReadBFailed
    else LoadOk N (take (Z.to_nat (N * N)) nums)
                (take (Z.to_nat N) (drop (Z.to_nat (N * N)) nums)).
Proof.
  intros Hf Hm H1 H2.
  assert (HNmax : (N <= CInt.INT_MAX)%Z) by (unfold CInt.INT_MAX in *; nia).
  unfold load. rewrite Hf. simpl.
  rewrite sizet_bytes2, sizet_bytes1 by lia.
  rewrite !malloc_doubles_pos by (auto; nia).
  destruct (Z.leb_spec N 0); [lia |].
  destruct (Z.ltb_spec (Z.of_nat (length nums)) (N * N)) as [Hs|Hge].
  - rewrite (read_into_short _ 0); [reflexivity | | lia].
    rewrite length_replicate. lia.
  - rewrite <- (take_drop (Z.to_nat (N * N)) nums) at 1.
    rewrite read_into_fresh by (rewrite length_take; lia).
    destruct (Z.ltb_spec (Z.of_nat (length nums)) (N * N + N)) as [Hs|Hge'].
    + rewrite (read_into_short _ 0); [reflexivity | |].
      * rewrite length_replicate. lia.
      * rewrite length_drop. lia.
    + rewrite <- (take_drop (Z.to_nat N) (drop (Z.to_nat (N * N)) nums)) at 1.
      rewrite read_into_fresh by (rewrite length_take, length_drop; lia).
      reflexivity.
Qed.

(** X3.  What the loader of lines 26-44 makes of a file whose first
    number is a dimension [N >= 1] (with [N * N] in the range of [int] and
    an allocator that does not fail).  If fewer than [N * N] numbers
    follow, the job is aborted with code 1 while reading [A]; if the matrix
    is complete but fewer than [N] numbers are left for [b], it is aborted
    with code 1 while reading [b]; no rank gets as far as printing a
    result.  Otherwise the first [N * N] numbers are the matrix, row by row,
    the next [N] are the right-hand side, whatever follows them in the file
    is never read, and the job reports the solution of that system. *)
Theorem loader_outcomes (e : env) (N P : Z) (nums : list float) :
  file e = Some (mk_file (Some N) nums) ->
  (forall k, malloc_ok e k = true) ->
  (1 <= N)%Z -> (N * N <= CInt.INT_MAX)%Z -> (1 <= P <= CInt.INT_MAX)%Z ->
  let len := Z.of_nat (length nums) in
  let A := take (Z.to_nat (N * N)) nums in
  let b := take (Z.to_nat N) (drop (Z.to_nat (N * N)) nums) in
  ((len < N * N)%Z -> run_job e P = Aborted 1 ReadAFailed)
  /\ ((N * N <= len < N * N + N)%Z -> run_job e P = Aborted 1 ReadBFailed)
  /\ ((N * N + N <= len)%Z ->
      load e = LoadOk N A b
      /\ run_job e P = Finished (job_results N P (solve N P A b))).
Proof.
  intros Hf Hm H1 H2 HP len A b.
  pose proof (load_cases e N nums Hf (fun k _ => Hm k) H1 H2) as Hl.
  fold len A b in Hl.
  split; [| split].
  - intros Hlen. apply run_job_rank0_dies; [lia |].
    destruct (Z.ltb_spec len (N * N)); [exact Hl | lia].
  - intros Hlen. apply run_job_rank0_dies; [lia |].
    destruct (Z.ltb_spec len (N * N)); [lia |].
    destruct (Z.ltb_spec len (N * N + N)); [exact Hl | lia].
  - intros Hlen.
    destruct (Z.ltb_spec len (N * N)); [lia |].
    destruct (Z.ltb_spec len (N * N + N)); [lia |].
    split; [exact Hl |].
    apply run_job_spec. unfold len in *.
    repeat split; try assumption; try lia; auto.
    + unfold A. rewrite length_take. lia.
    + unfold b. rewrite length_take, length_drop. lia.
    + exists (drop (Z.to_nat N) (drop (Z.to_nat (N * N)) nums)).
      rewrite Hf. unfold A, b. now rewrite !take_drop.
Qed.

Lemma loader_outcomes_witness :
  run_job (system_env 2 [4; 1; 1]) 3 = Aborted 1 ReadAFailed
  /\ run_job (system_env 2 [4; 1; 1; 3; 1]) 3 = Aborted 1 ReadBFailed
  /\ load (system_env 2 [4; 1; 1; 3; 1; 2; 77]) = LoadOk 2 [4; 1; 1; 3] [1; 2].
Proof.
  split; [| split].
  - apply (loader_outcomes (system_env 2 [4; 1; 1]) 2 3 [4; 1; 1]);
      try reflexivity; unfold CInt.INT_MAX; simpl; lia.
  - apply (loader_outcomes (system_env 2 [4; 1; 1; 3; 1]) 2 3 [4; 1; 1; 3; 1]);
      try reflexivity; unfold CInt.INT_MAX; simpl; lia.
  - apply (loader_outcomes (system_env 2 [4; 1; 1; 3; 1; 2; 77]) 2 3
             [4; 1; 1; 3; 1; 2; 77]);
      try reflexivity; unfold CInt.INT_MAX; simpl; lia.
Defined.

(** ** An allocator that returns NULL for a request of no bytes *)

Lemma first_abort_fmap {A : Type} (f : A -> proc) (l : list A)
    (c : Z) (w : die_reason) (a : A) :
  a ∈ l -> f a = PAbort c w ->
  (forall r, r ∈ l ->
     f r = PAbort c w \/ forall c' w', f r <> PAbort c' w') ->
  first_abort (f <$> l) = Some (c, w).
Proof.
  induction l as [|r l IH]; intros Ha Hfa Hall.
  - apply elem_of_nil in Ha. destruct Ha.
  - rewrite fmap_cons. cbn [first_abort foldr].
    destruct (Hall r ltac:(left)) as [Hr|Hr].
    + now rewrite Hr.
    + apply elem_of_cons in Ha as [->|Ha];
        [exfalso; exact (Hr _ _ Hfa) |].
      fold (first_abort (f <$> l)).
      rewrite IH; auto; [| intros r' Hr'; apply Hall; now right].
      destruct (f r); try reflexivity. exfalso. now apply (Hr code why).
Qed.

Lemma world_step_abort (ps : list proc) (c : Z) (w : die_reason) :
  first_abort ps = Some (c, w) -> world_step ps = inl (Aborted c w).
Proof. intros H. unfold world_step. now rewrite H. Qed.

Lemma after_bcast_malloc0 (e : env) (N P r : Z) (A0 b0 : list float) :
  (1 <= N)%Z -> (N * N <= CInt.INT_MAX)%Z -> (1 <= P <= CInt.INT_MAX)%Z ->
  (0 <= r < P)%Z ->
  malloc_ok e 0 = false ->
  (forall k, (0 < k)%Z -> malloc_ok e k = true) ->
  (local_rows N P r = 0%Z ->
   after_bcast e P r A0 b0 N = PAbort 1 LocalAllocFailed)
  /\ (local_rows N P r <> 0%Z ->
      forall c' w', after_bcast e P r A0 b0 N <> PAbort c' w').
Proof.
  intros H1 H2 HP Hr Hz Hpos.
  assert (HN : (1 <= N <= CInt.INT_MAX)%Z) by (unfold CInt.INT_MAX in *; nia).
  pose proof (local_rows_nonneg N P HN HP r Hr) as Hnn.
  pose proof (start_row_bounds N P HN HP r ltac:(lia)) as Hs.
  pose proof (start_row_bounds N P HN HP (r + 1) ltac:(lia)) as Hs1.
  rewrite (start_row_succ N P HN HP r Hr) in Hs1.
  unfold after_bcast. destruct (Z.leb_spec N 0); [lia |]. cbv zeta.
  split.
  - intros ->. unfold malloc_doubles at 1.
    change (SizeT.mul (SizeT.mul (SizeT.of_int 0) (SizeT.of_int N)) 8)
      with ((0 * (N mod SizeT.modulus)) mod SizeT.modulus * 8
            mod SizeT.modulus)%Z.
    rewrite Z.mul_0_l. change (0 mod SizeT.modulus * 8 mod SizeT.modulus)%Z
      with 0%Z.
    change (0 mod SizeT.modulus)%Z with 0%Z.
    now rewrite Hz.
  - intros Hne c' w'.
    rewrite sizet_bytes2 by (unfold CInt.INT_MAX in *; nia).
    rewrite sizet_bytes1 by (unfold CInt.INT_MAX in *; lia).
    rewrite (malloc_doubles_pos e (local_rows N P r * N)) by (auto; nia).
    rewrite (malloc_doubles_pos e (local_rows N P r)) by (auto; lia).
    unfold scatter_args. destruct (r =? 0)%Z; [| discriminate].
    rewrite sizet_bytes1 by lia. rewrite Hpos by lia. discriminate.
Qed.

(** X4.  The request of line 62-63 for a rank without rows is
    [malloc(0)], which the C library may answer with a null pointer.  With
    such an allocator (every request of at least one byte granted) and more
    ranks than rows, a complete input file is loaded by rank 0, and then
    every rank without rows calls [die]: the job is aborted with code 1
    for a failed local allocation, before the first scatter and without
    any round of the method. *)
Theorem malloc_zero_null_aborts (e : env) (N P : Z)
    (A b rest : list float) :
  file e = Some (mk_file (Some N) (A ++ b ++ rest)) ->
  Z.of_nat (length A) = (N * N)%Z -> Z.of_nat (length b) = N ->
  (1 <= N)%Z -> (N * N <= CInt.INT_MAX)%Z -> (N < P <= CInt.INT_MAX)%Z ->
  malloc_ok e 0 = false ->
  (forall k, (0 < k)%Z -> malloc_ok e k = true) ->
  load e = LoadOk N A b /\ run_job e P = Aborted 1 LocalAllocFailed.
Proof.
  intros Hf HA Hb H1 H2 HP Hz Hpos.
  assert (HN : (1 <= N <= CInt.INT_MAX)%Z) by (unfold CInt.INT_MAX in *; nia).
  assert (Hl : load e = LoadOk N A b).
  { rewrite (load_cases e N _ Hf Hpos H1 H2).
    rewrite !length_app.
    destruct (Z.ltb_spec (Z.of_nat (length A + (length b + length rest)))
                         (N * N)); [lia |].
    destruct (Z.ltb_spec (Z.of_nat (length A + (length b + length rest)))
                         (N * N + N)); [lia |].
    replace (Z.to_nat (N * N)) with (length A) by lia.
    rewrite take_app_length, drop_app_length.
    replace (Z.to_nat N) with (length b) by lia.
    now rewrite take_app_length. }
  split; [exact Hl |].
  unfold run_job.
  replace JOB_FUEL with (S (S 3002)) by (vm_compute; reflexivity).
  rewrite (fmap_ext_in _ _ _
             (fun r _ => rank_main_loaded e P N A b r Hl)).
  rewrite (seqZ_ranks P) at 1 by lia.
  erewrite run_world_step; [| apply world_step_bcast_int].
  cbv beta. change (if (0 =? 0)%Z then N else 0%Z) with N.
  rewrite <- (seqZ_ranks P) by lia.
  apply run_world_done, world_step_abort.
  apply (first_abort_fmap _ _ 1%Z LocalAllocFailed (P - 1)%Z).
  - apply elem_of_seqZ. lia.
  - apply after_bcast_malloc0; auto; try lia.
    apply (no_rows_beyond_N N P (P - 1)); lia.
  - intros r Hr. apply elem_of_seqZ in Hr.
    destruct (after_bcast_malloc0 e N P r
                (if (r =? 0)%Z then A else []) (if (r =? 0)%Z then b else [])
                H1 H2 ltac:(lia) ltac:(lia) Hz Hpos) as (Hzero & Hnon).
    destruct (Z.eq_dec (local_rows N P r) 0%Z) as [E|E];
      [left; now apply Hzero | right; now apply Hnon].
Qed.

Lemma malloc_zero_null_aborts_witness :
  run_job (mk_env (Some (mk_file (Some 1%Z) [2; 4])) (fun k => (0 <? k)%Z)) 2
  = Aborted 1 LocalAllocFailed.
Proof.
  apply (malloc_zero_null_aborts
           (mk_env (Some (mk_file (Some 1%Z) [2; 4])) (fun k => (0 <? k)%Z))
           1 2 [2] [4] []).
  - reflexivity.
  - reflexivity.
  - reflexivity.
  - lia.
  - unfold CInt.INT_MAX; lia.
  - unfold CInt.INT_MAX; lia.
  - reflexivity.
  - intros k Hk. simpl. now apply Z.ltb_lt.
Defined.

(** * The serial solver (part_002)

    [jacobi_serial_optimized] and the [main] that calls it.  The matrix is
    one block [Adata]; [A] is the table of row pointers into it, modelled
    by the offset of each row in [Adata]. *)

(** [#define MAX_ITER 10000]; the tolerance is the same [1e-5] as in the
    MPI program. *)
Definition SERIAL_MAX_ITER : Z := 10000.

(** [(double * )calloc(n, sizeof(double))]: [n] is converted to [size_t],
    the request fails when the number of bytes does not fit [size_t], and
    the cells are zero. *)
Definition calloc_doubles (e : env) (n : Z) : option (list float) :=
  let cnt := SizeT.of_int n in
  if (cnt * 8 <? SizeT.modulus)%Z && malloc_ok e (cnt * 8)%Z
  then Some (replicate (Z.to_nat cnt) 0) else None.

(** [A[i][j]]: cell [j] from where [A[i]] points. *)
Definition rd_row (Adata : list float) (A : list Z) (i j : Z) : option float :=
  if (i <? 0)%Z then None
  else match A !! Z.to_nat i with
       | Some off => rd Adata (off + j)
       | None => None
       end.

Inductive serial_exit : Type :=
| SerialAllocFailed
| ZeroDiagonal (row : Z).

Inductive diag_result : Type :=
| DiagOk (diag : list float)
| DiagZero (row : Z)
| DiagFault.

(** Lines 24-30, over the rows still to visit: [diag[i] = A[i][i]], then
    [exit(EXIT_FAILURE)] if [fabs(diag[i]) < 1e-20]. *)
Fixpoint diag_loop (Adata : list float) (A : list Z) (rows : list Z)
    (diag : list float) : diag_result :=
  match rows with
  | [] => DiagOk diag
  | i :: rest =>
      match rd_row Adata A i i with
      | None => DiagFault
      | Some a =>
          match wr diag i a with
          | None => DiagFault
          | Some diag' =>
              match rd diag' i with
              | None => DiagFault
              | Some d =>
                  if abs d <? DIAG_EPS then DiagZero i
                  else diag_loop Adata A rest diag'
              end
          end
      end
  end.

(** [sum += A[i][j] * x_old[j];] (line 43) *)
Definition dot_body (Adata : list float) (A : list Z) (x_old : list float)
    (i j : Z) (sum : float) : option float :=
  match rd_row Adata A i j, rd x_old j with
  | Some a, Some xj => Some (sum + a * xj)
  | _, _ => None
  end.

(** Body of the update loop, lines 40-46. *)
Definition serial_update_body (Adata : list float) (A : list Z)
    (b diag : list float) (N : Z) (x_old : list float) (i : Z)
    (x_new : list float) : option (list float) :=
  match for_each 0 N (dot_body Adata A x_old i) 0 with
  | None => None
  | Some sum =>
      match rd diag i, rd x_old i with
      | Some d, Some xi =>
          let sum' := sum - d * xi in
          match rd b i, rd diag i with
          | Some bi, Some d' => wr x_new i ((bi - sum') / d')
          | _, _ => None
          end
      | _, _ => None
      end
  end.

(** [double diff = fabs(x_new[i] - x_old[i]); if (diff > error) error = diff;] *)
Definition infnorm_body (x_new x_old : list float) (i : Z) (error : float)
  : option float :=
  match rd x_new i, rd x_old i with
  | Some a, Some b =>
      let diff := abs (a - b) in
      Some (if error <? diff then diff else error)
  | _, _ => None
  end.

(** [x_out[i] = x_old[i];] (line 67) *)
Definition out_body (x_old : list float) (i : Z) (x_out : list float)
  : option (list float) :=
  match rd x_old i with
  | Some v => wr x_out i v
  | None => None
  end.

Inductive serial_result : Type :=
| SExit (why : serial_exit)             (* [exit(EXIT_FAILURE)] *)
| SFault                                (* access outside an array *)
| SFuel
| SReturn (x_out : list float) (iterations : Z) (error : float).

(** The [do ... while] loop of lines 38-61 and what follows it.  The swap
    of the two pointers is the exchange of the two buffers in the recursive
    call; after the swap the new iterate is what [x_old] points to.  The
    summary printed at the end shows [iter], [error] and the first entries
    of [x_out], all of which [SReturn] carries. *)
Fixpoint serial_loop (fuel : nat) (Adata : list float) (A : list Z)
    (b diag : list float) (N : Z) (x_old x_new x_out : list float) (iter : Z)
  : serial_result :=
  match fuel with
  | O => SFuel
  | S fuel' =>
      match for_each 0 N (serial_update_body Adata A b diag N x_old) x_new with
      | None => SFault
      | Some x_new' =>
          match for_each 0 N (infnorm_body x_new' x_old) 0 with
          | None => SFault
          | Some error =>
              let iter' := CInt.add iter 1 in
              if (TOLERANCE <? error) && (iter' <? SERIAL_MAX_ITER)%Z
              then serial_loop fuel' Adata A b diag N x_new' x_old x_out iter'
              else
                match for_each 0 N (out_body x_new') x_out with
                | None => SFault
                | Some x_out' => SReturn x_out' iter' error
                end
          end
      end
  end.

Definition jacobi_serial_optimized (e : env) (Adata : list float) (A : list Z)
    (b x_out : list float) (N : Z) : serial_result :=
  let bytes := SizeT.mul (SizeT.of_int N) 8 in
  match calloc_doubles e N, malloc_doubles e bytes with
  | Some x_old, Some x_new =>
      match malloc_doubles e bytes with
      | None => SExit SerialAllocFailed
      | Some diag =>
          match diag_loop Adata A (seqZ 0 N) diag with
          | DiagFault => SFault
          | DiagZero i => SExit (ZeroDiagonal i)
          | DiagOk diag' =>
              serial_loop (Z.to_nat SERIAL_MAX_ITER) Adata A b diag' N
                          x_old x_new x_out 0
          end
      end
  | _, _ => SExit SerialAllocFailed
  end.

(** ** Its [main] (lines 86-146) *)

(** [A[i] = &Adata[i * N];] with the product taken in [int]. *)
Definition rows_body (N : Z) (i : Z) (A : list Z) : option (list Z) :=
  if ((0 <=? i) && (i <? Z.of_nat (length A)))%Z
  then Some (<[Z.to_nat i := CInt.mul i N]> A) else None.

(** One [fscanf(fp, "%lf", &buf[idx])] whose result is not looked at: at
    the end of the input nothing is stored. *)
Definition scan_lf (buf : list float) (idx : Z) (stream : list float)
  : option (list float * list float) :=
  match stream with
  | [] => Some (buf, [])
  | v :: rest =>
      match wr buf idx v with
      | Some buf' => Some (buf', rest)
      | None => None
      end
  end.

(** Body of the loop of lines 119-123: the [N] entries of row [i], then
    [b[i]]. *)
Definition read_row_body (A : list Z) (N : Z) (i : Z)
    (s : list float * list float * list float)
  : option (list float * list float * list float) :=
  if (i <? 0)%Z then None
  else
    match A !! Z.to_nat i with
    | None => None
    | Some off =>
        match for_each 0 N
                (fun j (t : list float * list float) =>
                   scan_lf t.1 (off + j) t.2) (s.1.1, s.2) with
        | None => None
        | Some (Adata', stream') =>
            match scan_lf s.1.2 i stream' with
            | None => None
            | Some (b', stream'') => Some (Adata', b', stream'')
            end
        end
    end.

Inductive serial_status : Type :=
| SMainReturn (status : Z) (res : option (list float * Z))
| SMainExit (why : serial_exit)
| SMainFault
| SMainFuel.

(** [for (int r = 0; r < repeat; r++) jacobi_serial_optimized(...)], then
    [return 0]: [x] and [iterations] are overwritten by every call. *)
Fixpoint serial_repeat (n : nat) (e : env) (Adata : list float) (A : list Z)
    (b x : list float) (N : Z) (iterations : option Z) : serial_status :=
  match n with
  | O => SMainReturn 0 (option_map (fun it => (x, it)) iterations)
  | S n' =>
      match jacobi_serial_optimized e Adata A b x N with
      | SExit why => SMainExit why
      | SFault => SMainFault
      | SFuel => SMainFuel
      | SReturn x' it _ => serial_repeat n' e Adata A b x' N (Some it)
      end
  end.

Definition serial_main (argc : Z) (e : env) : serial_status :=
  if negb (argc =? 2)%Z then SMainReturn 1 None
  else
    match file e with
    | None => SMainReturn 1 None
    | Some f =>
        match f_N f with
        | None => SMainReturn 1 None
        | Some N =>
            let bytesN := SizeT.mul (SizeT.of_int N) 8 in
            match malloc_doubles e (SizeT.mul (SizeT.of_int (CInt.mul N N)) 8),
                  malloc_ok e bytesN,
                  malloc_doubles e bytesN, malloc_doubles e bytesN with
            | Some Adata0, true, Some b0, Some x0 =>
                let A0 := replicate (Z.to_nat (bytesN / 8)) 0%Z in
                match for_each 0 N (rows_body N) A0 with
                | None => SMainFault
                | Some A =>
                    match for_each 0 N (read_row_body A N)
                            (Adata0, b0, f_nums f) with
                    | None => SMainFault
                    | Some (Adata, b, _) =>
                        let repeat := if (N <? 50)%Z then 1000%nat else 1%nat in
                        serial_repeat repeat e Adata A b x0 N None
                    end
                end
            | _, _, _, _ => SMainReturn 1 None
            end
        end
    end.

(** ** What a round of the serial solver computes *)

Definition serial_dot (N : Z) (Adata xo : list float) (i : Z) : float :=
  foldl (fun s j => s + get Adata (i * N + j) * get xo j) 0 (seqZ 0 N).

Definition serial_row (N : Z) (Adata b xo : list float) (i : Z) : float :=
  (get b i - (serial_dot N Adata xo i - get Adata (i * N + i) * get xo i))
  / get Adata (i * N + i).

Definition serial_sweep (N : Z) (Adata b xo : list float) : list float :=
  serial_row N Adata b xo <$> seqZ 0 N.

Definition inf_norm (N : Z) (xn xo : list float) : float :=
  foldl (fun e i => let d := abs (get xn i - get xo i) in
                    if e <? d then d else e) 0 (seqZ 0 N).

(** The table that [main] builds. *)
Definition row_table (N : Z) : list Z := (fun i => (i * N)%Z) <$> seqZ 0 N.

Lemma rd_row_table (N : Z) (Adata : list float) (i j : Z) :
  (0 <= i < N)%Z -> rd_row Adata (row_table N) i j = rd Adata (i * N + j).
Proof.
  intros Hi. unfold rd_row, row_table.
  destruct (Z.ltb_spec i 0); [lia |].
  rewrite list_lookup_fmap, lookup_seqZ_lt by lia. simpl.
  now rewrite Z2Nat.id by lia.
Qed.

Lemma get_insert (l : list float) (i j : Z) (v : float) :
  (0 <= i)%Z -> (0 <= j < Z.of_nat (length l))%Z ->
  get (<[Z.to_nat j := v]> l) i = if (i =? j)%Z then v else get l i.
Proof.
  intros Hi Hj. unfold get, rd. destruct (Z.ltb_spec i 0); [lia |].
  destruct (Z.eqb_spec i j) as [->|Hne].
  - now rewrite list_lookup_insert_eq by lia.
  - now rewrite list_lookup_insert_ne by lia.
Qed.

Lemma diag_loop_spec (N : Z) (Adata : list float) (rows : list Z) :
  Z.of_nat (length Adata) = (N * N)%Z ->
  forall diag : list float,
    (forall i, i ∈ rows -> (0 <= i < N)%Z) ->
    Z.of_nat (length diag) = N ->
    match List.find (fun i => abs (get Adata (i * N + i)) <? DIAG_EPS) rows with
    | Some i => diag_loop Adata (row_table N) rows diag = DiagZero i
    | None =>
        exists diag',
          diag_loop Adata (row_table N) rows diag = DiagOk diag'
          /\ Z.of_nat (length diag') = N
          /\ (forall i, i ∈ rows -> get diag' i = get Adata (i * N + i))
    end.
Proof.
  intros HA. induction rows as [|i rest IH]; intros diag Hin Hd.
  - simpl. exists diag. repeat split; auto. intros i Hi.
    apply elem_of_nil in Hi. destruct Hi.
  - assert (Hi : (0 <= i < N)%Z) by (apply Hin; left).
    cbn [diag_loop List.find].
    rewrite rd_row_table, rd_in_range by nia.
    rewrite wr_in_range by lia.
    rewrite rd_in_range by (rewrite length_insert; lia).
    rewrite get_insert, Z.eqb_refl by lia.
    destruct (abs (get Adata (i * N + i)) <? DIAG_EPS); [reflexivity |].
    specialize (IH (<[Z.to_nat i := get Adata (i * N + i)]> diag)
                   (fun k Hk => Hin k ltac:(now right))
                   ltac:(rewrite length_insert; lia)).
    destruct (List.find _ rest) as [k|]; [exact IH |].
    destruct IH as (diag' & Hrun & Hlen & Hval).
    exists diag'. split; [exact Hrun |]. split; [exact Hlen |].
    intros k Hk. destruct (decide (k ∈ rest)) as [Hr|Hr]; [now apply Hval |].
    apply elem_of_cons in Hk as [->|Hk]; [| contradiction].
    clear Hval Hin. revert Hrun Hr Hlen. generalize (get Adata (i * N + i)).
    intros a Hrun Hr Hlen.
    assert (Hkeep : forall rows' d d',
              diag_loop Adata (row_table N) rows' d = DiagOk d' ->
              i ∉ rows' -> get d' i = get d i).
    { clear - Hi. induction rows' as [|k rows' IH']; intros d d' Hrun Hni.
      - simpl in Hrun. now inversion Hrun.
      - cbn [diag_loop] in Hrun.
        destruct (rd_row Adata (row_table N) k k) as [a|]; [| discriminate].
        unfold wr in Hrun.
        destruct ((0 <=? k) && (k <? Z.of_nat (length d)))%Z eqn:Hk;
          [| discriminate].
        apply andb_true_iff in Hk as (Hk0 & Hk1).
        apply Z.leb_le in Hk0. apply Z.ltb_lt in Hk1.
        destruct (rd (<[Z.to_nat k := a]> d) k) as [dk|]; [| discriminate].
        destruct (abs dk <? DIAG_EPS); [discriminate |].
        rewrite (IH' _ _ Hrun) by (intros Hc; apply Hni; now right).
        rewrite get_insert by lia.
        destruct (Z.eqb_spec i k) as [->|]; [| reflexivity].
        exfalso. apply Hni. now left. }
    rewrite (Hkeep _ _ _ Hrun Hr), get_insert, Z.eqb_refl by lia.
    reflexivity.
Qed.

Lemma dot_loop (N : Z) (Adata xo : list float) (i : Z) :
  (0 <= i < N)%Z -> Z.of_nat (length Adata) = (N * N)%Z ->
  Z.of_nat (length xo) = N ->
  for_each 0 N (dot_body Adata (row_table N) xo i) 0
  = Some (serial_dot N Adata xo i).
Proof.
  intros Hi HA Hx.
  rewrite (for_each_fold 0 N _
             (fun s j => s + get Adata (i * N + j) * get xo j)).
  - now rewrite Z.sub_0_r.
  - intros j t Hj. unfold dot_body.
    rewrite rd_row_table by lia. rewrite !rd_in_range by nia. reflexivity.
Qed.

Lemma serial_update_loop (N : Z) (Adata b diag xo xn : list float) :
  (1 <= N)%Z -> Z.of_nat (length Adata) = (N * N)%Z ->
  Z.of_nat (length b) = N -> Z.of_nat (length diag) = N ->
  (forall i, (0 <= i < N)%Z -> get diag i = get Adata (i * N + i)) ->
  Z.of_nat (length xo) = N -> Z.of_nat (length xn) = N ->
  for_each 0 N (serial_update_body Adata (row_table N) b diag N xo) xn
  = Some (serial_sweep N Adata b xo).
Proof.
  intros HN HA Hb Hd Hdv Hxo Hxn.
  apply (for_each_fill (fun w => w) N _ (serial_row N Adata b xo) xn
           (fun w => w)); try lia; auto.
  intros i w Hi Hw. unfold serial_update_body.
  rewrite dot_loop by lia. rewrite !rd_in_range by lia.
  rewrite (Hdv i Hi). unfold serial_row.
  destruct (wr w i _); reflexivity.
Qed.

Lemma infnorm_loop (N : Z) (xn xo : list float) :
  Z.of_nat (length xn) = N -> Z.of_nat (length xo) = N ->
  for_each 0 N (infnorm_body xn xo) 0 = Some (inf_norm N xn xo).
Proof.
  intros Hxn Hxo.
  rewrite (for_each_fold 0 N _
             (fun e i => let d := abs (get xn i - get xo i) in
                         if e <? d then d else e)).
  - now rewrite Z.sub_0_r.
  - intros i t Hi. unfold infnorm_body. rewrite !rd_in_range by lia.
    reflexivity.
Qed.

Lemma out_loop (N : Z) (xs x_out : list float) :
  Z.of_nat (length xs) = N -> Z.of_nat (length x_out) = N ->
  for_each 0 N (out_body xs) x_out = Some xs.
Proof.
  intros Hx Ho.
  rewrite (for_each_fill (fun w => w) N _ (get xs) x_out (fun w => w));
    try lia; auto.
  - now rewrite <- Hx, get_fmap_seqZ.
  - intros i w Hi Hw. unfold out_body. rewrite rd_in_range by lia.
    destruct (wr w i _); reflexivity.
Qed.

Lemma length_serial_sweep (N : Z) (Adata b xo : list float) :
  (0 <= N)%Z -> Z.of_nat (length (serial_sweep N Adata b xo)) = N.
Proof. intros H. unfold serial_sweep. rewrite length_fmap, length_seqZ. lia. Qed.

Lemma is_nan_spec (d : float) :
  is_nan d = match Prim2SF d with S754_nan => true | _ => false end.
Proof.
  unfold is_nan. rewrite FloatAxioms.eqb_spec. unfold SFeqb.
  destruct (Prim2SF d) as [s | s | | s m e]; try (destruct s; reflexivity).
  - reflexivity.
  - simpl. rewrite Z.compare_refl.
    pose proof (Pos.compare_cont_refl m Eq) as H. simpl in H.
    destruct s; rewrite H; reflexivity.
Qed.

(** A value that compared greater than another is not NaN. *)
Lemma ltb_not_nan (a d : float) : (a <? d) = true -> is_nan d = false.
Proof.
  rewrite is_nan_spec, ltb_spec. unfold SFltb.
  destruct (Prim2SF a) as [sa | sa | | sa ma ea];
    destruct (Prim2SF d) as [sd | sd | | sd md ed]; simpl;
    try discriminate; reflexivity.
Qed.

Lemma inf_norm_not_nan (N : Z) (xn xo : list float) :
  is_nan (inf_norm N xn xo) = false.
Proof.
  unfold inf_norm.
  assert (H : forall (l : list Z) (e : float),
            is_nan e = false ->
            is_nan (foldl (fun e i => let d := abs (get xn i - get xo i) in
                                      if e <? d then d else e) e l) = false).
  { induction l as [|i l IH]; intros e He; [exact He |].
    simpl. apply IH.
    destruct (e <? abs (get xn i - get xo i)) eqn:Hlt; [| exact He].
    exact (ltb_not_nan _ _ Hlt). }
  apply H. reflexivity.
Qed.

Section SerialLoop.

Variables (N : Z) (Adata b diag : list float).
Hypothesis HN : (1 <= N <= CInt.INT_MAX)%Z.
Hypothesis HA : Z.of_nat (length Adata) = (N * N)%Z.
Hypothesis Hb : Z.of_nat (length b) = N.
Hypothesis Hd : Z.of_nat (length diag) = N.
Hypothesis Hdv : forall i, (0 <= i < N)%Z -> get diag i = get Adata (i * N + i).

(** The loop returns, and what it returns depends neither on the contents
    of the second buffer nor on those of [x_out]. *)
Lemma serial_loop_spec (fuel : nat) :
  forall (xo : list float) (it : Z),
    Z.of_nat (length xo) = N ->
    (0 <= it)%Z -> (it + Z.of_nat fuel = SERIAL_MAX_ITER)%Z ->
    (1 <= fuel)%nat ->
    exists (k : nat) (err : float),
      (forall xn x_out : list float,
         Z.of_nat (length xn) = N -> Z.of_nat (length x_out) = N ->
         serial_loop fuel Adata (row_table N) b diag N xo xn x_out it
         = SReturn (Nat.iter (S k) (serial_sweep N Adata b) xo)
                   (it + Z.of_nat (S k)) err)
      /\ (S k <= fuel)%nat
      /\ err = inf_norm N (Nat.iter (S k) (serial_sweep N Adata b) xo)
                        (Nat.iter k (serial_sweep N Adata b) xo)
      /\ ((TOLERANCE <? err) = false
          \/ (it + Z.of_nat (S k))%Z = SERIAL_MAX_ITER).
Proof.
  induction fuel as [|f IH]; intros xo it Hxo Hit Hsum Hf; [lia |].
  pose proof (length_serial_sweep N Adata b xo ltac:(lia)) as Hlen.
  assert (Hround : forall xn x_out : list float,
            Z.of_nat (length xn) = N -> Z.of_nat (length x_out) = N ->
            serial_loop (S f) Adata (row_table N) b diag N xo xn x_out it
            = if (TOLERANCE <? inf_norm N (serial_sweep N Adata b xo) xo)
                 && (it + 1 <? SERIAL_MAX_ITER)%Z
              then serial_loop f Adata (row_table N) b diag N
                     (serial_sweep N Adata b xo) xo x_out (it + 1)
              else SReturn (serial_sweep N Adata b xo) (it + 1)
                     (inf_norm N (serial_sweep N Adata b xo) xo)).
  { intros xn x_out Hxn Hout. cbn [serial_loop].
    rewrite serial_update_loop by (auto; lia).
    rewrite infnorm_loop by auto. cbv zeta.
    rewrite CInt.add_small
      by (unfold CInt.in_range, CInt.INT_MIN, CInt.INT_MAX, SERIAL_MAX_ITER
            in *; lia).
    now rewrite out_loop by auto. }
  destruct (TOLERANCE <? inf_norm N (serial_sweep N Adata b xo) xo) eqn:Hgt;
    destruct (Z.ltb_spec (it + 1) SERIAL_MAX_ITER) as [Hlt|Hge];
    cbn [andb] in Hround.
  - destruct (IH (serial_sweep N Adata b xo) (it + 1)%Z)
      as (k & err & Hrun & Hk & Herr & Hstop); auto; try lia.
    exists (S k), err.
    rewrite <- !(Nat.iter_succ_r _ (serial_sweep N Adata b)) in *.
    split; [| split; [lia | split; [exact Herr |]]].
    + intros xn x_out Hxn Hout. rewrite Hround, Hrun by auto.
      f_equal. lia.
    + destruct Hstop as [Hs|Hs]; [now left | right; lia].
  - exists 0%nat, (inf_norm N (serial_sweep N Adata b xo) xo).
    split; [exact Hround |]. split; [lia |]. split; [reflexivity |].
    right. lia.
  - exists 0%nat, (inf_norm N (serial_sweep N Adata b xo) xo).
    split; [exact Hround |]. split; [lia |]. split; [reflexivity |].
    now left.
  - exists 0%nat, (inf_norm N (serial_sweep N Adata b xo) xo).
    split; [exact Hround |]. split; [lia |]. split; [reflexivity |].
    now left.
Qed.

End SerialLoop.

Lemma find_first {A : Type} (p : A -> bool) (l1 l2 : list A) (a : A) :
  (forall y, y ∈ l1 -> p y = false) -> p a = true ->
  List.find p (l1 ++ a :: l2) = Some a.
Proof.
  intros H Ha. induction l1 as [|y l1 IH]; simpl; [now rewrite Ha |].
  rewrite (H y) by left. apply IH. intros z Hz. apply H. now right.
Qed.

Lemma find_none_all {A : Type} (p : A -> bool) (l : list A) :
  (forall y, y ∈ l -> p y = false) -> List.find p l = None.
Proof.
  intros H. induction l as [|y l IH]; simpl; [reflexivity |].
  rewrite (H y) by left. apply IH. intros z Hz. apply H. now right.
Qed.

Lemma near_zero_first (N : Z) (A : list float) (i : Z) :
  (0 <= i < N)%Z ->
  (abs (get A (i * N + i)) <? DIAG_EPS) = true ->
  (forall j, (0 <= j < i)%Z -> (abs (get A (j * N + j)) <? DIAG_EPS) = false) ->
  near_zero_diagonal N A = Some i.
Proof.
  intros Hi Hs Hfirst. unfold near_zero_diagonal.
  assert (Hsplit : seqZ 0 N = seqZ 0 i ++ i :: seqZ (Z.succ i) (Z.pred (N - i))).
  { replace N with (i + (N - i))%Z at 1 by lia.
    rewrite seqZ_app by lia. rewrite (seqZ_cons (0 + i)) by lia.
    now rewrite Z.add_0_l. }
  rewrite Hsplit.
  apply (find_first (fun k => abs (get A (k * N + k)) <? DIAG_EPS));
    [| exact Hs].
  intros j Hj. apply elem_of_seqZ in Hj. apply Hfirst. lia.
Qed.

Lemma near_zero_none (N : Z) (A : list float) :
  (forall j, (0 <= j < N)%Z -> (abs (get A (j * N + j)) <? DIAG_EPS) = false) ->
  near_zero_diagonal N A = None.
Proof.
  intros H. unfold near_zero_diagonal. apply find_none_all.
  intros j Hj. apply elem_of_seqZ in Hj. apply H. lia.
Qed.

Lemma calloc_doubles_ok (e : env) (n : Z) :
  (forall k, malloc_ok e k = true) -> (0 <= n <= CInt.INT_MAX)%Z ->
  calloc_doubles e n = Some (replicate (Z.to_nat n) 0).
Proof.
  intros Hm Hn. unfold calloc_doubles, SizeT.of_int, SizeT.modulus.
  unfold CInt.INT_MAX in Hn. rewrite Z.mod_small by lia. cbv zeta.
  rewrite Hm. destruct (Z.ltb_spec (n * 8) 18446744073709551616); [| lia].
  reflexivity.
Qed.

(** The solver on a well-formed call, in terms of its diagonal check.  The
    outcome does not depend on what [x_out] held before the call. *)
Lemma serial_solver_cases (e : env) (N : Z) (Adata b : list float) :
  (forall k, malloc_ok e k = true) ->
  (1 <= N <= CInt.INT_MAX)%Z ->
  Z.of_nat (length Adata) = (N * N)%Z -> Z.of_nat (length b) = N ->
  match near_zero_diagonal N Adata with
  | Some i =>
      forall x_out : list float,
        jacobi_serial_optimized e Adata (row_table N) b x_out N
        = SExit (ZeroDiagonal i)
  | None =>
      exists (k : nat) (err : float),
        let xs := Nat.iter (S k) (serial_sweep N Adata b)
                           (replicate (Z.to_nat N) 0) in
        (forall x_out : list float,
           Z.of_nat (length x_out) = N ->
           jacobi_serial_optimized e Adata (row_table N) b x_out N
           = SReturn xs (Z.of_nat (S k)) err)
        /\ (Z.of_nat (S k) <= SERIAL_MAX_ITER)%Z
        /\ err = inf_norm N xs (Nat.iter k (serial_sweep N Adata b)
                                         (replicate (Z.to_nat N) 0))
        /\ ((TOLERANCE <? err) = false
            \/ Z.of_nat (S k) = SERIAL_MAX_ITER)
  end.
Proof.
  intros Hm HN HA Hb.
  assert (Hpre : forall x_out : list float,
            jacobi_serial_optimized e Adata (row_table N) b x_out N
            = match diag_loop Adata (row_table N) (seqZ 0 N)
                      (replicate (Z.to_nat N) uninit) with
              | DiagOk diag' =>
                  serial_loop (Z.to_nat SERIAL_MAX_ITER) Adata (row_table N)
                    b diag' N (replicate (Z.to_nat N) 0)
                    (replicate (Z.to_nat N) uninit) x_out 0
              | DiagZero i => SExit (ZeroDiagonal i)
              | DiagFault => SFault
              end).
  { intros x_out. unfold jacobi_serial_optimized. cbv zeta.
    rewrite calloc_doubles_ok by (auto; lia).
    rewrite sizet_bytes1 by lia.
    now rewrite !malloc_doubles_ok by exact Hm. }
  pose proof (diag_loop_spec N Adata (seqZ 0 N) HA
                (replicate (Z.to_nat N) uninit)
                ltac:(intros i Hi; apply elem_of_seqZ in Hi; lia)
                ltac:(rewrite length_replicate; lia)) as Hdiag.
  unfold near_zero_diagonal.
  destruct (List.find _ (seqZ 0 N)) as [i|].
  - intros x_out. now rewrite Hpre, Hdiag.
  - destruct Hdiag as (diag & Hdiag & Hlen & Hval).
    destruct (serial_loop_spec N Adata b diag HN HA Hb Hlen
                ltac:(intros i Hi; apply Hval, elem_of_seqZ; lia)
                (Z.to_nat SERIAL_MAX_ITER)
                (replicate (Z.to_nat N) 0) 0)
      as (k & err & Hrun & Hk & Herr & Hstop);
      try (rewrite length_replicate; lia);
      try (unfold SERIAL_MAX_ITER; lia).
    exists k, err. cbv zeta.
    split; [| split; [unfold SERIAL_MAX_ITER in *; lia
                     | split; [exact Herr |]]].
    + intros x_out Hout. rewrite Hpre, Hdiag, Hrun, Z.add_0_l; auto.
      rewrite length_replicate. lia.
    + now rewrite Z.add_0_l in Hstop.
Qed.

(** X5.  The diagonal check of the serial solver (lines 24-30).  On a
    call with a matrix of [N * N] doubles and its table of rows, a
    right-hand side of [N] doubles and no allocation failing, if row [i] is
    the first whose diagonal entry has a magnitude below [1e-20], the
    solver leaves through [exit(EXIT_FAILURE)] naming row [i], before the
    first round: no result is returned, whatever the rest of the matrix
    and the right-hand side are. *)
Theorem serial_rejects_small_diagonal (e : env) (N : Z)
    (Adata b x_out : list float) (i : Z) :
  (forall k, malloc_ok e k = true) ->
  (1 <= N <= CInt.INT_MAX)%Z ->
  Z.of_nat (length Adata) = (N * N)%Z -> Z.of_nat (length b) = N ->
  (0 <= i < N)%Z ->
  (abs (get Adata (i * N + i)) <? DIAG_EPS) = true ->
  (forall j, (0 <= j < i)%Z ->
     (abs (get Adata (j * N + j)) <? DIAG_EPS) = false) ->
  jacobi_serial_optimized e Adata (row_table N) b x_out N
  = SExit (ZeroDiagonal i).
Proof.
  intros Hm HN HA Hb Hi Hs Hfirst.
  pose proof (serial_solver_cases e N Adata b Hm HN HA Hb) as H.
  rewrite (near_zero_first N Adata i Hi Hs Hfirst) in H. apply H.
Qed.

Lemma serial_rejects_small_diagonal_witness :
  jacobi_serial_optimized (system_env 2 []) [4; 1; 1; 0] (row_table 2)
                          [1; 2] [0; 0] 2
  = SExit (ZeroDiagonal 1).
Proof.
  apply (serial_rejects_small_diagonal (system_env 2 []) 2 [4; 1; 1; 0]
           [1; 2] [0; 0] 1).
  - reflexivity.
  - unfold CInt.INT_MAX; lia.
  - reflexivity.
  - reflexivity.
  - lia.
  - vm_compute; reflexivity.
  - intros j Hj. assert (j = 0%Z) as -> by lia. vm_compute; reflexivity.
Defined.

(** X6.  What the serial solver returns (lines 32-67).  On a well-formed
    call whose diagonal entries all pass the check (a NaN entry passes it),
    the solver returns; the count [it] it stores in [*iterations] is
    between 1 and 10000; the vector it copies to [x_out] is the one that
    [it] sweeps make of the zero vector of [calloc], so the exchange of the
    two buffers after every round leaves the newest iterate in the buffer
    that is copied out; the error it prints is the largest difference of
    the last round and is never NaN; and the loop was left because the
    error was not greater than the tolerance or because [it] is 10000. *)
Theorem serial_solver_returns (e : env) (N : Z) (Adata b x_out : list float) :
  (forall k, malloc_ok e k = true) ->
  (1 <= N <= CInt.INT_MAX)%Z ->
  Z.of_nat (length Adata) = (N * N)%Z -> Z.of_nat (length b) = N ->
  Z.of_nat (length x_out) = N ->
  (forall j, (0 <= j < N)%Z ->
     (abs (get Adata (j * N + j)) <? DIAG_EPS) = false) ->
  exists (it : Z) (err : float),
    let sweep := serial_sweep N Adata b in
    let x0 := replicate (Z.to_nat N) 0 in
    jacobi_serial_optimized e Adata (row_table N) b x_out N
    = SReturn (Nat.iter (Z.to_nat it) sweep x0) it err
    /\ (1 <= it <= SERIAL_MAX_ITER)%Z
    /\ err = inf_norm N (Nat.iter (Z.to_nat it) sweep x0)
                      (Nat.iter (Z.to_nat (it - 1)) sweep x0)
    /\ is_nan err = false
    /\ ((TOLERANCE <? err) = false \/ it = SERIAL_MAX_ITER).
Proof.
  intros Hm HN HA Hb Hout Hok.
  pose proof (serial_solver_cases e N Adata b Hm HN HA Hb) as H.
  rewrite (near_zero_none N Adata Hok) in H.
  destruct H as (k & err & Hrun & Hk & Herr & Hstop).
  exists (Z.of_nat (S k)), err. cbv zeta in *.
  replace (Z.to_nat (Z.of_nat (S k) - 1)) with k by lia.
  rewrite Nat2Z.id.
  split; [now apply Hrun |]. split; [lia |]. split; [exact Herr |].
  split; [rewrite Herr; apply inf_norm_not_nan | exact Hstop].
Qed.

Lemma serial_solver_returns_witness :
  exists (it : Z) (err : float),
    jacobi_serial_optimized (system_env 1 []) [2] (row_table 1) [4] [0] 1
    = SReturn (Nat.iter (Z.to_nat it) (serial_sweep 1 [2] [4]) [0]) it err
    /\ (1 <= it <= SERIAL_MAX_ITER)%Z.
Proof.
  destruct (serial_solver_returns (system_env 1 []) 1 [2] [4] [0])
    as (it & err & Hrun & Hit & _).
  - reflexivity.
  - unfold CInt.INT_MAX; lia.
  - reflexivity.
  - reflexivity.
  - reflexivity.
  - intros j Hj. assert (j = 0%Z) as -> by lia. vm_compute; reflexivity.
  - exists it, err. split; [exact Hrun | exact Hit].
Defined.

Lemma nan_diff_ignored (e a b : float) :
  is_nan a = true -> (e <? abs (a - b)) = false.
Proof.
  rewrite is_nan_spec, ltb_spec, abs_spec, sub_spec.
  destruct (Prim2SF a) as [sa | sa | | sa ma ea]; try discriminate.
  intros _. unfold SFltb.
  destruct (Prim2SF e) as [se | se | | se me ee]; reflexivity.
Qed.

Lemma inf_norm_all_nan (N : Z) (xn xo : list float) :
  (forall i, (0 <= i < N)%Z -> is_nan (get xn i) = true) ->
  inf_norm N xn xo = 0.
Proof.
  intros H. unfold inf_norm.
  assert (G : forall (l : list Z) (e : float),
            (forall i, i ∈ l -> (0 <= i < N)%Z) ->
            foldl (fun e i => let d := abs (get xn i - get xo i) in
                              if e <? d then d else e) e l = e).
  { induction l as [|i l IH]; intros e Hl; [reflexivity |].
    simpl. rewrite nan_diff_ignored by (apply H, Hl; left).
    apply IH. intros k Hk. apply Hl. now right. }
  apply G. intros i Hi. apply elem_of_seqZ in Hi. lia.
Qed.

(** X7.  A round of the serial solver whose new iterate is NaN in every
    entry ends the loop: every difference [fabs(x_new[i] - x_old[i])] is
    NaN, no NaN compares greater than the running maximum, the error of the
    round stays 0, and the solver returns the NaN vector after this round
    with the error 0, however many rounds were still allowed. *)
Theorem serial_nan_round_stops (fuel : nat) (N : Z)
    (Adata b diag x_out xo xn : list float) (it : Z) :
  (1 <= N <= CInt.INT_MAX)%Z ->
  Z.of_nat (length Adata) = (N * N)%Z -> Z.of_nat (length b) = N ->
  Z.of_nat (length diag) = N ->
  (forall i, (0 <= i < N)%Z -> get diag i = get Adata (i * N + i)) ->
  Z.of_nat (length x_out) = N ->
  Z.of_nat (length xo) = N -> Z.of_nat (length xn) = N ->
  (forall i, (0 <= i < N)%Z ->
     is_nan (get (serial_sweep N Adata b xo) i) = true) ->
  serial_loop (S fuel) Adata (row_table N) b diag N xo xn x_out it
  = SReturn (serial_sweep N Adata b xo) (CInt.add it 1) 0.
Proof.
  intros HN HA Hb Hd Hdv Hout Hxo Hxn Hnan.
  cbn [serial_loop].
  rewrite serial_update_loop by (auto; lia).
  pose proof (length_serial_sweep N Adata b xo ltac:(lia)) as Hlen.
  rewrite infnorm_loop by auto. cbv zeta.
  rewrite (inf_norm_all_nan N _ xo Hnan).
  change (TOLERANCE <? 0) with false. cbn [andb].
  now rewrite out_loop by auto.
Qed.

Lemma serial_nan_round_stops_witness :
  serial_loop 3 [1] (row_table 1) [nan] [1] 1 [0] [0] [0] 0
  = SReturn (serial_sweep 1 [1] [nan] [0]) 1 0.
Proof.
  apply (serial_nan_round_stops 2 1 [1] [nan] [1] [0] [0] [0] 0);
    try reflexivity.
  - unfold CInt.INT_MAX; lia.
  - intros i Hi. assert (i = 0%Z) as -> by lia. reflexivity.
  - intros i Hi. assert (i = 0%Z) as -> by lia. vm_compute; reflexivity.
Defined.

(** ** The reader of the serial [main] *)

(** What the reader stores when the file holds each row of the matrix
    followed by the entry of the right-hand side of that row. *)
Definition aug_A (N : Z) (nums : list float) : list float :=
  concat ((fun i => slice nums (i * (N + 1)) N) <$> seqZ 0 N).

Definition aug_b (N : Z) (nums : list float) : list float :=
  (fun i => get nums (i * (N + 1) + N)) <$> seqZ 0 N.

Lemma for_each_fill_any {T : Type} (n : Z)
    (body : Z -> list T -> option (list T)) (f : Z -> T) (a0 : list T) :
  (0 <= n)%Z -> Z.of_nat (length a0) = n ->
  (forall i w, (0 <= i < n)%Z -> length w = length a0 ->
     body i w = Some (<[Z.to_nat i := f i]> w)) ->
  for_each 0 n body a0 = Some (f <$> seqZ 0 n).
Proof.
  intros Hn Hlen Hbody.
  destruct (for_each_inv
    (fun i t => t = (f <$> seqZ 0 i) ++ drop (Z.to_nat i) a0)
    0 n body a0) as (s' & Hs' & ->); try lia.
  - simpl. now rewrite drop_0.
  - intros i t Hi ->. eexists. split.
    + apply Hbody; [lia |].
      rewrite length_app, length_fmap, length_seqZ, length_drop. lia.
    + rewrite insert_take_drop_step;
        [| rewrite length_fmap, length_seqZ; lia | lia].
      replace (i + 1)%Z with (Z.of_nat (S (Z.to_nat i))) by lia.
      rewrite seqZ_S, fmap_app. simpl.
      rewrite Z2Nat.id by lia. rewrite Nat2Z.id. reflexivity.
  - rewrite Hs'. f_equal.
    rewrite drop_ge by lia. now rewrite app_nil_r.
Qed.

Lemma rows_loop (N : Z) (A0 : list Z) :
  (0 <= N)%Z -> (N * N <= CInt.INT_MAX)%Z -> Z.of_nat (length A0) = N ->
  for_each 0 N (rows_body N) A0 = Some (row_table N).
Proof.
  intros HN HNN HA. apply for_each_fill_any; auto.
  intros i w Hi Hw. unfold rows_body.
  destruct (Z.leb_spec 0 i); [| lia].
  destruct (Z.ltb_spec i (Z.of_nat (length w))); [| lia]. cbn [andb].
  rewrite CInt.mul_small; [reflexivity |].
  unfold CInt.in_range, CInt.INT_MIN, CInt.INT_MAX in *. nia.
Qed.

Lemma scan_block (off : nat) (n : Z) (buf st : list float) :
  (0 <= n)%Z -> (Z.of_nat off + n <= Z.of_nat (length buf))%Z ->
  (n <= Z.of_nat (length st))%Z ->
  for_each 0 n (fun j (t : list float * list float) =>
                  scan_lf t.1 (Z.of_nat off + j) t.2) (buf, st)
  = Some (take off buf ++ take (Z.to_nat n) st
            ++ drop (off + Z.to_nat n) buf,
          drop (Z.to_nat n) st).
Proof.
  intros Hn Hb Hs.
  destruct (for_each_inv
    (fun j (t : list float * list float) =>
       t = ((take off buf ++ take (Z.to_nat j) st)
              ++ drop (off + Z.to_nat j) buf,
            drop (Z.to_nat j) st))
    0 n (fun j (t : list float * list float) =>
           scan_lf t.1 (Z.of_nat off + j) t.2) (buf, st))
    as (s' & Hs' & ->); try lia.
  - simpl. now rewrite app_nil_r, Nat.add_0_r, take_drop.
  - intros j t Hj ->. cbn [fst snd].
    destruct (lookup_lt_is_Some_2 st (Z.to_nat j) ltac:(lia)) as [v Hv].
    rewrite (drop_S _ _ _ Hv). cbn [scan_lf].
    rewrite wr_in_range.
    2:{ rewrite !length_app, !length_take, length_drop. lia. }
    eexists. split; [reflexivity |]. f_equal.
    + replace (Z.to_nat (Z.of_nat off + j)) with (off + Z.to_nat j)%nat by lia.
      rewrite insert_take_drop_step;
        [| rewrite length_app, !length_take; lia | lia].
      replace (Z.to_nat (j + 1)) with (S (Z.to_nat j)) by lia.
      rewrite (take_S_r _ _ _ Hv), <- !app_assoc.
      now rewrite Nat.add_succ_r.
    + f_equal. lia.
  - rewrite Hs'. now rewrite <- app_assoc.
Qed.

Lemma scan_block_Z (off n : Z) (buf st : list float) :
  (0 <= off)%Z -> (0 <= n)%Z -> (off + n <= Z.of_nat (length buf))%Z ->
  (n <= Z.of_nat (length st))%Z ->
  for_each 0 n (fun j (t : list float * list float) =>
                  scan_lf t.1 (off + j) t.2) (buf, st)
  = Some (take (Z.to_nat off) buf ++ take (Z.to_nat n) st
            ++ drop (Z.to_nat off + Z.to_nat n) buf,
          drop (Z.to_nat n) st).
Proof.
  intros Hoff Hn Hb Hs.
  pose proof (scan_block (Z.to_nat off) n buf st Hn ltac:(lia) Hs) as H.
  now rewrite Z2Nat.id in H by lia.
Qed.

Lemma length_concat_blocks (f : Z -> list float) (w : Z) (k : nat) :
  (0 <= w)%Z ->
  (forall r, (0 <= r < Z.of_nat k)%Z -> Z.of_nat (length (f r)) = w) ->
  Z.of_nat (length (concat (f <$> seqZ 0 (Z.of_nat k)))) = (Z.of_nat k * w)%Z.
Proof.
  intros Hw. induction k as [|k IH]; intros H; [reflexivity |].
  rewrite seqZ_S, fmap_app, concat_app, length_app, Nat2Z.inj_add.
  rewrite IH by (intros r Hr; apply H; lia).
  simpl. rewrite app_nil_r, Z.add_0_l, (H (Z.of_nat k)) by lia. lia.
Qed.

Lemma length_aug_row (N : Z) (nums : list float) (r : Z) :
  (0 <= N)%Z -> (0 <= r)%Z ->
  (r * (N + 1) + N <= Z.of_nat (length nums))%Z ->
  Z.of_nat (length (slice nums (r * (N + 1)) N)) = N.
Proof.
  intros HN Hr Hl. unfold slice. rewrite length_take, length_drop. nia.
Qed.

Lemma serial_read_loop (N : Z) (nums Adata0 b0 : list float) :
  (1 <= N)%Z -> (N * N <= CInt.INT_MAX)%Z ->
  Z.of_nat (length Adata0) = (N * N)%Z -> Z.of_nat (length b0) = N ->
  (N * (N + 1) <= Z.of_nat (length nums))%Z ->
  for_each 0 N (read_row_body (row_table N) N) (Adata0, b0, nums)
  = Some (aug_A N nums, aug_b N nums, drop (Z.to_nat (N * (N + 1))) nums).
Proof.
  intros HN HNN HA Hb Hlen.
  destruct (for_each_inv
    (fun i (t : list float * list float * list float) =>
       t = (concat ((fun r => slice nums (r * (N + 1)) N) <$> seqZ 0 i)
              ++ drop (Z.to_nat (i * N)) Adata0,
            ((fun r => get nums (r * (N + 1) + N)) <$> seqZ 0 i)
              ++ drop (Z.to_nat i) b0,
            drop (Z.to_nat (i * (N + 1))) nums))
    0 N (read_row_body (row_table N) N) (Adata0, b0, nums))
    as (s' & Hs' & ->); try lia.
  - simpl. now rewrite !drop_0.
  - intros i t Hi ->. unfold read_row_body. cbn [fst snd].
    destruct (Z.ltb_spec i 0); [lia |].
    unfold row_table. rewrite list_lookup_fmap, lookup_seqZ_lt by lia.
    simpl. rewrite Z.add_0_l, Z2Nat.id by lia.
    assert (Hpre : Z.of_nat (length (concat ((fun r => slice nums (r * (N + 1)) N)
                                         <$> seqZ 0 i))) = (i * N)%Z).
    { pose proof (length_concat_blocks
                    (fun r => slice nums (r * (N + 1)) N) N (Z.to_nat i)
                    ltac:(lia)) as Hc.
      rewrite Z2Nat.id in Hc by lia. apply Hc.
      intros r Hr. apply length_aug_row; nia. }
    rewrite scan_block_Z;
      [| nia | lia
       | rewrite length_app, length_drop; nia
       | rewrite length_drop; nia].
    rewrite take_app_length' by lia.
    rewrite drop_app_ge by lia.
    replace (Z.to_nat (i * N) + Z.to_nat N
             - length (concat ((fun r => slice nums (r * (N + 1)) N)
                                 <$> seqZ 0 i)))%nat
      with (Z.to_nat N) by lia.
    rewrite !drop_drop.
    destruct (lookup_lt_is_Some_2 nums (Z.to_nat (i * (N + 1) + N))
                ltac:(nia)) as [v Hv].
    replace (Z.to_nat (i * (N + 1)) + Z.to_nat N)%nat
      with (Z.to_nat (i * (N + 1) + N)) by nia.
    rewrite (drop_S _ _ _ Hv). cbn [scan_lf].
    rewrite wr_in_range
      by (rewrite length_app, length_fmap, length_seqZ, length_drop; lia).
    eexists. split; [reflexivity |].
    replace (i + 1)%Z with (Z.of_nat (S (Z.to_nat i))) by lia.
    rewrite !seqZ_S, !fmap_app, concat_app. simpl.
    rewrite ?Z.add_0_l, ?Nat2Z.id, ?Z2Nat.id, ?app_nil_r by lia.
    f_equal; [f_equal |].
    + rewrite <- app_assoc. f_equal. unfold slice.
      do 2 f_equal. nia.
    + rewrite insert_take_drop_step;
        [| rewrite length_fmap, length_seqZ; lia | lia].
      do 3 f_equal. unfold get, rd.
      destruct (Z.ltb_spec (i * (N + 1) + N) 0); [nia |].
      now rewrite Hv.
    + f_equal. nia.
  - rewrite Hs'. unfold aug_A, aug_b.
    rewrite !drop_ge by nia. now rewrite !app_nil_r.
Qed.

Lemma get_concat_blocks (f : Z -> list float) (w n i j : Z) :
  (0 <= w)%Z -> (0 <= i < n)%Z -> (0 <= j < w)%Z ->
  (forall r, (0 <= r < n)%Z -> Z.of_nat (length (f r)) = w) ->
  get (concat (f <$> seqZ 0 n)) (i * w + j) = get (f i) j.
Proof.
  intros Hw Hi Hj Hlen.
  assert (Hsplit : seqZ 0 n = seqZ 0 i ++ i :: seqZ (Z.succ i) (Z.pred (n - i))).
  { replace n with (i + (n - i))%Z at 1 by lia.
    rewrite seqZ_app by lia. rewrite (seqZ_cons (0 + i)) by lia.
    now rewrite Z.add_0_l. }
  rewrite Hsplit, fmap_app, fmap_cons, concat_app. simpl concat.
  pose proof (length_concat_blocks f w (Z.to_nat i) Hw) as Hc.
  rewrite Z2Nat.id in Hc by lia.
  specialize (Hc ltac:(intros r Hr; apply Hlen; lia)).
  unfold get, rd.
  destruct (Z.ltb_spec (i * w + j) 0); [nia |].
  destruct (Z.ltb_spec j 0); [lia |].
  rewrite lookup_app_r by nia.
  rewrite lookup_app_l by (specialize (Hlen i Hi); nia).
  replace (Z.to_nat (i * w + j) - length (concat (f <$> seqZ 0 i)))%nat
    with (Z.to_nat j) by nia.
  reflexivity.
Qed.

Lemma get_fmap_at (f : Z -> float) (n i : Z) :
  (0 <= i < n)%Z -> get (f <$> seqZ 0 n) i = f i.
Proof.
  intros Hi. unfold get, rd. destruct (Z.ltb_spec i 0); [lia |].
  rewrite list_lookup_fmap, lookup_seqZ_lt by lia. simpl.
  now rewrite Z2Nat.id by lia.
Qed.

Lemma get_aug_A (N : Z) (nums : list float) (i j : Z) :
  (1 <= N)%Z -> (N * (N + 1) <= Z.of_nat (length nums))%Z ->
  (0 <= i < N)%Z -> (0 <= j < N)%Z ->
  get (aug_A N nums) (i * N + j) = get nums (i * (N + 1) + j).
Proof.
  intros HN Hlen Hi Hj. unfold aug_A.
  rewrite (get_concat_blocks (fun r => slice nums (r * (N + 1)) N) N N i j);
    try lia.
  - apply get_slice; nia.
  - intros r Hr. apply length_aug_row; nia.
Qed.

(** X8.  The two readers do not take the same file layout.  The loop of
    lines 119-123 of the serial [main] reads, for every row, the [N]
    entries of the row and then the entry of [b] of that row: entry
    [(i, j)] of its matrix is number [i * (N + 1) + j] of the file and
    [b[i]] is number [i * (N + 1) + N].  The loader of the MPI program
    reads the whole matrix first: its entry [(i, j)] is number [i * N + j]
    and [b[i]] is number [N * N + i].  Both read [N * N + N] numbers of a
    file that holds at least that many. *)
Theorem serial_reads_augmented_rows (e : env) (N : Z)
    (nums Adata0 b0 : list float) :
  (1 <= N)%Z -> (N * N <= CInt.INT_MAX)%Z ->
  (N * (N + 1) <= Z.of_nat (length nums))%Z ->
  Z.of_nat (length Adata0) = (N * N)%Z -> Z.of_nat (length b0) = N ->
  file e = Some (mk_file (Some N) nums) ->
  (forall k, malloc_ok e k = true) ->
  (exists Adata b,
     for_each 0 N (read_row_body (row_table N) N) (Adata0, b0, nums)
     = Some (Adata, b, drop (Z.to_nat (N * (N + 1))) nums)
     /\ (forall i j, (0 <= i < N)%Z -> (0 <= j < N)%Z ->
           get Adata (i * N + j) = get nums (i * (N + 1) + j))
     /\ (forall i, (0 <= i < N)%Z -> get b i = get nums (i * (N + 1) + N)))
  /\ (exists A_full b_full,
        load e = LoadOk N A_full b_full
        /\ (forall i j, (0 <= i < N)%Z -> (0 <= j < N)%Z ->
              get A_full (i * N + j) = get nums (i * N + j))
        /\ (forall i, (0 <= i < N)%Z -> get b_full i = get nums (N * N + i))).
Proof.
  intros HN HNN Hlen HA Hb Hf Hm. split.
  - exists (aug_A N nums), (aug_b N nums).
    split; [now apply serial_read_loop |]. split.
    + intros i j Hi Hj. now apply get_aug_A.
    + intros i Hi. unfold aug_b.
      now rewrite (get_fmap_at (fun i => get nums (i * (N + 1) + N))).
  - exists (slice nums 0 (N * N)), (slice nums (N * N) N).
    split; [| split].
    + rewrite (load_cases e N nums Hf (fun k _ => Hm k) HN HNN).
      destruct (Z.ltb_spec (Z.of_nat (length nums)) (N * N)); [nia |].
      destruct (Z.ltb_spec (Z.of_nat (length nums)) (N * N + N)); [nia |].
      reflexivity.
    + intros i j Hi Hj. rewrite get_slice by nia. f_equal.
    + intros i Hi. now rewrite get_slice by nia.
Qed.

Lemma serial_reads_augmented_rows_witness :
  exists Adata b,
    for_each 0 2 (read_row_body (row_table 2) 2)
             ([0; 0; 0; 0], [0; 0], [4; 1; 7; 1; 3; 8])
    = Some (Adata, b, [])
    /\ get b 0 = get [4; 1; 7; 1; 3; 8] 2.
Proof.
  destruct (serial_reads_augmented_rows (system_env 2 [4; 1; 7; 1; 3; 8]) 2
              [4; 1; 7; 1; 3; 8] [0; 0; 0; 0] [0; 0])
    as ((Adata & b & Hrun & _ & Hb) & _);
    try reflexivity; try (unfold CInt.INT_MAX; simpl; lia).
  exists Adata, b. split; [exact Hrun |]. apply (Hb 0%Z). lia.
Defined.

(** ** The serial [main] as a whole *)

Lemma serial_repeat_same (n : nat) (e : env) (Adata : list float) (A : list Z)
    (b xs : list float) (N it : Z) (err : float) :
  (forall x, Z.of_nat (length x) = N ->
     jacobi_serial_optimized e Adata A b x N = SReturn xs it err) ->
  Z.of_nat (length xs) = N ->
  forall (x : list float) (its : option Z),
    Z.of_nat (length x) = N ->
    serial_repeat (S n) e Adata A b x N its = SMainReturn 0 (Some (xs, it)).
Proof.
  intros Hcall Hxs. induction n as [|n IH]; intros x its Hx.
  - cbn [serial_repeat]. now rewrite Hcall.
  - change (serial_repeat (S (S n)) e Adata A b x N its)
      with (match jacobi_serial_optimized e Adata A b x N with
            | SExit why => SMainExit why
            | SFault => SMainFault
            | SFuel => SMainFuel
            | SReturn x' it' _ =>
                serial_repeat (S n) e Adata A b x' N (Some it')
            end).
    rewrite Hcall by exact Hx. now apply IH.
Qed.

Lemma length_aug_A (N : Z) (nums : list float) :
  (1 <= N)%Z -> (N * (N + 1) <= Z.of_nat (length nums))%Z ->
  Z.of_nat (length (aug_A N nums)) = (N * N)%Z.
Proof.
  intros HN Hlen. unfold aug_A.
  pose proof (length_concat_blocks (fun r => slice nums (r * (N + 1)) N) N
                (Z.to_nat N) ltac:(lia)) as H.
  rewrite Z2Nat.id in H by lia. apply H.
  intros r Hr. apply length_aug_row; nia.
Qed.

Lemma serial_main_cases (e : env) (N : Z) (nums : list float) :
  file e = Some (mk_file (Some N) nums) ->
  (forall k, malloc_ok e k = true) ->
  (1 <= N)%Z -> (N * N <= CInt.INT_MAX)%Z ->
  (N * (N + 1) <= Z.of_nat (length nums))%Z ->
  match near_zero_diagonal N (aug_A N nums) with
  | Some i => serial_main 2 e = SMainExit (ZeroDiagonal i)
  | None =>
      exists xs it err,
        (forall x_out, Z.of_nat (length x_out) = N ->
           jacobi_serial_optimized e (aug_A N nums) (row_table N)
                                   (aug_b N nums) x_out N
           = SReturn xs it err)
        /\ serial_main 2 e = SMainReturn 0 (Some (xs, it))
  end.
Proof.
  intros Hf Hm HN HNN Hlen.
  assert (HNmax : (1 <= N <= CInt.INT_MAX)%Z)
    by (unfold CInt.INT_MAX in *; nia).
  assert (Hmain : serial_main 2 e
                  = serial_repeat (if (N <? 50)%Z then 1000%nat else 1%nat)
                      e (aug_A N nums) (row_table N) (aug_b N nums)
                      (replicate (Z.to_nat N) uninit) N None).
  { unfold serial_main. rewrite Hf. cbn [negb Z.eqb Pos.eqb f_N f_nums].
    cbv zeta.
    rewrite CInt.mul_small
      by (unfold CInt.in_range, CInt.INT_MIN, CInt.INT_MAX in *; nia).
    rewrite (sizet_bytes1 (N * N)), (sizet_bytes1 N)
      by (unfold CInt.INT_MAX in *; nia).
    rewrite !malloc_doubles_ok, Hm by exact Hm.
    rewrite Z.div_mul by lia.
    rewrite rows_loop by (auto; rewrite ?length_replicate; lia).
    rewrite serial_read_loop
      by (auto; rewrite ?length_replicate; lia).
    reflexivity. }
  pose proof (serial_solver_cases e N (aug_A N nums) (aug_b N nums) Hm HNmax
                (length_aug_A N nums HN Hlen)
                ltac:(unfold aug_b; rewrite length_fmap, length_seqZ; lia))
    as Hcases.
  destruct (near_zero_diagonal N (aug_A N nums)) as [i|].
  - rewrite Hmain.
    destruct (N <? 50)%Z;
      [change 1000%nat with (S 999) | ]; cbn [serial_repeat];
      now rewrite Hcases.
  - destruct Hcases as (k & err & Hrun & Hk & _). cbv zeta in Hrun.
    eexists _, _, err. split; [exact Hrun |].
    rewrite Hmain.
    destruct (N <? 50)%Z; [change 1000%nat with (S 999) |];
      apply (serial_repeat_same _ _ _ _ _ _ _ _ err Hrun);
      try (rewrite length_replicate; lia).
    all: destruct k; simpl; apply length_serial_sweep; lia.
Qed.

(** X9.  The serial program from its command line to its exit.  With
    any number of arguments other than one it returns 1 without opening a
    file, and so it does when the file cannot be opened or does not start
    with a number.  On a file with a dimension [N >= 1] ([N * N] in the
    range of [int]) and at least [N * (N + 1)] numbers, with no allocation
    failing: if a diagonal entry of the matrix it read is below [1e-20] in
    magnitude, the first call of the solver ends the process through
    [exit(EXIT_FAILURE)] naming the first such row; otherwise [main]
    returns 0, and the 1000 calls it makes when [N < 50] leave in [x] and
    [iterations] exactly what a single call of the solver returns, each
    call starting again from the zero vector. *)
Theorem serial_main_spec (e : env) (argc N : Z) (nums : list float) :
  ((argc <> 2)%Z -> serial_main argc e = SMainReturn 1 None)
  /\ (file e = None -> serial_main argc e = SMainReturn 1 None)
  /\ ((exists rest, file e = Some (mk_file None rest)) ->
      serial_main argc e = SMainReturn 1 None)
  /\ (argc = 2%Z ->
      file e = Some (mk_file (Some N) nums) ->
      (forall k, malloc_ok e k = true) ->
      (1 <= N)%Z -> (N * N <= CInt.INT_MAX)%Z ->
      (N * (N + 1) <= Z.of_nat (length nums))%Z ->
      match near_zero_diagonal N (aug_A N nums) with
      | Some i => serial_main argc e = SMainExit (ZeroDiagonal i)
      | None =>
          exists xs it err,
            (forall x_out, Z.of_nat (length x_out) = N ->
               jacobi_serial_optimized e (aug_A N nums) (row_table N)
                                       (aug_b N nums) x_out N
               = SReturn xs it err)
            /\ serial_main argc e = SMainReturn 0 (Some (xs, it))
      end).
Proof.
  split; [| split; [| split]].
  - intros Ha. unfold serial_main.
    destruct (Z.eqb_spec argc 2); [contradiction | reflexivity].
  - intros Hf. unfold serial_main. rewrite Hf.
    destruct (negb (argc =? 2)%Z); reflexivity.
  - intros (rest & Hf). unfold serial_main. rewrite Hf.
    destruct (negb (argc =? 2)%Z); reflexivity.
  - intros -> Hf Hm HN HNN Hlen. now apply serial_main_cases.
Qed.

Lemma serial_main_spec_witness :
  serial_main 2 (system_env 1 [2; 4]) = SMainReturn 0 (Some ([2], 2%Z))
  /\ serial_main 3 (system_env 1 [2; 4]) = SMainReturn 1 None.
Proof.
  destruct (serial_main_spec (system_env 1 [2; 4]) 2 1 [2; 4])
    as (_ & _ & _ & H).
  destruct (serial_main_spec (system_env 1 [2; 4]) 3 1 [2; 4])
    as (H3 & _).
  split; [| apply H3; lia].
  specialize (H eq_refl eq_refl (fun _ => eq_refl) ltac:(lia)
                ltac:(unfold CInt.INT_MAX; lia) ltac:(simpl; lia)).
  change (near_zero_diagonal 1 (aug_A 1 [2; 4])) with (@None Z) in H.
  destruct H as (xs & it & err & Hcall & Hmain).
  rewrite Hmain. specialize (Hcall [0] eq_refl).
  vm_compute in Hcall. now inversion Hcall.
Defined.

(** * The OpenMP program with the sum of differences (OpenMP.c, lines 161-300)

    [jacobi] takes the matrix as a table of separately allocated rows.  Its
    limits are those of the MPI program: [MAX_ITER] is 1000 and [TOLERANCE]
    is [1e-5]. *)

(** [A[i][j]] for [double **A]. *)
Definition rd2 (A : list (list float)) (i j : Z) : option float :=
  if (i <? 0)%Z then None
  else match A !! Z.to_nat i with
       | Some row => rd row j
       | None => None
       end.

(** A loop whose passes run in the order of [l]. *)
Definition for_in {St : Type} (l : list Z) (body : Z -> St -> option St)
    (s : St) : option St :=
  foldl (fun acc i => match acc with Some s' => body i s' | None => None end)
        (Some s) l.

(** [x_old[i] = x[i];] *)
Definition omp_copy_body (x : list float) (i : Z) (x_old : list float)
  : option (list float) :=
  match rd x i with
  | Some v => wr x_old i v
  | None => None
  end.

(** [if (j != i) sum += A[i][j] * x_old[j];] *)
Definition omp_sum_body (A : list (list float)) (x_old : list float)
    (i j : Z) (sum : float) : option float :=
  if (j =? i)%Z then Some sum
  else
    match rd2 A i j, rd x_old j with
    | Some a, Some xj => Some (sum + a * xj)
    | _, _ => None
    end.

(** One pass of the [#pragma omp parallel for] loop: [sum] and [j] are
    private to the pass, the only cell written is [x[i]]. *)
Definition omp_row_body (N : Z) (A : list (list float)) (b x_old : list float)
    (i : Z) (x : list float) : option (list float) :=
  match for_each 0 N (omp_sum_body A x_old i) 0 with
  | None => None
  | Some sum =>
      match rd b i, rd2 A i i with
      | Some bi, Some d => wr x i ((bi - sum) / d)
      | _, _ => None
      end
  end.

(** [error += fabs(x[i] - x_old[i]);] *)
Definition omp_err_body (x x_old : list float) (i : Z) (error : float)
  : option float :=
  match rd x i, rd x_old i with
  | Some a, Some b => Some (error + abs (a - b))
  | _, _ => None
  end.

Inductive omp_result : Type :=
| OFault                               (* access outside an array, or through NULL *)
| OFuel
| OReturn (x : list float) (iterations : Z).

(** The [do ... while] loop.  The passes of the parallel loop of round
    [iter] run in the order [sched iter], which the OpenMP runtime
    chooses. *)
Fixpoint omp_loop (fuel : nat) (sched : Z -> list Z) (N : Z)
    (A : list (list float)) (b x x_old : list float) (iter : Z) : omp_result :=
  match fuel with
  | O => OFuel
  | S fuel' =>
      match for_each 0 N (omp_copy_body x) x_old with
      | None => OFault
      | Some x_old' =>
          match for_in (sched iter) (omp_row_body N A b x_old') x with
          | None => OFault
          | Some x' =>
              match for_each 0 N (omp_err_body x' x_old') 0 with
              | None => OFault
              | Some error =>
                  let iter' := CInt.add iter 1 in
                  if (TOLERANCE <? error) && (iter' <? MAX_ITER)%Z
                  then omp_loop fuel' sched N A b x' x_old' iter'
                  else OReturn x' iter'
              end
          end
      end
  end.

(** [jacobi(N, A, b, x, &iterations)].  The result of [malloc] is not
    tested: a null [x_old] is a buffer without cells. *)
Definition jacobi (e : env) (sched : Z -> list Z) (N : Z)
    (A : list (list float)) (b x : list float) : omp_result :=
  let x_old :=
    match malloc_doubles e (SizeT.mul (SizeT.of_int N) 8) with
    | Some buf => buf
    | None => []
    end in
  match for_each 0 N zero_body x with
  | None => OFault
  | Some x0 => omp_loop (Z.to_nat MAX_ITER) sched N A b x0 x_old 0
  end.

(** ** The parallel loop computes the sweep in any order *)

Lemma lookup_concat_rows (A : list (list float)) (w : nat) :
  Forall (fun r => length r = w) A ->
  forall (i j : nat) (row : list float),
    A !! i = Some row -> (j < w)%nat ->
    concat A !! (i * w + j)%nat = row !! j.
Proof.
  induction 1 as [|r A Hr _ IH]; intros i j row Hi Hj.
  - discriminate.
  - destruct i as [|i]; simpl in *.
    + inversion Hi; subst. now rewrite lookup_app_l by lia.
    + rewrite lookup_app_r by lia.
      replace (w + i * w + j - length r)%nat with (i * w + j)%nat by lia.
      now apply IH.
Qed.

Lemma rd2_concat (N : Z) (A : list (list float)) (i j : Z) :
  Z.of_nat (length A) = N -> Forall (fun r => length r = Z.to_nat N) A ->
  (0 <= i < N)%Z -> (0 <= j < N)%Z ->
  rd2 A i j = Some (get (concat A) (i * N + j)).
Proof.
  intros HA Hrows Hi Hj. unfold rd2, get, rd.
  destruct (Z.ltb_spec i 0); [lia |].
  destruct (Z.ltb_spec j 0); [lia |].
  destruct (Z.ltb_spec (i * N + j) 0); [nia |].
  destruct (lookup_lt_is_Some_2 A (Z.to_nat i) ltac:(lia)) as [row Hrow].
  rewrite Hrow.
  replace (Z.to_nat (i * N + j))
    with (Z.to_nat i * Z.to_nat N + Z.to_nat j)%nat by nia.
  rewrite (lookup_concat_rows A (Z.to_nat N) Hrows _ _ row Hrow) by lia.
  assert (Hl : length row = Z.to_nat N).
  { rewrite Forall_forall in Hrows. apply Hrows.
    now apply list_elem_of_lookup_2 in Hrow. }
  destruct (lookup_lt_is_Some_2 row (Z.to_nat j) ltac:(lia)) as [v Hv].
  now rewrite Hv.
Qed.

Lemma omp_sum_loop (N : Z) (A : list (list float)) (xo : list float) (i : Z) :
  Z.of_nat (length A) = N -> Forall (fun r => length r = Z.to_nat N) A ->
  Z.of_nat (length xo) = N -> (0 <= i < N)%Z ->
  for_each 0 N (omp_sum_body A xo i) 0
  = Some (offdiag_sum N i i (concat A) xo).
Proof.
  intros HA Hrows Hxo Hi.
  rewrite (for_each_fold 0 N _
    (fun s j => if decide (j <> i) then
                  s + get (concat A) (i * N + j) * get xo j
                else s)).
  - rewrite Z.sub_0_r. unfold offdiag_sum. f_equal.
    apply (foldl_skip_filter
             (fun s j => s + get (concat A) (i * N + j) * get xo j)).
  - intros j t Hj. unfold omp_sum_body.
    destruct (Z.eqb_spec j i) as [->|Hne].
    + destruct (decide (i <> i)) as [Hc|_]; [now destruct Hc | reflexivity].
    + destruct (decide (j <> i)) as [_|Hc]; [| now destruct Hc].
      rewrite (rd2_concat N) by (auto; lia).
      rewrite rd_in_range by lia. reflexivity.
Qed.

Lemma omp_row_step (N : Z) (A : list (list float)) (b xo w : list float)
    (i : Z) :
  Z.of_nat (length A) = N -> Forall (fun r => length r = Z.to_nat N) A ->
  Z.of_nat (length b) = N -> Z.of_nat (length xo) = N ->
  Z.of_nat (length w) = N -> (0 <= i < N)%Z ->
  omp_row_body N A b xo i w
  = Some (<[Z.to_nat i := full_row N (concat A) b xo i]> w).
Proof.
  intros HA Hrows Hb Hxo Hw Hi. unfold omp_row_body.
  rewrite omp_sum_loop by auto.
  rewrite rd_in_range, (rd2_concat N) by (auto; lia).
  now rewrite wr_in_range by lia.
Qed.

Lemma for_in_inserts (N : Z) (f : Z -> float) (body : Z -> list float -> option (list float))
    (l : list Z) :
  (forall i w, (0 <= i < N)%Z -> Z.of_nat (length w) = N ->
     body i w = Some (<[Z.to_nat i := f i]> w)) ->
  (forall i, i ∈ l -> (0 <= i < N)%Z) ->
  forall w, Z.of_nat (length w) = N ->
    exists w', for_in l body w = Some w'
               /\ Z.of_nat (length w') = N
               /\ (forall k, (0 <= k < N)%Z ->
                     get w' k = if decide (k ∈ l) then f k else get w k).
Proof.
  intros Hbody. unfold for_in.
  induction l as [|i l IH] using rev_ind; intros Hl w Hw.
  - exists w. split; [reflexivity |]. split; [exact Hw |].
    intros k Hk. destruct (decide (k ∈ [])) as [Hc|_]; [| reflexivity].
    apply elem_of_nil in Hc. destruct Hc.
  - destruct (IH (fun k Hk => Hl k ltac:(apply elem_of_app; now left)) w Hw)
      as (w1 & Hrun & Hlen & Hval).
    assert (Hi : (0 <= i < N)%Z)
      by (apply Hl, elem_of_app; right; now left).
    rewrite foldl_app. simpl. rewrite Hrun, Hbody by auto.
    eexists. split; [reflexivity |].
    split; [rewrite length_insert; exact Hlen |].
    intros k Hk. rewrite get_insert by lia.
    destruct (Z.eqb_spec k i) as [->|Hne].
    + destruct (decide (i ∈ l ++ [i])) as [_|Hc]; [reflexivity |].
      exfalso. apply Hc, elem_of_app. right. now left.
    + rewrite (Hval k Hk).
      destruct (decide (k ∈ l)) as [Hin|Hnin];
        destruct (decide (k ∈ l ++ [i])) as [Hin'|Hnin']; try reflexivity.
      * exfalso. apply Hnin', elem_of_app. now left.
      * exfalso. apply elem_of_app in Hin' as [Hin'|Hin']; [contradiction |].
        apply list_elem_of_singleton in Hin'. contradiction.
Qed.

Lemma for_each_for_in {St : Type} (lo hi : Z) (body : Z -> St -> option St)
    (s : St) :
  for_each lo hi body s = for_in (seqZ lo (hi - lo)) body s.
Proof. reflexivity. Qed.

(** The passes of the parallel loop, run in any order that visits every
    row, leave the Jacobi sweep of [x_old] in [x]. *)
Lemma omp_sweep_any_order (N : Z) (A : list (list float)) (b xo x : list float)
    (order : list Z) :
  (1 <= N)%Z ->
  Z.of_nat (length A) = N -> Forall (fun r => length r = Z.to_nat N) A ->
  Z.of_nat (length b) = N -> Z.of_nat (length xo) = N ->
  Z.of_nat (length x) = N ->
  order ≡ₚ seqZ 0 N ->
  for_in order (omp_row_body N A b xo) x
  = Some (full_sweep N (concat A) b xo).
Proof.
  intros HN HA Hrows Hb Hxo Hx Hperm.
  destruct (for_in_inserts N (full_row N (concat A) b xo)
              (omp_row_body N A b xo) order) with (w := x)
    as (w' & Hrun & Hlen & Hval); auto.
  - intros i w Hi Hw. now apply omp_row_step.
  - intros i Hi. rewrite Hperm in Hi. apply elem_of_seqZ in Hi. lia.
  - rewrite Hrun. f_equal. unfold full_sweep.
    rewrite <- (get_fmap_seqZ w'), Hlen.
    apply fmap_ext_in. intros k Hk. apply elem_of_seqZ in Hk.
    rewrite Hval by lia.
    destruct (decide (k ∈ order)) as [_|Hc]; [reflexivity |].
    exfalso. apply Hc. rewrite Hperm. apply elem_of_seqZ. lia.
Qed.

Lemma omp_copy_loop (N : Z) (x xo : list float) :
  Z.of_nat (length x) = N -> Z.of_nat (length xo) = N ->
  for_each 0 N (omp_copy_body x) xo = Some x.
Proof.
  intros Hx Hxo.
  rewrite (for_each_fill (fun w => w) N _ (get x) xo (fun w => w));
    try lia; auto.
  - now rewrite <- Hx, get_fmap_seqZ.
  - intros i w Hi Hw. unfold omp_copy_body. rewrite rd_in_range by lia.
    destruct (wr w i _); reflexivity.
Qed.

Lemma omp_err_loop (N : Z) (x xo : list float) :
  Z.of_nat (length x) = N -> Z.of_nat (length xo) = N ->
  for_each 0 N (omp_err_body x xo) 0 = Some (local_err 0 N x xo).
Proof.
  intros Hx Hxo.
  rewrite (for_each_fold 0 N _
    (fun e li => e + abs (get x (0 + li) - get xo (0 + li)))).
  - now rewrite Z.sub_0_r.
  - intros i t Hi. unfold omp_err_body. rewrite !rd_in_range by lia.
    reflexivity.
Qed.

Lemma one_rank (N : Z) :
  (1 <= N <= CInt.INT_MAX)%Z ->
  start_row N 1 0 = 0%Z /\ local_rows N 1 0 = N.
Proof.
  intros HN.
  assert (H1 : (1 <= 1 <= CInt.INT_MAX)%Z) by (unfold CInt.INT_MAX; lia).
  pose proof (start_row_0 N 1%Z HN H1) as H0.
  pose proof (start_row_succ N 1%Z HN H1 0%Z ltac:(lia)) as Hs.
  pose proof (start_row_P N 1%Z HN H1) as HP.
  change (0 + 1)%Z with 1%Z in Hs. split; [exact H0 | lia].
Qed.

Lemma global_err_one_rank (N : Z) (xn xo : list float) :
  (1 <= N <= CInt.INT_MAX)%Z ->
  global_err N 1 xn xo = local_err 0 N xn xo.
Proof.
  intros HN. destruct (one_rank N HN) as (Hs & Hl).
  unfold global_err. change (seqZ 0 1) with [0%Z].
  change (reduce_sum (rank_err N 1 xn xo <$> [0%Z]))
    with (rank_err N 1 xn xo 0).
  unfold rank_err. now rewrite Hs, Hl.
Qed.

Lemma length_full_sweep (N : Z) (A b xo : list float) :
  (0 <= N)%Z -> Z.of_nat (length (full_sweep N A b xo)) = N.
Proof. intros H. unfold full_sweep. rewrite length_fmap, length_seqZ. lia. Qed.

Section OmpLoop.

Variables (sched : Z -> list Z) (N : Z) (A : list (list float)) (b : list float).
Hypothesis Hsched : forall k, sched k ≡ₚ seqZ 0 N.
Hypothesis HN : (1 <= N <= CInt.INT_MAX)%Z.
Hypothesis HA : Z.of_nat (length A) = N.
Hypothesis Hrows : Forall (fun r => length r = Z.to_nat N) A.
Hypothesis Hb : Z.of_nat (length b) = N.

Lemma omp_loop_iterate (fuel : nat) :
  forall (x xo : list float) (it : Z),
    Z.of_nat (length x) = N -> Z.of_nat (length xo) = N ->
    (0 <= it < MAX_ITER)%Z -> (MAX_ITER <= it + 1 + Z.of_nat fuel)%Z ->
    omp_loop (S fuel) sched N A b x xo it
    = OReturn (iterate N 1 (concat A) b fuel x it).1.1
              (iterate N 1 (concat A) b fuel x it).1.2.
Proof.
  assert (H1 : (1 <= 1 <= CInt.INT_MAX)%Z) by (unfold CInt.INT_MAX; lia).
  assert (Hround : forall (f : nat) (x xo : list float) (it : Z),
            Z.of_nat (length x) = N -> Z.of_nat (length xo) = N ->
            (0 <= it < MAX_ITER)%Z ->
            omp_loop (S f) sched N A b x xo it
            = let xn := next_x N 1 (concat A) b x in
              if (TOLERANCE <? global_err N 1 xn x)
                 && (it + 1 <? MAX_ITER)%Z
              then omp_loop f sched N A b xn x (it + 1)
              else OReturn xn (it + 1)).
  { intros f x xo it Hx Hxo Hit. cbn [omp_loop].
    rewrite omp_copy_loop by auto.
    rewrite (omp_sweep_any_order N A b x x (sched it)) by (auto; lia).
    pose proof (length_full_sweep N (concat A) b x ltac:(lia)) as Hlen.
    rewrite omp_err_loop by auto. cbv zeta.
    rewrite CInt.add_small
      by (unfold CInt.in_range, CInt.INT_MIN, CInt.INT_MAX, MAX_ITER in *;
          lia).
    rewrite (next_x_full_sweep N 1 (concat A) b x HN H1).
    now rewrite (global_err_one_rank N _ x HN). }
  induction fuel as [|f IH]; intros x xo it Hx Hxo Hit Hfuel.
  - rewrite Hround by auto. cbv zeta. cbn [iterate fst snd].
    destruct (Z.ltb_spec (it + 1) MAX_ITER) as [Hlt|Hge]; [lia |].
    now rewrite andb_false_r.
  - rewrite Hround by auto. cbv zeta. rewrite iterate_S.
    destruct (TOLERANCE <? _) eqn:Hgt;
      destruct (Z.ltb_spec (it + 1) MAX_ITER) as [Hlt|Hge]; cbn [andb];
      try reflexivity.
    apply IH; auto; try lia.
    rewrite (next_x_full_sweep N 1 (concat A) b x HN H1).
    apply length_full_sweep. lia.
Qed.

End OmpLoop.

Lemma jacobi_returns_solve (e : env) (sched : Z -> list Z) (N : Z)
    (A : list (list float)) (b x : list float) :
  (forall k, sched k ≡ₚ seqZ 0 N) ->
  (1 <= N <= CInt.INT_MAX)%Z ->
  Z.of_nat (length A) = N -> Forall (fun r => length r = Z.to_nat N) A ->
  Z.of_nat (length b) = N -> Z.of_nat (length x) = N ->
  malloc_ok e (N * 8)%Z = true ->
  jacobi e sched N A b x
  = OReturn (solve N 1 (concat A) b).1.1 (solve N 1 (concat A) b).1.2.
Proof.
  intros Hsched HN HA Hrows Hb Hx Hm.
  unfold jacobi. cbv zeta.
  rewrite sizet_bytes1 by lia. unfold malloc_doubles. rewrite Hm.
  rewrite Z.div_mul by lia.
  rewrite zero_loop by exact Hx.
  change (Z.to_nat MAX_ITER) with (S (Z.to_nat (MAX_ITER - 1))).
  rewrite (omp_loop_iterate sched N A b Hsched HN HA Hrows Hb);
    try (rewrite length_replicate; lia); try (unfold MAX_ITER; lia).
  reflexivity.
Qed.

(** X10.  The OpenMP solver [jacobi] and the MPI program on one rank
    compute the same thing.  On a matrix of [N] rows of [N] doubles, with
    [x_old] allocated, [jacobi] returns, whatever the order in which the
    runtime runs the passes of the parallel loop in each round (no pass
    reads a cell that another pass writes), the vector and the count of
    rounds of [solve] for one rank on the matrix stored row after row; and
    these are what the MPI job of one rank reports for that system. *)
Theorem omp_jacobi_matches_one_rank (e : env) (sched : Z -> list Z) (N : Z)
    (A : list (list float)) (b x : list float) :
  (forall k, sched k ≡ₚ seqZ 0 N) ->
  (1 <= N <= CInt.INT_MAX)%Z ->
  Z.of_nat (length A) = N -> Forall (fun r => length r = Z.to_nat N) A ->
  Z.of_nat (length b) = N -> Z.of_nat (length x) = N ->
  malloc_ok e (N * 8)%Z = true ->
  jacobi e sched N A b x
  = OReturn (solve N 1 (concat A) b).1.1 (solve N 1 (concat A) b).1.2
  /\ forall e', valid_run e' N 1 (concat A) b ->
       run_job e' 1 = Finished (job_results N 1 (solve N 1 (concat A) b)).
Proof.
  intros Hsched HN HA Hrows Hb Hx Hm.
  split; [now apply jacobi_returns_solve |].
  intros e' Hv. now apply run_job_spec.
Qed.

Lemma omp_jacobi_matches_one_rank_witness :
  jacobi (system_env 2 []) (fun _ => [1%Z; 0%Z]) 2 [[4; 1]; [1; 3]] [1; 2]
         [0; 0]
  = OReturn (solve 2 1 [4; 1; 1; 3] [1; 2]).1.1
            (solve 2 1 [4; 1; 1; 3] [1; 2]).1.2.
Proof.
  apply (omp_jacobi_matches_one_rank (system_env 2 []) (fun _ => [1%Z; 0%Z])
           2 [[4; 1]; [1; 3]] [1; 2] [0; 0]).
  - intros _. apply (Permutation_swap 0%Z 1%Z []).
  - unfold CInt.INT_MAX; lia.
  - reflexivity.
  - repeat constructor.
  - reflexivity.
  - reflexivity.
  - reflexivity.
Defined.

Lemma foldl_none {St : Type} (body : Z -> St -> option St) (l : list Z) :
  foldl (fun acc i => match acc with Some s' => body i s' | None => None end)
        None l = None.
Proof. induction l as [|i l IH]; [reflexivity | exact IH]. Qed.

Lemma for_each_first_fail {St : Type} (lo hi : Z) (body : Z -> St -> option St)
    (s : St) :
  (lo < hi)%Z -> body lo s = None -> for_each lo hi body s = None.
Proof.
  intros Hlt Hb. unfold for_each. rewrite seqZ_cons by lia.
  cbn [foldl]. rewrite Hb. apply foldl_none.
Qed.

(** X11.  What [jacobi] does not check.  The result of its [malloc] is
    used untested: when the allocation of [x_old] fails and [N >= 1], the
    first statement of the loop stores through the null pointer.  And the
    dimension is not checked either: called with [N <= 0], no loop body
    runs, the error of the only round is 0, and [jacobi] returns with [x]
    untouched and a count of 1 iteration. *)
Theorem omp_jacobi_unchecked (e : env) (sched : Z -> list Z) (N : Z)
    (A : list (list float)) (b x : list float) :
  (forall k, sched k ≡ₚ seqZ 0 N) ->
  ((1 <= N <= CInt.INT_MAX)%Z -> Z.of_nat (length x) = N ->
   malloc_ok e (N * 8)%Z = false ->
   jacobi e sched N A b x = OFault)
  /\ ((N <= 0)%Z -> jacobi e sched N A b x = OReturn x 1).
Proof.
  intros Hsched. split.
  - intros HN Hx Hm. unfold jacobi. cbv zeta.
    rewrite sizet_bytes1 by lia. unfold malloc_doubles. rewrite Hm.
    rewrite zero_loop by exact Hx.
    change (Z.to_nat MAX_ITER) with (S (Z.to_nat (MAX_ITER - 1))).
    cbn [omp_loop].
    rewrite for_each_first_fail; [reflexivity | lia |].
    unfold omp_copy_body.
    rewrite rd_in_range by (rewrite length_replicate; lia).
    reflexivity.
  - intros HN. unfold jacobi. cbv zeta.
    rewrite for_each_empty by lia.
    change (Z.to_nat MAX_ITER) with (S (Z.to_nat (MAX_ITER - 1))).
    cbn [omp_loop]. rewrite !for_each_empty by lia.
    pose proof (Hsched 0%Z) as Hp. rewrite seqZ_nil in Hp by lia.
    apply Permutation_nil_r in Hp. rewrite Hp.
    unfold for_in. cbn [foldl].
    rewrite for_each_empty by lia. reflexivity.
Qed.

Lemma omp_jacobi_unchecked_witness :
  jacobi (mk_env None (fun _ => false)) (fun _ => [0%Z]) 1 [[2]] [4] [0]
  = OFault
  /\ jacobi (system_env 0 []) (fun _ => []) 0 [] [] [7] = OReturn [7] 1.
Proof.
  split.
  - apply (omp_jacobi_unchecked (mk_env None (fun _ => false))
             (fun _ => [0%Z]) 1 [[2]] [4] [0]).
    + intros _. reflexivity.
    + unfold CInt.INT_MAX; lia.
    + reflexivity.
    + reflexivity.
  - apply (omp_jacobi_unchecked (system_env 0 []) (fun _ => []) 0 [] [] [7]).
    + intros _. reflexivity.
    + lia.
Defined.

(** * The generator of input files (generate_data.c)

    [rand] is an oracle: [rng k] is what the call number [k] returns, the
    calls being counted from 0.  The file that is written is kept as the
    dimension printed by [%d] and the doubles printed by [%f], in order;
    each of them has an integer value that [%f] prints exactly. *)

(** [(double)z] for an [int]. *)
Definition double_of_int (z : Z) : float :=
  if (z <? 0)%Z then - PrimFloat.of_uint63 (Uint63.of_Z (- z))
  else PrimFloat.of_uint63 (Uint63.of_Z z).

(** [(double)(rand() % m)], for the call number [c]. *)
Definition rand_mod (rng : Z -> Z) (c m : Z) : float :=
  double_of_int (Z.rem (rng c) m).

(** [if (i != j) row_sum += fabs((double)(rand() % 10));] on the pair of the
    number of calls made so far and [row_sum]. *)
Definition gen_sum_body (rng : Z -> Z) (i : Z) (s : Z * float) (j : Z)
  : Z * float :=
  if (i =? j)%Z then s else ((s.1 + 1)%Z, s.2 + abs (rand_mod rng s.1 10)).

(** Lines 27-34, on the pair of the number of calls and what was
    printed. *)
Definition gen_write_body (rng : Z -> Z) (i : Z) (row_sum : float)
    (s : Z * list float) (j : Z) : Z * list float :=
  if (i =? j)%Z
  then ((s.1 + 1)%Z, s.2 ++ [row_sum + rand_mod rng s.1 10 + 1])
  else ((s.1 + 1)%Z, s.2 ++ [rand_mod rng s.1 10]).

(** Body of the loop over the rows, lines 18-36. *)
Definition gen_row_body (rng : Z -> Z) (n : Z) (s : Z * list float) (i : Z)
  : Z * list float :=
  let t := foldl (gen_sum_body rng i) (s.1, 0) (seqZ 0 n) in
  foldl (gen_write_body rng i t.2) (t.1, s.2) (seqZ 0 n).

(** [fprintf(file, "%f ", (double)(rand() % 100));] *)
Definition gen_b_body (rng : Z -> Z) (s : Z * list float) (i : Z)
  : Z * list float :=
  ((s.1 + 1)%Z, s.2 ++ [rand_mod rng s.1 100]).

(** [generate_data_file(filename, n)]: [None] is [exit(1)] after a failed
    [fopen]; otherwise the contents of the file and the number of calls of
    [rand]. *)
Definition generate_data_file (fopen_ok : bool) (rng : Z -> Z) (n : Z)
  : option (file_data * Z) :=
  if fopen_ok then
    let s1 := foldl (gen_row_body rng n) (0%Z, []) (seqZ 0 n) in
    let s2 := foldl (gen_b_body rng) s1 (seqZ 0 n) in
    Some (mk_file (Some n) s2.2, s2.1)
  else None.

Inductive gen_status : Type :=
| GenReturn (status : Z) (written : option file_data)
| GenExit (status : Z).

(** [main]: [n] is [atoi(argv[2])]. *)
Definition generate_main (argc : Z) (n : Z) (fopen_ok : bool) (rng : Z -> Z)
  : gen_status :=
  if negb (argc =? 3)%Z then GenReturn 1 None
  else if (n <=? 0)%Z then GenReturn 1 None
  else match generate_data_file fopen_ok rng n with
       | None => GenExit 1
       | Some (f, _) => GenReturn 0 (Some f)
       end.

(** ** What the generator writes *)

(** The sum that the first loop of a row leaves in [row_sum]: [m] calls
    from call number [c]. *)
Definition row_sum_of (rng : Z -> Z) (c m : Z) : float :=
  foldl (fun s k => s + abs (rand_mod rng k 10)) 0 (seqZ c m).

(** Entry [(i, j)] of the matrix that is written. *)
Definition gen_entry (rng : Z -> Z) (n i j : Z) : float :=
  let c := (i * (2 * n - 1))%Z in
  let d := rand_mod rng (c + (n - 1) + j) 10 in
  if (i =? j)%Z then row_sum_of rng c (n - 1) + d + 1 else d.

Definition gen_b (rng : Z -> Z) (n i : Z) : float :=
  rand_mod rng (n * (2 * n - 1) + i) 100.

Lemma gen_sum_skip (rng : Z -> Z) (i : Z) (l : list Z) :
  i ∉ l ->
  forall (c : Z) (s : float),
    foldl (gen_sum_body rng i) (c, s) l
    = ((c + Z.of_nat (length l))%Z,
       foldl (fun s k => s + abs (rand_mod rng k 10)) s
             (seqZ c (Z.of_nat (length l)))).
Proof.
  induction l as [|j l IH]; intros Hi c s.
  - simpl. now rewrite Z.add_0_r.
  - cbn [foldl]. unfold gen_sum_body at 2. cbn [fst snd].
    destruct (Z.eqb_spec i j) as [->|Hne];
      [exfalso; apply Hi; now left |].
    rewrite IH by (intros Hc; apply Hi; now right).
    cbn [length]. rewrite Nat2Z.inj_succ.
    rewrite (seqZ_cons c) by lia. cbn [foldl].
    f_equal; [lia |]. do 2 f_equal; lia.
Qed.

Lemma gen_sum_loop (rng : Z -> Z) (n i c : Z) :
  (0 <= i < n)%Z ->
  foldl (gen_sum_body rng i) (c, 0) (seqZ 0 n)
  = ((c + (n - 1))%Z, row_sum_of rng c (n - 1)).
Proof.
  intros Hi.
  assert (Hsplit : seqZ 0 n = seqZ 0 i ++ i :: seqZ (Z.succ i) (Z.pred (n - i))).
  { replace n with (i + (n - i))%Z at 1 by lia.
    rewrite seqZ_app by lia. rewrite (seqZ_cons (0 + i)) by lia.
    now rewrite Z.add_0_l. }
  rewrite Hsplit, foldl_app. cbn [foldl].
  rewrite gen_sum_skip by (intros Hc; apply elem_of_seqZ in Hc; lia).
  unfold gen_sum_body at 2. rewrite Z.eqb_refl.
  rewrite gen_sum_skip by (intros Hc; apply elem_of_seqZ in Hc; lia).
  rewrite !length_seqZ. unfold row_sum_of.
  replace (n - 1)%Z with (i + (n - 1 - i))%Z at 2 by lia.
  rewrite seqZ_app, foldl_app by lia.
  rewrite !Z2Nat.id by lia.
  replace (Z.pred (n - i)) with (n - 1 - i)%Z by lia.
  f_equal. lia.
Qed.

Lemma gen_write_loop (rng : Z -> Z) (i : Z) (rs : float) (c : Z)
    (out : list float) (m : nat) :
  foldl (gen_write_body rng i rs) (c, out) (seqZ 0 (Z.of_nat m))
  = ((c + Z.of_nat m)%Z,
     out ++ ((fun j => if (i =? j)%Z then rs + rand_mod rng (c + j) 10 + 1
                       else rand_mod rng (c + j) 10)
               <$> seqZ 0 (Z.of_nat m))).
Proof.
  induction m as [|m IH].
  - simpl. now rewrite Z.add_0_r, app_nil_r.
  - rewrite seqZ_S, foldl_app, IH. cbn [foldl].
    unfold gen_write_body. cbn [fst snd]. rewrite Z.add_0_l, fmap_app.
    cbn [fmap list_fmap].
    destruct (i =? Z.of_nat m)%Z; rewrite <- ?app_assoc; f_equal; lia.
Qed.

Lemma gen_row_step (rng : Z -> Z) (n i c : Z) (out : list float) :
  (0 <= i < n)%Z -> c = (i * (2 * n - 1))%Z ->
  gen_row_body rng n (c, out) i
  = (((i + 1) * (2 * n - 1))%Z, out ++ (gen_entry rng n i <$> seqZ 0 n)).
Proof.
  intros Hi ->. unfold gen_row_body. cbn [fst snd].
  rewrite gen_sum_loop by exact Hi. cbn [fst snd].
  pose proof (gen_write_loop rng i (row_sum_of rng (i * (2 * n - 1)) (n - 1))
                (i * (2 * n - 1) + (n - 1)) out (Z.to_nat n)) as H.
  rewrite Z2Nat.id in H by lia. rewrite H.
  f_equal. lia.
Qed.

Lemma gen_rows_loop (rng : Z -> Z) (n : Z) (k : nat) :
  (Z.of_nat k <= n)%Z ->
  foldl (gen_row_body rng n) (0%Z, []) (seqZ 0 (Z.of_nat k))
  = ((Z.of_nat k * (2 * n - 1))%Z,
     concat ((fun i => gen_entry rng n i <$> seqZ 0 n)
               <$> seqZ 0 (Z.of_nat k))).
Proof.
  induction k as [|k IH]; intros Hk; [reflexivity |].
  rewrite seqZ_S, foldl_app, IH by lia. cbn [foldl].
  rewrite Z.add_0_l, gen_row_step by lia.
  rewrite fmap_app, concat_app. cbn [fmap list_fmap concat].
  rewrite app_nil_r. f_equal. lia.
Qed.

Lemma gen_b_loop (rng : Z -> Z) (c : Z) (out : list float) (m : nat) :
  foldl (gen_b_body rng) (c, out) (seqZ 0 (Z.of_nat m))
  = ((c + Z.of_nat m)%Z,
     out ++ ((fun i => rand_mod rng (c + i) 100) <$> seqZ 0 (Z.of_nat m))).
Proof.
  induction m as [|m IH].
  - simpl. now rewrite Z.add_0_r, app_nil_r.
  - rewrite seqZ_S, foldl_app, IH. cbn [foldl].
    unfold gen_b_body. cbn [fst snd]. rewrite Z.add_0_l, fmap_app.
    cbn [fmap list_fmap]. rewrite <- ?app_assoc.
    f_equal; lia.
Qed.

Lemma generate_data_file_eq (rng : Z -> Z) (n : Z) :
  (0 <= n)%Z ->
  generate_data_file true rng n
  = Some (mk_file (Some n)
            (concat ((fun i => gen_entry rng n i <$> seqZ 0 n) <$> seqZ 0 n)
             ++ (gen_b rng n <$> seqZ 0 n)),
          (2 * n * n)%Z).
Proof.
  intros Hn. unfold generate_data_file. cbv zeta.
  pose proof (gen_rows_loop rng n (Z.to_nat n) ltac:(lia)) as Hrows.
  rewrite Z2Nat.id in Hrows by lia. rewrite Hrows.
  pose proof (gen_b_loop rng (n * (2 * n - 1))
                (concat ((fun i => gen_entry rng n i <$> seqZ 0 n)
                           <$> seqZ 0 n)) (Z.to_nat n)) as Hb.
  rewrite Z2Nat.id in Hb by lia. rewrite Hb. cbn [fst snd].
  do 2 f_equal. lia.
Qed.

Lemma get_app_l (l1 l2 : list float) (i : Z) :
  (0 <= i < Z.of_nat (length l1))%Z -> get (l1 ++ l2) i = get l1 i.
Proof.
  intros Hi. unfold get, rd. destruct (Z.ltb_spec i 0); [lia |].
  now rewrite lookup_app_l by lia.
Qed.

Lemma get_app_r (l1 l2 : list float) (i : Z) :
  (0 <= i)%Z -> get (l1 ++ l2) (Z.of_nat (length l1) + i) = get l2 i.
Proof.
  intros Hi. unfold get, rd.
  destruct (Z.ltb_spec (Z.of_nat (length l1) + i) 0); [lia |].
  destruct (Z.ltb_spec i 0); [lia |].
  rewrite lookup_app_r by lia.
  replace (Z.to_nat (Z.of_nat (length l1) + i) - length l1)%nat
    with (Z.to_nat i) by lia.
  reflexivity.
Qed.

Lemma length_gen_matrix (rng : Z -> Z) (n : Z) :
  (0 <= n)%Z ->
  Z.of_nat (length (concat ((fun i => gen_entry rng n i <$> seqZ 0 n)
                              <$> seqZ 0 n))) = (n * n)%Z.
Proof.
  intros Hn.
  pose proof (length_concat_blocks (fun i => gen_entry rng n i <$> seqZ 0 n)
                n (Z.to_nat n) Hn) as H.
  rewrite Z2Nat.id in H by lia. apply H.
  intros r _. rewrite length_fmap, length_seqZ. lia.
Qed.

(** X12.  What [generate_data_file] writes for a size [n >= 1], whatever
    [rand] returns.  The file holds [n], then [n * n + n] numbers: the
    matrix row by row, then the right-hand side, which is the layout that
    the loader of the MPI program reads, and the loader accepts the file.
    [rand] is called [2 * n * n] times.  Row [i] takes the calls from
    number [i * (2 * n - 1)]: the first [n - 1] of them are summed into
    [row_sum], the following [n] are the entries that are written.  So an
    entry off the diagonal is not one of the values that were summed: the
    diagonal entry is [row_sum] plus a draw plus 1, where [row_sum] is the
    sum of [n - 1] draws that appear nowhere in the file.  [main] returns
    0 after writing that file. *)
Theorem generator_output (rng : Z -> Z) (n : Z) :
  (1 <= n)%Z ->
  exists vals : list float,
    generate_data_file true rng n
    = Some (mk_file (Some n) vals, (2 * n * n)%Z)
    /\ Z.of_nat (length vals) = (n * n + n)%Z
    /\ (forall i j, (0 <= i < n)%Z -> (0 <= j < n)%Z -> i <> j ->
          get vals (i * n + j)
          = rand_mod rng (i * (2 * n - 1) + (n - 1) + j) 10)
    /\ (forall i, (0 <= i < n)%Z ->
          get vals (i * n + i)
          = row_sum_of rng (i * (2 * n - 1)) (n - 1)
            + rand_mod rng (i * (2 * n - 1) + (n - 1) + i) 10 + 1)
    /\ (forall i, (0 <= i < n)%Z ->
          get vals (n * n + i) = rand_mod rng (n * (2 * n - 1) + i) 100)
    /\ generate_main 3 n true rng = GenReturn 0 (Some (mk_file (Some n) vals))
    /\ ((n * n <= CInt.INT_MAX)%Z ->
        load (system_env n vals)
        = LoadOk n (take (Z.to_nat (n * n)) vals)
                 (drop (Z.to_nat (n * n)) vals)).
Proof.
  intros Hn.
  set (M := concat ((fun i => gen_entry rng n i <$> seqZ 0 n) <$> seqZ 0 n)).
  pose proof (length_gen_matrix rng n ltac:(lia)) as HM. fold M in HM.
  assert (Hentry : forall i j, (0 <= i < n)%Z -> (0 <= j < n)%Z ->
            get (M ++ (gen_b rng n <$> seqZ 0 n)) (i * n + j)
            = gen_entry rng n i j).
  { intros i j Hi Hj. rewrite get_app_l by nia. unfold M.
    rewrite (get_concat_blocks (fun i => gen_entry rng n i <$> seqZ 0 n)
               n n i j); try lia.
    - now rewrite get_fmap_at.
    - intros r _. rewrite length_fmap, length_seqZ. lia. }
  exists (M ++ (gen_b rng n <$> seqZ 0 n)).
  split; [apply generate_data_file_eq; lia |].
  split; [rewrite length_app, length_fmap, length_seqZ; lia |].
  split; [| split; [| split; [| split]]].
  - intros i j Hi Hj Hne. rewrite Hentry by auto. unfold gen_entry.
    destruct (Z.eqb_spec i j); [contradiction | reflexivity].
  - intros i Hi. rewrite Hentry by auto. unfold gen_entry.
    now rewrite Z.eqb_refl.
  - intros i Hi. rewrite <- HM, get_app_r by lia.
    now rewrite get_fmap_at.
  - unfold generate_main. cbn [negb Z.eqb Pos.eqb].
    destruct (Z.leb_spec n 0); [lia |].
    now rewrite generate_data_file_eq by lia.
  - intros HNN.
    rewrite (load_cases (system_env n (M ++ (gen_b rng n <$> seqZ 0 n))) n
               (M ++ (gen_b rng n <$> seqZ 0 n)) eq_refl
               (fun _ _ => eq_refl) Hn HNN).
    rewrite length_app, length_fmap, length_seqZ.
    destruct (Z.ltb_spec (Z.of_nat (length M + Z.to_nat n)) (n * n)); [lia |].
    destruct (Z.ltb_spec (Z.of_nat (length M + Z.to_nat n)) (n * n + n));
      [lia |].
    f_equal. rewrite take_ge; [reflexivity |].
    rewrite length_drop, length_app, length_fmap, length_seqZ. lia.
Qed.

Lemma generator_output_witness :
  exists vals : list float,
    generate_data_file true (fun k => (k * 7 + 3)%Z) 2
    = Some (mk_file (Some 2%Z) vals, 8%Z)
    /\ Z.of_nat (length vals) = 6%Z.
Proof.
  destruct (generator_output (fun k => (k * 7 + 3)%Z) 2 ltac:(lia))
    as (vals & Hrun & Hlen & _).
  exists vals. split; [exact Hrun | exact Hlen].
Defined.

Lemma row_sum_of_zero (rng : Z -> Z) (c : Z) (m : nat) :
  (forall k, (c <= k < c + Z.of_nat m)%Z -> rng k = 0%Z) ->
  row_sum_of rng c (Z.of_nat m) = 0.
Proof.
  unfold row_sum_of. induction m as [|m IH]; intros H; [reflexivity |].
  rewrite seqZ_S, foldl_app, IH by (intros k Hk; apply H; lia).
  cbn [foldl]. unfold rand_mod. rewrite H by lia. reflexivity.
Qed.

(** X13.  The matrix that the generator writes need not be diagonally
    dominant, although the diagonal entry is built as a sum of magnitudes
    plus a positive number: what is summed are draws other than the
    entries of the row.  For every size [n >= 2] there are return values
    of [rand], all between 0 and 9, for which the file has the diagonal
    entry 1 and the entry 9 next to it in row 0. *)
Theorem generator_not_dominant (n : Z) :
  (2 <= n)%Z ->
  exists (rng : Z -> Z) (vals : list float),
    (forall k, (0 <= rng k <= 9)%Z)
    /\ generate_data_file true rng n
       = Some (mk_file (Some n) vals, (2 * n * n)%Z)
    /\ get vals 0 = 1 /\ get vals 1 = 9
    /\ (abs (get vals 0) <? abs (get vals 1)) = true.
Proof.
  intros Hn.
  set (rng := fun k : Z => if (k =? n)%Z then 9%Z else 0%Z).
  set (M := concat ((fun i => gen_entry rng n i <$> seqZ 0 n) <$> seqZ 0 n)).
  pose proof (length_gen_matrix rng n ltac:(lia)) as HM. fold M in HM.
  assert (Hentry : forall j, (0 <= j < n)%Z ->
            get (M ++ (gen_b rng n <$> seqZ 0 n)) j = gen_entry rng n 0 j).
  { intros j Hj. rewrite get_app_l by nia. unfold M.
    pose proof (get_concat_blocks (fun i => gen_entry rng n i <$> seqZ 0 n)
                  n n 0 j ltac:(lia) ltac:(lia) Hj) as H.
    rewrite Z.mul_0_l, Z.add_0_l in H. rewrite H.
    - now rewrite get_fmap_at.
    - intros r _. rewrite length_fmap, length_seqZ. lia. }
  assert (H0 : get (M ++ (gen_b rng n <$> seqZ 0 n)) 0 = 1).
  { rewrite Hentry by lia. unfold gen_entry. cbv zeta.
    rewrite Z.eqb_refl, Z.mul_0_l, !Z.add_0_l, Z.add_0_r.
    pose proof (row_sum_of_zero rng 0 (Z.to_nat (n - 1))) as Hs.
    rewrite Z2Nat.id in Hs by lia. rewrite Hs.
    - unfold rand_mod, rng. destruct (Z.eqb_spec (n - 1) n); [lia |].
      reflexivity.
    - intros k Hk. unfold rng. destruct (Z.eqb_spec k n); [lia | reflexivity]. }
  assert (H1 : get (M ++ (gen_b rng n <$> seqZ 0 n)) 1 = 9).
  { rewrite Hentry by lia. unfold gen_entry. cbv zeta.
    change (0 =? 1)%Z with false. cbv iota.
    rewrite Z.mul_0_l, Z.add_0_l. unfold rand_mod, rng.
    replace (n - 1 + 1)%Z with n by lia. now rewrite Z.eqb_refl. }
  exists rng, (M ++ (gen_b rng n <$> seqZ 0 n)).
  split; [intros k; unfold rng; destruct (k =? n)%Z; lia |].
  split; [apply generate_data_file_eq; lia |].
  split; [exact H0 |]. split; [exact H1 |].
  rewrite H0, H1. reflexivity.
Qed.

Lemma generator_not_dominant_witness :
  exists (rng : Z -> Z) (vals : list float),
    generate_data_file true rng 2 = Some (mk_file (Some 2%Z) vals, 8%Z)
    /\ get vals 0 = 1 /\ get vals 1 = 9.
Proof.
  destruct (generator_not_dominant 2 ltac:(lia))
    as (rng & vals & _ & Hrun & H0 & H1 & _).
  exists rng, vals. split; [exact Hrun |]. split; [exact H0 | exact H1].
Defined.

(** * The [main] of the OpenMP program (OpenMP.c, lines 211-300)

    No result of [fscanf] or [malloc] is tested.  A null pointer is a
    buffer without cells, and [N_before] is what [N] holds when the first
    [fscanf] stores nothing. *)

Definition null_or (o : option (list float)) : list float :=
  match o with Some buf => buf | None => [] end.

(** [A[i] = (double * )malloc(N * sizeof(double));] *)
Definition omp_alloc_row_body (e : env) (N : Z) (i : Z) (A : list (list float))
  : option (list (list float)) :=
  if ((0 <=? i) && (i <? Z.of_nat (length A)))%Z
  then Some (<[Z.to_nat i :=
                 null_or (malloc_doubles e (SizeT.mul (SizeT.of_int N) 8))]> A)
  else None.

(** [fscanf(file, "%lf", &A[i][j]);]: the pointer [A[i]] is loaded, then
    the conversion stores through it if there is a number to read. *)
Definition scan_cell (i j : Z) (s : list (list float) * list float)
  : option (list (list float) * list float) :=
  if (i <? 0)%Z then None
  else
    match s.1 !! Z.to_nat i with
    | None => None
    | Some row =>
        match scan_lf row j s.2 with
        | None => None
        | Some (row', rest) => Some (<[Z.to_nat i := row']> s.1, rest)
        end
    end.

(** Row [i] of what is printed of the system: the first entries of the row
    and [b[i]]. *)
Definition show_row (A : list (list float)) (b : list float) (print_size : Z)
    (i : Z) : option (list float * float) :=
  match mapM (rd2 A i) (seqZ 0 print_size), rd b i with
  | Some r, Some bi => Some (r, bi)
  | _, _ => None
  end.

Inductive omp_status : Type :=
| OMainReturn (status : Z)
              (out : option (list (list float * float) * list float * Z))
| OMainFault
| OMainFuel.

Definition omp_main (e : env) (sched : Z -> list Z) (N_before : Z)
  : omp_status :=
  match file e with
  | None => OMainReturn 1 None
  | Some f =>
      let N := match f_N f with Some n => n | None => N_before end in
      let bytes := SizeT.mul (SizeT.of_int N) 8 in
      let A0 : list (list float) :=
        if malloc_ok e bytes then replicate (Z.to_nat (bytes / 8)) [] else [] in
      match for_each 0 N (omp_alloc_row_body e N) A0 with
      | None => OMainFault
      | Some A1 =>
          let b0 := null_or (malloc_doubles e bytes) in
          let x0 := null_or (malloc_doubles e bytes) in
          match for_each 0 N (fun i s => for_each 0 N (scan_cell i) s)
                         (A1, f_nums f) with
          | None => OMainFault
          | Some (A, rest) =>
              match for_each 0 N
                      (fun i (s : list float * list float) =>
                         scan_lf s.1 i s.2) (b0, rest) with
              | None => OMainFault
              | Some (b, _) =>
                  let print_size := if (N <? 5)%Z then N else 5%Z in
                  match mapM (show_row A b print_size) (seqZ 0 print_size) with
                  | None => OMainFault
                  | Some shown =>
                      match jacobi e sched N A b x0 with
                      | OFault => OMainFault
                      | OFuel => OMainFuel
                      | OReturn x it =>
                          match mapM (rd x) (seqZ 0 print_size) with
                          | None => OMainFault
                          | Some xs => OMainReturn 0 (Some (shown, xs, it))
                          end
                      end
                  end
              end
          end
      end
  end.

(** ** The reader of the OpenMP [main] *)

Definition mat_rows (N : Z) (nums : list float) : list (list float) :=
  (fun r => slice nums (r * N) N) <$> seqZ 0 N.

Lemma omp_alloc_rows (e : env) (N : Z) :
  (forall k, malloc_ok e k = true) -> (1 <= N <= CInt.INT_MAX)%Z ->
  for_each 0 N (omp_alloc_row_body e N) (replicate (Z.to_nat N) [])
  = Some ((fun _ => replicate (Z.to_nat N) uninit) <$> seqZ 0 N).
Proof.
  intros Hm HN. apply for_each_fill_any; try lia.
  - rewrite length_replicate. lia.
  - intros i w Hi Hw. unfold omp_alloc_row_body.
    rewrite length_replicate in Hw.
    destruct (Z.leb_spec 0 i); [| lia].
    destruct (Z.ltb_spec i (Z.of_nat (length w))); [| lia]. cbn [andb].
    rewrite sizet_bytes1 by lia.
    now rewrite malloc_doubles_ok by exact Hm.
Qed.

Lemma scan_row (N : Z) (A : list (list float)) (row st : list float) (i : Z) :
  (0 <= N)%Z -> (0 <= i)%Z -> A !! Z.to_nat i = Some row ->
  Z.of_nat (length row) = N -> (N <= Z.of_nat (length st))%Z ->
  for_each 0 N (scan_cell i) (A, st)
  = Some (<[Z.to_nat i := take (Z.to_nat N) st]> A, drop (Z.to_nat N) st).
Proof.
  intros HN Hi Hrow Hlen Hst.
  assert (HiA : (Z.to_nat i < length A)%nat)
    by (apply lookup_lt_is_Some; eauto).
  destruct (for_each_inv
    (fun j (t : list (list float) * list float) =>
       t = (<[Z.to_nat i := take (Z.to_nat j) st ++ drop (Z.to_nat j) row]> A,
            drop (Z.to_nat j) st))
    0 N (scan_cell i) (A, st)) as (s' & Hs' & ->); try lia.
  - simpl. rewrite !drop_0. now rewrite list_insert_id.
  - intros j t Hj ->. unfold scan_cell. cbn [fst snd].
    destruct (Z.ltb_spec i 0); [lia |].
    rewrite list_lookup_insert_eq by lia.
    destruct (lookup_lt_is_Some_2 st (Z.to_nat j) ltac:(lia)) as [v Hv].
    rewrite (drop_S _ _ _ Hv). cbn [scan_lf].
    rewrite wr_in_range
      by (rewrite length_app, length_take, length_drop; lia).
    eexists. split; [reflexivity |].
    rewrite list_insert_insert_eq.
    replace (Z.to_nat (j + 1)) with (S (Z.to_nat j)) by lia.
    rewrite insert_take_drop_step by (rewrite ?length_take; lia).
    now rewrite (take_S_r _ _ _ Hv).
  - rewrite Hs'. do 3 f_equal.
    rewrite (drop_ge row) by lia. now rewrite app_nil_r.
Qed.

Lemma omp_read_A (N : Z) (nums : list float) (A1 : list (list float)) :
  (1 <= N)%Z -> Z.of_nat (length A1) = N ->
  Forall (fun r => length r = Z.to_nat N) A1 ->
  (N * N <= Z.of_nat (length nums))%Z ->
  for_each 0 N (fun i s => for_each 0 N (scan_cell i) s) (A1, nums)
  = Some (mat_rows N nums, drop (Z.to_nat (N * N)) nums).
Proof.
  intros HN HA Hrows Hlen.
  destruct (for_each_inv
    (fun i (t : list (list float) * list float) =>
       t = (((fun r => slice nums (r * N) N) <$> seqZ 0 i)
              ++ drop (Z.to_nat i) A1,
            drop (Z.to_nat (i * N)) nums))
    0 N (fun i s => for_each 0 N (scan_cell i) s) (A1, nums))
    as (s' & Hs' & ->); try lia.
  - simpl. now rewrite !drop_0.
  - intros i t Hi ->.
    destruct (lookup_lt_is_Some_2 A1 (Z.to_nat i) ltac:(lia)) as [row Hrow].
    assert (Hl : length row = Z.to_nat N).
    { rewrite Forall_forall in Hrows. apply Hrows.
      now apply list_elem_of_lookup_2 in Hrow. }
    rewrite (scan_row N _ row);
      [| lia | lia
       | rewrite lookup_app_r, length_fmap, length_seqZ, lookup_drop
           by (rewrite length_fmap, length_seqZ; lia);
         rewrite <- Hrow; f_equal; lia
       | lia
       | rewrite length_drop; nia ].
    eexists. split; [reflexivity |]. f_equal.
    + rewrite insert_take_drop_step
        by (rewrite ?length_fmap, ?length_seqZ; lia).
      replace (i + 1)%Z with (Z.of_nat (S (Z.to_nat i))) by lia.
      rewrite seqZ_S, fmap_app. cbn [fmap list_fmap].
      rewrite Z.add_0_l, Z2Nat.id, Nat2Z.id by lia.
      reflexivity.
    + rewrite drop_drop. f_equal. nia.
  - rewrite Hs'. unfold mat_rows. rewrite drop_ge by lia.
    now rewrite app_nil_r.
Qed.

Lemma concat_mat_rows (N : Z) (nums : list float) (k : nat) :
  (0 <= N)%Z ->
  concat ((fun r => slice nums (r * N) N) <$> seqZ 0 (Z.of_nat k))
  = take (Z.to_nat (Z.of_nat k * N)) nums.
Proof.
  intros HN. induction k as [|k IH]; [reflexivity |].
  rewrite seqZ_S, fmap_app, concat_app, IH. cbn [fmap list_fmap concat].
  rewrite app_nil_r, Z.add_0_l. unfold slice.
  rewrite take_take_drop. f_equal. nia.
Qed.

Lemma valid_run_of_file (e : env) (N P : Z) (nums : list float) :
  file e = Some (mk_file (Some N) nums) ->
  (forall k, malloc_ok e k = true) ->
  (1 <= N)%Z -> (N * N <= CInt.INT_MAX)%Z -> (1 <= P <= CInt.INT_MAX)%Z ->
  (N * N + N <= Z.of_nat (length nums))%Z ->
  valid_run e N P (take (Z.to_nat (N * N)) nums)
            (take (Z.to_nat N) (drop (Z.to_nat (N * N)) nums)).
Proof.
  intros Hf Hm H1 H2 HP Hlen.
  repeat split; try assumption; try lia; auto.
  - rewrite length_take. lia.
  - rewrite length_take, length_drop. lia.
  - exists (drop (Z.to_nat N) (drop (Z.to_nat (N * N)) nums)).
    rewrite Hf. now rewrite !take_drop.
Qed.

(** X14.  The OpenMP program and the MPI program read the same file
    layout and print the same result.  On a file with a dimension
    [N >= 1] ([N * N] in the range of [int]) followed by at least
    [N * N + N] numbers, with no allocation failing and whatever the order
    of the passes of the parallel loop, the OpenMP [main] returns 0 after
    printing the first [min(N, 5)] entries of the solution and the count
    of iterations, and these are the entries and the count that the MPI
    job started with one rank reports for the same file. *)
Theorem omp_main_matches_mpi (e : env) (sched : Z -> list Z)
    (N N_before : Z) (nums : list float) :
  file e = Some (mk_file (Some N) nums) ->
  (forall k, malloc_ok e k = true) ->
  (1 <= N)%Z -> (N * N <= CInt.INT_MAX)%Z ->
  (N * N + N <= Z.of_nat (length nums))%Z ->
  (forall k, sched k ≡ₚ seqZ 0 N) ->
  exists (res : list float * Z * float) (shown : list (list float * float)),
    run_job e 1
    = Finished [(0%Z, Some (OutReport N 1 (print_size N)
                              (take (Z.to_nat (print_size N)) res.1.1)
                              res.1.2 res.2))]
    /\ omp_main e sched N_before
       = OMainReturn 0 (Some (shown, take (Z.to_nat (print_size N)) res.1.1,
                              res.1.2)).
Proof.
  intros Hf Hm HN HNN Hlen Hsched.
  assert (HNmax : (1 <= N <= CInt.INT_MAX)%Z)
    by (unfold CInt.INT_MAX in *; nia).
  set (A := take (Z.to_nat (N * N)) nums).
  set (b := take (Z.to_nat N) (drop (Z.to_nat (N * N)) nums)).
  assert (Hrows : Forall (fun r => length r = Z.to_nat N) (mat_rows N nums)).
  { unfold mat_rows. apply Forall_fmap, Forall_forall. intros r Hr.
    apply elem_of_seqZ in Hr. simpl. unfold slice.
    rewrite length_take, length_drop. nia. }
  assert (HlenA : Z.of_nat (length (mat_rows N nums)) = N).
  { unfold mat_rows. rewrite length_fmap, length_seqZ. lia. }
  assert (Hcat : concat (mat_rows N nums) = A).
  { unfold mat_rows, A.
    pose proof (concat_mat_rows N nums (Z.to_nat N) ltac:(lia)) as H.
    now rewrite Z2Nat.id in H by lia. }
  assert (Hlb : Z.of_nat (length b) = N).
  { unfold b. rewrite length_take, length_drop. lia. }
  assert (Hshown : exists shown,
            mapM (show_row (mat_rows N nums) b (print_size N))
                 (seqZ 0 (print_size N)) = Some shown).
  { apply mapM_is_Some, Forall_forall. intros i Hi.
    apply elem_of_seqZ in Hi. unfold print_size in *.
    assert (Hps : (0 <= (if (N <? 5)%Z then N else 5%Z) <= N)%Z)
      by (destruct (Z.ltb_spec N 5); lia).
    simpl. unfold show_row.
    assert (Hr : is_Some (mapM (rd2 (mat_rows N nums) i)
                               (seqZ 0 (if (N <? 5)%Z then N else 5%Z)))).
    { apply mapM_is_Some, Forall_forall. intros j Hj.
      apply elem_of_seqZ in Hj. simpl.
      rewrite (rd2_concat N) by (auto; lia). eauto. }
    destruct Hr as [r ->]. rewrite rd_in_range by lia. eauto. }
  destruct Hshown as (shown & Hshown).
  exists (solve N 1 A b), shown. split.
  - rewrite (run_job_spec e N 1 A b).
    + reflexivity.
    + apply valid_run_of_file; auto. unfold CInt.INT_MAX. lia.
  - unfold omp_main. rewrite Hf. cbn [f_N f_nums]. cbv zeta.
    rewrite sizet_bytes1 by lia.
    rewrite !malloc_doubles_ok, Hm by exact Hm.
    rewrite Z.div_mul by lia.
    rewrite omp_alloc_rows by auto.
    rewrite (omp_read_A N nums); try lia.
    2:{ rewrite length_fmap, length_seqZ. lia. }
    2:{ apply Forall_fmap, Forall_forall. intros r _. simpl.
        now rewrite length_replicate. }
    pose proof (scan_block_Z 0 N (replicate (Z.to_nat N) uninit)
                  (drop (Z.to_nat (N * N)) nums) ltac:(lia) ltac:(lia)
                  ltac:(rewrite length_replicate; lia)
                  ltac:(rewrite length_drop; lia)) as Hb.
    change (fun (j : Z) (t : list float * list float) =>
              scan_lf t.1 (0 + j) t.2)
      with (fun (i : Z) (s : list float * list float) => scan_lf s.1 i s.2)
      in Hb.
    cbn [null_or]. rewrite Hb.
    change (Z.to_nat 0) with 0%nat. rewrite take_0, Nat.add_0_l.
    rewrite (drop_ge (replicate _ _)) by (rewrite length_replicate; lia).
    rewrite app_nil_r. cbn [app]. fold b.
    fold (print_size N). rewrite Hshown.
    rewrite (jacobi_returns_solve e sched N (mat_rows N nums) b); auto.
    2:{ rewrite length_replicate. lia. }
    rewrite Hcat.
    assert (Hlx : Z.of_nat (length (solve N 1 A b).1.1) = N).
    { pose proof (solve_count N 1 A b) as (Hc & Hx & _).
      rewrite Hx.
      assert (H1 : (1 <= 1 <= CInt.INT_MAX)%Z) by (unfold CInt.INT_MAX; lia).
      destruct (Z.to_nat (solve N 1 A b).1.2) as [|k] eqn:Hk; [lia |].
      simpl. rewrite (next_x_full_sweep N 1 A b _ HNmax H1).
      apply length_full_sweep. lia. }
    rewrite mapM_rd_prefix; [reflexivity |].
    unfold print_size. destruct (Z.ltb_spec N 5); lia.
Qed.

Lemma omp_main_matches_mpi_witness :
  exists (res : list float * Z * float) (shown : list (list float * float)),
    run_job (system_env 1 [2; 4]) 1
    = Finished [(0%Z, Some (OutReport 1 1 (print_size 1)
                              (take (Z.to_nat (print_size 1)) res.1.1)
                              res.1.2 res.2))]
    /\ omp_main (system_env 1 [2; 4]) (fun _ => [0%Z]) 0
       = OMainReturn 0 (Some (shown, take (Z.to_nat (print_size 1)) res.1.1,
                              res.1.2)).
Proof.
  apply (omp_main_matches_mpi (system_env 1 [2; 4]) (fun _ => [0%Z]) 1 0
           [2; 4]).
  - reflexivity.
  - reflexivity.
  - lia.
  - unfold CInt.INT_MAX; lia.
  - simpl; lia.
  - intros _. reflexivity.
Defined.

(** * An infinite entry in the serial update *)

(** An infinity of the given sign, or NaN. *)
Definition inf_or_nan (sg : bool) (v : float) : Prop :=
  Prim2SF v = S754_infinity sg \/ Prim2SF v = S754_nan.

Lemma inf_or_nan_add_l (sg : bool) (s t : float) :
  inf_or_nan sg s -> inf_or_nan sg (s + t).
Proof.
  unfold inf_or_nan. rewrite add_spec. intros [H|H]; rewrite H.
  - destruct (Prim2SF t) as [st | st | | st mt et]; simpl; auto.
    destruct sg, st; simpl; auto.
  - now right.
Qed.

Lemma inf_or_nan_add_r (sg : bool) (s t : float) :
  inf_or_nan sg t -> inf_or_nan sg (s + t).
Proof.
  unfold inf_or_nan. rewrite add_spec. intros [H|H]; rewrite H.
  - destruct (Prim2SF s) as [ss | ss | | ss ms es]; simpl; auto.
    destruct ss, sg; simpl; auto.
  - destruct (Prim2SF s) as [ss | ss | | ss ms es]; simpl; auto.
Qed.

Lemma inf_or_nan_foldl (sg : bool) (f : Z -> float) (l : list Z) (i : Z) :
  i ∈ l -> inf_or_nan sg (f i) ->
  forall s, inf_or_nan sg (foldl (fun s j => s + f j) s l).
Proof.
  assert (Hacc : forall (l : list Z) (s : float),
            inf_or_nan sg s -> inf_or_nan sg (foldl (fun s j => s + f j) s l)).
  { induction l0 as [|j l0 IH]; intros s Hs; [exact Hs |].
    simpl. apply IH. now apply inf_or_nan_add_l. }
  induction l as [|j l IH]; intros Hi Hf s.
  - apply elem_of_nil in Hi. destruct Hi.
  - simpl. apply elem_of_cons in Hi as [->|Hi].
    + apply Hacc. now apply inf_or_nan_add_r.
    + now apply IH.
Qed.

Lemma mul_infinite (d xi : float) (sx : bool) :
  Prim2SF xi = S754_infinity sx -> exists sg, inf_or_nan sg (d * xi).
Proof.
  intros H. unfold inf_or_nan. rewrite mul_spec, H.
  destruct (Prim2SF d) as [sd | sd | | sd md ed]; simpl.
  - exists true. now right.
  - exists (xorb sd sx). now left.
  - exists true. now right.
  - exists (xorb sd sx). now left.
Qed.

Lemma sub_same_infinity (sg : bool) (s t : float) :
  inf_or_nan sg s -> inf_or_nan sg t -> Prim2SF (s - t) = S754_nan.
Proof.
  unfold inf_or_nan. rewrite sub_spec. intros [Hs|Hs] [Ht|Ht];
    rewrite Hs, Ht; try reflexivity.
  destruct sg; reflexivity.
Qed.

Lemma sub_nan_r (a t : float) :
  Prim2SF t = S754_nan -> Prim2SF (a - t) = S754_nan.
Proof.
  intros H. rewrite sub_spec, H.
  destruct (Prim2SF a) as [sa | sa | | sa ma ea]; reflexivity.
Qed.

Lemma div_nan_l (a d : float) :
  Prim2SF a = S754_nan -> Prim2SF (a / d) = S754_nan.
Proof. intros H. rewrite div_spec, H. reflexivity. Qed.

Lemma serial_row_infinite (N : Z) (Adata b xo : list float) (i : Z) (sx : bool) :
  (0 <= i < N)%Z -> Prim2SF (get xo i) = S754_infinity sx ->
  is_nan (serial_row N Adata b xo i) = true.
Proof.
  intros Hi Hx. rewrite is_nan_spec. unfold serial_row.
  destruct (mul_infinite (get Adata (i * N + i)) (get xo i) sx Hx)
    as (sg & Hprod).
  rewrite div_nan_l; [reflexivity |].
  apply sub_nan_r, (sub_same_infinity sg); [| exact Hprod].
  unfold serial_dot.
  apply (inf_or_nan_foldl sg (fun j => get Adata (i * N + j) * get xo j)
           (seqZ 0 N) i); [| exact Hprod].
  apply elem_of_seqZ. lia.
Qed.

Lemma full_row_ignores_own (N : Z) (A b xo : list float) (i : Z) (v : float) :
  (0 <= i < Z.of_nat (length xo))%Z ->
  full_row N A b (<[Z.to_nat i := v]> xo) i = full_row N A b xo i.
Proof.
  intros Hi. unfold full_row. do 2 f_equal. unfold offdiag_sum.
  apply foldl_ext_in. intros s j Hj.
  apply list_elem_of_filter in Hj as (Hne & Hj). apply elem_of_seqZ in Hj.
  rewrite get_insert by lia.
  destruct (Z.eqb_spec j i); [contradiction | reflexivity].
Qed.

(** X15.  The update of the serial solver adds the diagonal term to the
    sum and takes it away again (lines 42-44).  When [x_old[i]] is an
    infinity, the product [A[i][i] * x_old[i]] is an infinity or NaN, the
    sum that contains it is an infinity of the same sign or NaN, and the
    difference of the two is NaN: on a well-formed call the update loop
    completes and leaves a NaN in [x_new[i]], whatever the matrix and the
    right-hand side are.  The update of the MPI and OpenMP programs skips
    the diagonal term instead and never reads [x_old[i]] for row [i]. *)
Theorem serial_infinite_entry_gives_nan (N : Z)
    (Adata b diag xo xn : list float) (i : Z) (sx : bool) :
  (1 <= N <= CInt.INT_MAX)%Z ->
  Z.of_nat (length Adata) = (N * N)%Z -> Z.of_nat (length b) = N ->
  Z.of_nat (length diag) = N ->
  (forall k, (0 <= k < N)%Z -> get diag k = get Adata (k * N + k)) ->
  Z.of_nat (length xo) = N -> Z.of_nat (length xn) = N ->
  (0 <= i < N)%Z ->
  Prim2SF (get xo i) = S754_infinity sx ->
  (exists xs,
     for_each 0 N (serial_update_body Adata (row_table N) b diag N xo) xn
     = Some xs
     /\ is_nan (get xs i) = true)
  /\ (forall v, full_row N Adata b (<[Z.to_nat i := v]> xo) i
                = full_row N Adata b xo i).
Proof.
  intros HN HA Hb Hd Hdv Hxo Hxn Hi Hx. split.
  - exists (serial_sweep N Adata b xo).
    split; [apply serial_update_loop; auto; lia |].
    unfold serial_sweep.
    rewrite (get_fmap_at (serial_row N Adata b xo)) by lia.
    now apply (serial_row_infinite N Adata b xo i sx).
  - intros v. apply full_row_ignores_own. lia.
Qed.

Lemma serial_infinite_entry_gives_nan_witness :
  exists xs,
    for_each 0 1 (serial_update_body [2] (row_table 1) [4] [2] 1 [infinity])
             [0]
    = Some xs
    /\ is_nan (get xs 0) = true.
Proof.
  destruct (serial_infinite_entry_gives_nan 1 [2] [4] [2] [infinity] [0] 0
              false) as (H & _); try reflexivity.
  - unfold CInt.INT_MAX; lia.
  - intros k Hk. assert (k = 0%Z) as -> by lia. reflexivity.
  - lia.
  - exact H.
Defined.

(** * A generated file given to the serial program *)

Lemma rand_mod_zero (c m : Z) : rand_mod (fun _ => 0%Z) c m = 0.
Proof. unfold rand_mod. destruct m; reflexivity. Qed.

(** The file written when every call of [rand] returns 0: the identity
    matrix and a right-hand side of zeros. *)
Definition identity_file (n : Z) : list float :=
  concat ((fun i => gen_entry (fun _ => 0%Z) n i <$> seqZ 0 n) <$> seqZ 0 n)
  ++ (gen_b (fun _ => 0%Z) n <$> seqZ 0 n).

Lemma identity_file_entry (n i j : Z) :
  (0 <= i < n)%Z -> (0 <= j < n)%Z ->
  get (identity_file n) (i * n + j) = if (i =? j)%Z then 1 else 0.
Proof.
  intros Hi Hj. unfold identity_file.
  pose proof (length_gen_matrix (fun _ => 0%Z) n ltac:(lia)) as HM.
  rewrite get_app_l by nia.
  rewrite (get_concat_blocks
             (fun i => gen_entry (fun _ => 0%Z) n i <$> seqZ 0 n) n n i j);
    try lia.
  - rewrite get_fmap_at by lia. unfold gen_entry. cbv zeta.
    rewrite rand_mod_zero.
    destruct (i =? j)%Z; [| reflexivity].
    pose proof (row_sum_of_zero (fun _ => 0%Z) (i * (2 * n - 1))
                  (Z.to_nat (n - 1)) ltac:(reflexivity)) as Hs.
    rewrite Z2Nat.id in Hs by lia. rewrite Hs. reflexivity.
  - intros r _. rewrite length_fmap, length_seqZ. lia.
Qed.

Lemma identity_file_b (n i : Z) :
  (0 <= i < n)%Z -> get (identity_file n) (n * n + i) = 0.
Proof.
  intros Hi. unfold identity_file.
  pose proof (length_gen_matrix (fun _ => 0%Z) n ltac:(lia)) as HM.
  rewrite <- HM, get_app_r by lia.
  rewrite get_fmap_at by lia. unfold gen_b. apply rand_mod_zero.
Qed.

(** X16.  The generator and the serial program do not fit together.  When
    every call of [rand] returns 0, the generator writes, for any size
    [n >= 2], the identity matrix followed by a right-hand side of zeros,
    a system whose diagonal entries are all 1.  The serial program, which
    takes the number after each row for an entry of [b], reads from that
    file a matrix whose entry [(1, 1)] is 0 and ends through
    [exit(EXIT_FAILURE)], reporting a zero diagonal element at row 1. *)
Theorem generated_file_rejected_by_serial (n : Z) :
  (2 <= n)%Z -> (n * n <= CInt.INT_MAX)%Z ->
  generate_data_file true (fun _ => 0%Z) n
  = Some (mk_file (Some n) (identity_file n), (2 * n * n)%Z)
  /\ (forall i, (0 <= i < n)%Z -> get (identity_file n) (i * n + i) = 1)
  /\ serial_main 2 (system_env n (identity_file n))
     = SMainExit (ZeroDiagonal 1).
Proof.
  intros Hn HNN.
  split; [apply generate_data_file_eq; lia |].
  split; [intros i Hi; rewrite identity_file_entry by lia;
          now rewrite Z.eqb_refl |].
  assert (Hlen : (n * (n + 1) <= Z.of_nat (length (identity_file n)))%Z).
  { unfold identity_file.
    pose proof (length_gen_matrix (fun _ => 0%Z) n ltac:(lia)) as HM.
    rewrite length_app, length_fmap, length_seqZ. lia. }
  pose proof (serial_main_cases (system_env n (identity_file n)) n
                (identity_file n) eq_refl (fun _ => eq_refl) ltac:(lia) HNN
                Hlen) as H.
  rewrite (near_zero_first n (aug_A n (identity_file n)) 1) in H;
    [exact H | lia | |].
  - rewrite get_aug_A by lia.
    destruct (Z.eq_dec n 2%Z) as [->|Hne].
    + change (1 * (2 + 1) + 1)%Z with (2 * 2 + 0)%Z.
      rewrite identity_file_b by lia. reflexivity.
    + replace (1 * (n + 1) + 1)%Z with (1 * n + 2)%Z by lia.
      rewrite identity_file_entry by lia. reflexivity.
  - intros j Hj. assert (j = 0%Z) as -> by lia.
    rewrite get_aug_A by lia.
    change (0 * (n + 1) + 0)%Z with (0 * n + 0)%Z.
    rewrite identity_file_entry by lia. reflexivity.
Qed.

Lemma generated_file_rejected_by_serial_witness :
  serial_main 2 (system_env 2 (identity_file 2)) = SMainExit (ZeroDiagonal 1).
Proof.
  apply (generated_file_rejected_by_serial 2).
  - lia.
  - unfold CInt.INT_MAX; lia.
Defined.
